(** * splat: the orchestration engine of [split.py]

    A shallow embedding of [split.py], the driver of the ROM splitter,
    and the properties of its segment loop, symbol export, split cache,
    statistics and linker-script writer.

    The per-kind segment handlers ([segtypes.*]), the YAML loader, [log]
    and [ranges] are not part of [split.py]: what the driver calls on them
    is taken as data of the model (the fields of [Segment], [SegClass] and
    [Env]). Of the console output only the [status="error"] entries are
    kept; the progress dots, the verbose lines and the report of the
    statistics step change nothing that [main] computes or writes, and
    are left out; [fmt_size], which formats the sizes of that report, is
    modelled on its own. [parse_file_start] is not used by [main]. *)

From Stdlib Require Import ZArith Ascii String.
From stdpp Require Import base option list gmap sets strings sorting pretty.

Local Open Scope Z_scope.

(** ** Python strings

    Strings are strings of characters of code below 256; the helpers
    below are the [str] methods the driver uses. *)
Module PyStr.

(** The one-character string of a newline. *)
Definition nl : string := String "010" EmptyString.

(** [sep.join(ls)] *)
Definition join (sep : string) (ls : list string) : string :=
  String.concat sep ls.

(** [s.replace(old, new)] for a one-character [old]. *)
Fixpoint replace (old : ascii) (new : string) (s : string) : string :=
  match s with
  | EmptyString => EmptyString
  | String c s' =>
      if Ascii.eqb c old then new +:+ replace old new s'
      else String c (replace old new s')
  end.

(** [s[:n]] for [n >= 0] *)
Definition take (n : nat) (s : string) : string := String.substring 0 n s.

(** [s[n:]] for [n >= 0] *)
Fixpoint drop (n : nat) (s : string) : string :=
  match n, s with
  | O, _ => s
  | S _, EmptyString => EmptyString
  | S n', String _ s' => drop n' s'
  end.

(** [s[:-n]] for [n > 0]: everything but the last [n] characters, and the
    empty string when [s] is shorter than [n]. *)
Definition drop_last (n : nat) (s : string) : string :=
  take (String.length s - n) s.

(** [c.upper()] on one byte: only [a]..[z] change. *)
Definition upper_ascii (c : ascii) : ascii :=
  let n := nat_of_ascii c in
  if (97 <=? n)%nat && (n <=? 122)%nat then ascii_of_nat (n - 32) else c.

(** [s.upper()] on ASCII text: only [a]..[z] change. *)
Fixpoint upper (s : string) : string :=
  match s with
  | EmptyString => EmptyString
  | String c s' => String (upper_ascii c) (upper s')
  end.

(** [s.split(sep)] for a one-character [sep]: the fields between the
    separators, always at least one. [split_go] carries the field being
    read, reversed. *)
Fixpoint split_go (sep : ascii) (cur : string) (s : string) : list string :=
  match s with
  | EmptyString => [String.rev cur]
  | String c s' =>
      if Ascii.eqb c sep then String.rev cur :: split_go sep EmptyString s'
      else split_go sep (String c cur) s'
  end.
Definition split (sep : ascii) (s : string) : list string :=
  split_go sep EmptyString s.

(** [s.endswith(suffix)] *)
Definition endswith (suffix s : string) : bool :=
  String.eqb (drop (String.length s - String.length suffix) s) suffix
  && (String.length suffix <=? String.length s)%nat.

(** Whether the character [c] occurs in [s]. *)
Fixpoint occurs (c : ascii) (s : string) : bool :=
  match s with
  | EmptyString => false
  | String x s' => Ascii.eqb x c || occurs c s'
  end.

(** The part of [s] before the first [sep]: the first field of
    [s.split(sep)]. *)
Fixpoint first_field (sep : ascii) (s : string) : string :=
  match s with
  | EmptyString => EmptyString
  | String c s' => if Ascii.eqb c sep then EmptyString
                   else String c (first_field sep s')
  end.

(** The digits [0]..[9], [a]..[f], [A]..[F], and the upper-case ones. *)
Definition is_hex (c : ascii) : bool :=
  let n := nat_of_ascii c in
  ((48 <=? n) && (n <=? 57) || (97 <=? n) && (n <=? 102)
   || (65 <=? n) && (n <=? 70))%nat.

Definition is_upper_hex (c : ascii) : bool :=
  let n := nat_of_ascii c in
  ((48 <=? n) && (n <=? 57) || (65 <=? n) && (n <=? 70))%nat.

(** Every character of [s] satisfies [p]. *)
Fixpoint all (p : ascii → bool) (s : string) : bool :=
  match s with
  | EmptyString => true
  | String c s' => p c && all p s'
  end.

(** [needle in s] on strings: [needle] occurs in [s] as a substring. *)
Fixpoint contains (needle s : string) : bool :=
  String.prefix needle s ||
  match s with
  | EmptyString => false
  | String _ s' => contains needle s'
  end.

End PyStr.

(** ** [write_ldscript]

    The text written to [<rom_name>.ld]. *)
Definition write_ldscript (sections : list string) (bare : bool) : string :=
  if bare then PyStr.join PyStr.nl sections
  else
    ("SECTIONS" +:+ PyStr.nl +:+ "{" +:+ PyStr.nl +:+ "    ")
    +:+ PyStr.drop_last 4
          (PyStr.join (PyStr.nl +:+ "    ")
             (map (PyStr.replace "010" (PyStr.nl +:+ "    ")) sections))
    +:+ ("}" +:+ PyStr.nl).


(** The text that the synthesizer is expected to give for [A], [B], [C]
    in default mode. *)
Definition expected_default_ABC : string :=
  "SECTIONS" +:+ PyStr.nl +:+ "{" +:+ PyStr.nl +:+
  "    A" +:+ PyStr.nl +:+ "    B" +:+ PyStr.nl +:+ "    C" +:+ PyStr.nl +:+
  "}" +:+ PyStr.nl.

(** ** Values of the run *)

(** The two kinds of Python values that meet in one set at the export of
    unresolved functions: addresses ([int]) and names ([str]). An [int] is
    never equal to a [str]. *)
Inductive PyKey :=
  | KInt (z : Z)
  | KStr (s : string).

Global Instance PyKey_eq_dec : EqDecision PyKey.
Proof. solve_decision. Defined.

Global Instance PyKey_countable : Countable PyKey :=
  inj_countable'
    (λ k, match k with KInt z => inl z | KStr s => inr s end)
    (λ x, match x with inl z => KInt z | inr s => KStr s end)
    (λ k, match k with KInt _ => eq_refl | KStr _ => eq_refl end).

(** How a call that does not return ends: [exit(code)], or an exception
    nobody catches (named by its class). *)
Inductive Failure :=
  | Exit (code : Z)
  | Raise (exc : string).

Global Instance Failure_eq_dec : EqDecision Failure.
Proof. solve_decision. Defined.

(** [options["modes"]]: the list given on the command line, or the bare
    string ["all"] that [argparse] supplies as the default. *)
Inductive Modes :=
  | ModesStr (s : string)
  | ModesList (l : list string).

(** [m in modes] *)
Definition in_modes (m : string) (modes : Modes) : bool :=
  match modes with
  | ModesStr s => PyStr.contains m s
  | ModesList l => bool_decide (m ∈ l)
  end.

(** The [options] dictionary, with the two entries [main] adds. *)
Record Options := {
  modes : Modes;
  verbose : bool;
  extensions : option string;      (* options["extensions"], when present *)
  ld_bare : bool                   (* options.get("ld_bare", False) *)
}.

(** What [split] leaves on a code segment. *)
Record SplitResult := {
  glabels_added : gset string;
  glabels_to_add : gset string;
  undefined_syms_to_add : gset string
}.

(** What [main] injects into a code segment. [all_functions] is the very
    set object [defined_funcs]: the segment sees it as it stands when its
    [split] runs. *)
Record CodeContext := {
  all_functions : gset string;
  c_functions : gmap Z string;
  c_variables : gmap Z string;
  special_labels : gmap Z string;
  c_labels_to_add : gset string;
  symbol_ranges : list (Z * Z * string)
}.

(** A segment object, as far as [main] uses it. The methods are those of
    the handler classes, which live outside [split.py]: each field is what
    the call answers in this run. [None] in [check] and [postsplit] means
    the call returns. *)
Module Seg.
Record Segment (Fp : Type) := {
  type : string;
  name : string;
  rom_start : Z;
  rom_end : Z;
  is_N64SegCode : bool;           (* type(segment) == N64SegCode *)
  check : option Failure;
  is_name_default : bool;
  should_run : bool;
  cache : Fp;
  unique_id : string;
  split : list Byte.byte → option CodeContext → Failure + SplitResult;
  postsplit : option Failure;
  get_ld_section : string
}.
Global Arguments type {_} _.
Global Arguments name {_} _.
Global Arguments rom_start {_} _.
Global Arguments rom_end {_} _.
Global Arguments is_N64SegCode {_} _.
Global Arguments check {_} _.
Global Arguments is_name_default {_} _.
Global Arguments should_run {_} _.
Global Arguments cache {_} _.
Global Arguments unique_id {_} _.
Global Arguments split {_} _ _ _.
Global Arguments postsplit {_} _.
Global Arguments get_ld_section {_} _.

(** Modelled from the spec: the attribute [rom_length] is set by the
    segment base class, which is not in [split.py]; the data model gives
    it as length = end − start. *)
Definition rom_length {Fp} (s : Segment Fp) : Z := rom_end s - rom_start s.
End Seg.
Export Seg (Segment).

(** The handler methods [main] calls, for the trace of calls. *)
Inductive Method :=
  | MCheck | MShouldRun | MCache | MSplit | MGetLdSection | MPostsplit.

Global Instance Method_eq_dec : EqDecision Method.
Proof. solve_decision. Defined.

(** An entry of the error log: [log.write(x, status="error")] with [x] an
    exception caught at an extension load, or a diagnostic text. *)
Inductive LogEntry :=
  | LogException (err : string)
  | LogText (msg : string).

Global Instance LogEntry_eq_dec : EqDecision LogEntry.
Proof. solve_decision. Defined.

(** A file of the output tree: text, or the pickled cache dictionary. *)
Inductive File (Fp : Type) :=
  | Text (s : string)
  | Pickle (c : gmap string Fp).
Global Arguments Text {_} _.
Global Arguments Pickle {_} _.

(** ** The manual symbol lists

    A line of [tools/symbol_addrs.txt] after tokenising:
    [name = addr; // info info ...]. *)
Inductive SymInfo :=
  | InfoBang                       (* "!" *)
  | InfoSize (size : Z)            (* "size:<n>" *)
  | InfoOther.

Record SymLine := {
  line_name : string;
  line_addr : Z;
  line_ext : list SymInfo
}.

Record CFuncs := {
  funcs : gmap Z string;
  labels_to_add : gset string;
  gathered_special_labels : gmap Z string;
  ranges : list (Z * Z * string)
}.

(** Lines 81 to 86, on one piece of information of a line. [ranges]
    keeps the arguments of the calls of [ranges.add], in order: what
    [Range] and [RangeDict] make of them (a range whose end is before
    its start is refused, a range that overlaps earlier ones cuts them)
    belongs to the [ranges] library. *)
Definition gather_info (name : string) (addr : Z) (acc : CFuncs) (info : SymInfo)
  : CFuncs :=
  match info with
  | InfoBang =>
      {| funcs := funcs acc;
         labels_to_add := labels_to_add acc ∪ {[name]};
         gathered_special_labels := <[addr := name]> (gathered_special_labels acc);
         ranges := ranges acc |}
  | InfoSize size =>
      {| funcs := funcs acc;
         labels_to_add := labels_to_add acc;
         gathered_special_labels := gathered_special_labels acc;
         ranges := ranges acc ++ [(addr, addr + size, name)] |}
  | InfoOther => acc
  end.

Definition gather_line (acc : CFuncs) (l : SymLine) : CFuncs :=
  let acc' :=
    {| funcs := <[line_addr l := line_name l]> (funcs acc);
       labels_to_add := labels_to_add acc;
       gathered_special_labels := gathered_special_labels acc;
       ranges := ranges acc |} in
  foldl (gather_info (line_name l) (line_addr l)) acc' (line_ext l).

(** [gather_c_funcs]: the dictionary goes from address to name. *)
Definition gather_c_funcs (lines : list SymLine) : CFuncs :=
  foldl gather_line
    {| funcs := ∅; labels_to_add := ∅; gathered_special_labels := ∅; ranges := [] |}
    lines.

(** [gather_c_variables], on lines [name = addr;]. *)
Definition gather_c_variables (lines : list (string * Z)) : gmap Z string :=
  foldl (λ vars l, <[l.2 := l.1]> vars) ∅ lines.

(** ** Paths *)

(** [os.path.join(a, b)] on POSIX. *)
Definition os_path_join (a b : string) : string :=
  if String.prefix "/" b then b
  else if bool_decide (a = EmptyString) || PyStr.endswith "/" a then a +:+ b
  else a +:+ "/" +:+ b.

(** The last character of a string, to tell paths apart. *)
Fixpoint last_char (s : string) : option ascii :=
  match s with
  | EmptyString => None
  | String c EmptyString => Some c
  | String _ s' => last_char s'
  end.

Definition cache_path : string := ".splat_cache".
Definition undefined_funcs_auto_path : string := "undefined_funcs_auto.txt".
Definition undefined_syms_auto_path : string := "undefined_syms_auto.txt".
Definition ldscript_path (rom_name : string) : string := rom_name +:+ ".ld".

(** ** The driver *)
Section Driver.
Context {Fp : Type} `{!EqDecision Fp} {Decl : Type}.

(** A raw entry of [config['segments']] is only looked at through
    [len(segment)] and [parse_segment_type(segment)]. *)
Variable decl_len : Decl → nat.
Variable parse_segment_type : Decl → string.

(** A handler class: its class attribute, and its constructor applied to
    [(segment, config['segments'][i + 1], options)]. *)
Record SegClass := {
  require_unique_name : bool;
  construct : Decl → Decl → Options → Segment Fp
}.

(** [getattr(module, name)]; [None] is an [AttributeError]. *)
Definition PyModule : Type := string → option SegClass.

(** [importlib.import_module(name)] *)
Inductive Imported :=
  | ImportNotFound                 (* raises ModuleNotFoundError *)
  | ImportRaises (exc : string)    (* raises something else *)
  | ImportOk (m : PyModule).

(** The modules that can be loaded in this run. [load_file path] is the
    body of the [try] of [get_extension_class]: [inl err] when one of its
    three calls raises an [Exception]. *)
Record Env := {
  import_module : string → Imported;
  load_file : string → string + PyModule
}.

(** The configuration file, as far as [main] reads it. *)
Record Config := {
  config_extensions : option string;
  config_ld_bare : bool;
  segments : list Decl;
  basename : string
}.

(** The local variables of [main] that the loop updates, the error log,
    and the trace of handler calls made so far. An element of
    [ran_segments] is a segment object after its [split]: the index of its
    declaration (its identity), the segment, and the attributes [split]
    left on it (read by [main] on a code segment only). *)
Record Locals := {
  ran_segments : list (nat * Segment Fp * SplitResult);
  ld_sections : list string;
  seen_segment_names : gset string;
  defined_funcs : gset string;
  undefined_funcs : gset string;
  undefined_syms : gset string;
  seg_sizes : gmap string Z;
  seg_split : gmap string Z;
  seg_cached : gmap string Z;
  cache : gmap string Fp;
  log : list LogEntry;
  calls : list (nat * Method)
}.

(** The assignments to one or a few of them. *)
Definition set_ran_segments (v : list (nat * Segment Fp * SplitResult))
    (st : Locals) : Locals :=
  {| ran_segments := v; ld_sections := ld_sections st;
     seen_segment_names := seen_segment_names st;
     defined_funcs := defined_funcs st; undefined_funcs := undefined_funcs st;
     undefined_syms := undefined_syms st; seg_sizes := seg_sizes st;
     seg_split := seg_split st; seg_cached := seg_cached st;
     cache := cache st; log := log st; calls := calls st |}.

Definition set_ld_sections (v : list string) (st : Locals) : Locals :=
  {| ran_segments := ran_segments st; ld_sections := v;
     seen_segment_names := seen_segment_names st;
     defined_funcs := defined_funcs st; undefined_funcs := undefined_funcs st;
     undefined_syms := undefined_syms st; seg_sizes := seg_sizes st;
     seg_split := seg_split st; seg_cached := seg_cached st;
     cache := cache st; log := log st; calls := calls st |}.

Definition set_seen_segment_names (v : gset string) (st : Locals) : Locals :=
  {| ran_segments := ran_segments st; ld_sections := ld_sections st;
     seen_segment_names := v;
     defined_funcs := defined_funcs st; undefined_funcs := undefined_funcs st;
     undefined_syms := undefined_syms st; seg_sizes := seg_sizes st;
     seg_split := seg_split st; seg_cached := seg_cached st;
     cache := cache st; log := log st; calls := calls st |}.

Definition set_symbols (d u s : gset string) (st : Locals) : Locals :=
  {| ran_segments := ran_segments st; ld_sections := ld_sections st;
     seen_segment_names := seen_segment_names st;
     defined_funcs := d; undefined_funcs := u; undefined_syms := s;
     seg_sizes := seg_sizes st;
     seg_split := seg_split st; seg_cached := seg_cached st;
     cache := cache st; log := log st; calls := calls st |}.

Definition set_counters (sizes split cached : gmap string Z) (st : Locals) : Locals :=
  {| ran_segments := ran_segments st; ld_sections := ld_sections st;
     seen_segment_names := seen_segment_names st;
     defined_funcs := defined_funcs st; undefined_funcs := undefined_funcs st;
     undefined_syms := undefined_syms st; seg_sizes := sizes;
     seg_split := split; seg_cached := cached;
     cache := cache st; log := log st; calls := calls st |}.

Definition set_cache (v : gmap string Fp) (st : Locals) : Locals :=
  {| ran_segments := ran_segments st; ld_sections := ld_sections st;
     seen_segment_names := seen_segment_names st;
     defined_funcs := defined_funcs st; undefined_funcs := undefined_funcs st;
     undefined_syms := undefined_syms st; seg_sizes := seg_sizes st;
     seg_split := seg_split st; seg_cached := seg_cached st;
     cache := v; log := log st; calls := calls st |}.

(** [log.write(x, status="error")] *)
Definition log_error (entries : list LogEntry) (st : Locals) : Locals :=
  {| ran_segments := ran_segments st; ld_sections := ld_sections st;
     seen_segment_names := seen_segment_names st;
     defined_funcs := defined_funcs st; undefined_funcs := undefined_funcs st;
     undefined_syms := undefined_syms st; seg_sizes := seg_sizes st;
     seg_split := seg_split st; seg_cached := seg_cached st;
     cache := cache st; log := log st ++ entries;
     calls := calls st |}.

(** Segment [i] has its method [m] called. *)
Definition call (i : nat) (m : Method) (st : Locals) : Locals :=
  {| ran_segments := ran_segments st; ld_sections := ld_sections st;
     seen_segment_names := seen_segment_names st;
     defined_funcs := defined_funcs st; undefined_funcs := undefined_funcs st;
     undefined_syms := undefined_syms st; seg_sizes := seg_sizes st;
     seg_split := seg_split st; seg_cached := seg_cached st;
     cache := cache st; log := log st; calls := calls st ++ [(i, m)] |}.

(** [st'] is [st] after the iterations [lo], ..., [hi - 1], whatever they
    did: the lists have grown at the end, by entries of these iterations,
    and the sets have grown. *)
Record grows (lo hi : nat) (st st' : Locals) : Prop := {
  grows_calls : ∃ c, calls st' = calls st ++ c
                     ∧ Forall (λ x, lo ≤ x.1 < hi)%nat c;
  grows_ran : ∃ r, ran_segments st' = ran_segments st ++ r
                   ∧ Forall (λ x, lo ≤ x.1.1 < hi)%nat r;
  grows_ld : ∃ l, ld_sections st' = ld_sections st ++ l;
  grows_log : ∃ l, log st' = log st ++ l;
  grows_seen : seen_segment_names st ⊆ seen_segment_names st';
  grows_defined : defined_funcs st ⊆ defined_funcs st';
  grows_undefined : undefined_funcs st ⊆ undefined_funcs st';
  grows_syms : undefined_syms st ⊆ undefined_syms st';
  grows_cache : dom (cache st) ⊆ dom (cache st')
}.

(** Every code segment that ran has had its symbols folded into the
    sets of the run. *)
Definition symbols_folded (st : Locals) : Prop :=
  ∀ j seg res, (j, seg, res) ∈ ran_segments st →
    Seg.is_N64SegCode seg = true →
    glabels_added res ⊆ defined_funcs st
    ∧ glabels_to_add res ⊆ undefined_funcs st
    ∧ undefined_syms_to_add res ⊆ undefined_syms st.

(** *** Resolving the handler class of a kind *)

(** ["N64Seg" + seg_type[0].upper() + seg_type[1:]]; [None] is the
    [IndexError] of an empty [seg_type]. *)
Definition class_name (seg_type : string) : option string :=
  match seg_type with
  | EmptyString => None
  | String c rest => Some ("N64Seg" +:+ String (PyStr.upper_ascii c) rest)
  end.

(** [getattr(module, "N64Seg" + ...)] *)
Definition getattr_class (m : PyModule) (seg_type : string) : Failure + SegClass :=
  match class_name seg_type with
  | None => inl (Raise "IndexError")
  | Some n =>
      match m n with
      | None => inl (Raise "AttributeError")
      | Some c => inr c
      end
  end.

Definition get_base_segment_class (env : Env) (seg_type : string)
  : Failure + option SegClass :=
  match import_module env ("segtypes." +:+ seg_type) with
  | ImportNotFound => inr None
  | ImportRaises exc => inl (Raise exc)
  | ImportOk m =>
      match getattr_class m seg_type with
      | inl f => inl f
      | inr c => inr (Some c)
      end
  end.

Definition get_extension_dir (options : Options) (config_parent : string)
  : option string :=
  match extensions options with
  | None => None
  | Some ext => Some (os_path_join config_parent ext)
  end.

(** The first component is what the call writes to the error log. *)
Definition get_extension_class (env : Env) (options : Options)
    (config_parent : string) (seg_type : string)
  : list LogEntry * (Failure + option SegClass) :=
  match get_extension_dir options config_parent with
  | None => ([], inr None)
  | Some ext_dir =>
      match load_file env (os_path_join ext_dir (seg_type +:+ ".py")) with
      | inl err => ([LogException err], inr None)
      | inr ext_mod =>
          match getattr_class ext_mod seg_type with
          | inl f => ([], inl f)
          | inr c => ([], inr (Some c))
          end
      end
  end.

(** The diagnostic of line 202. *)
Definition could_not_load (seg_type : string) : string :=
  "ERROR: could not load " +:+ seg_type +:+
  " segment type. Confirm your extension directory is configured correctly".

(** Lines 196 to 203 of [main]: the built-in class, else the extension
    class, else the fatal diagnostic and [exit(1)]. *)
Definition segment_class_of (env : Env) (options : Options)
    (config_parent : string) (seg_type : string)
  : list LogEntry * (Failure + SegClass) :=
  match get_base_segment_class env seg_type with
  | inl f => ([], inl f)
  | inr (Some c) => ([], inr c)
  | inr None =>
      match get_extension_class env options config_parent seg_type with
      | (lg, inl f) => (lg, inl f)
      | (lg, inr (Some c)) => (lg, inr c)
      | (lg, inr None) => (lg ++ [LogText (could_not_load seg_type)], inl (Exit 1))
      end
  end.

(** *** The body of the segment loop *)

Section Loop.

(** The inputs of [main] that stay fixed while the loop runs. *)
Variable env : Env.
Variable rom_bytes : list Byte.byte.
Variable config : Config.
Variable config_parent : string.    (* Path(config_path).parent *)
Variable options : Options.
Variable c_funcs : CFuncs.
Variable c_vars : gmap Z string.
Variable ignore_cache : bool.

(** The diagnostic of line 209. *)
Definition not_unique (name : string) : string :=
  "ERROR: Segment name " +:+ name +:+ " is not unique".

(** Lines 207 to 211. *)
Definition check_unique_name (segment_class : SegClass) (segment : Segment Fp)
    (st : Locals) : Locals * option Failure :=
  if require_unique_name segment_class then
    if decide (Seg.name segment ∈ seen_segment_names st) then
      (log_error [LogText (not_unique (Seg.name segment))] st, Some (Exit 1))
    else
      (set_seen_segment_names (seen_segment_names st ∪ {[Seg.name segment]}) st,
       None)
  else (st, None).

(** Lines 213 to 219: what a code segment is handed. *)
Definition code_context (segment : Segment Fp) (st : Locals) : option CodeContext :=
  if Seg.is_N64SegCode segment then
    Some {| all_functions := defined_funcs st;
            c_functions := funcs c_funcs;
            c_variables := c_vars;
            special_labels := gathered_special_labels c_funcs;
            c_labels_to_add := labels_to_add c_funcs;
            symbol_ranges := ranges c_funcs |}
  else None.

(** Lines 223 to 225: the statistics bucket of a segment. *)
Definition bucket (segment : Segment Fp) : string :=
  if String.eqb (Seg.type segment) "bin" && Seg.is_name_default segment
  then "unk" else Seg.type segment.

(** [d[k] += n]; [None] is a [KeyError]. *)
Definition dict_iadd (k : string) (n : Z) (d : gmap string Z)
  : option (gmap string Z) :=
  match d !! k with
  | None => None
  | Some v => Some (<[k := v + n]> d)
  end.

(** Lines 227 to 231. *)
Definition count_size (tp : string) (segment : Segment Fp) (st : Locals)
  : Locals * option Failure :=
  let st1 :=
    if decide (tp ∈ dom (seg_sizes st)) then st
    else set_counters (<[tp := 0]> (seg_sizes st)) (<[tp := 0]> (seg_split st))
                      (<[tp := 0]> (seg_cached st)) st in
  match dict_iadd tp (Seg.rom_length segment) (seg_sizes st1) with
  | None => (st1, Some (Raise "KeyError"))
  | Some sizes => (set_counters sizes (seg_split st1) (seg_cached st1) st1, None)
  end.

(** Line 261. *)
Definition collect_ld_section (i : nat) (segment : Segment Fp) (st : Locals)
  : Locals :=
  set_ld_sections (ld_sections st ++ [Seg.get_ld_section segment])
                  (call i MGetLdSection st).

(** Lines 249 to 252. *)
Definition fold_symbols (segment : Segment Fp) (r : SplitResult) (st : Locals)
  : Locals :=
  if Seg.is_N64SegCode segment then
    set_symbols (defined_funcs st ∪ glabels_added r)
                (undefined_funcs st ∪ glabels_to_add r)
                (undefined_syms st ∪ undefined_syms_to_add r) st
  else st.

(** Lines 235 to 259, for a segment that should run. The boolean tells
    whether the iteration goes on to line 261 (it does not after
    [continue]). A fingerprint is taken never to be [None], the value of
    [cache.get] on a missing entry: the test of line 236 then holds
    exactly when the entry is there and equal. *)
Definition run_segment (i : nat) (tp : string) (segment : Segment Fp)
    (st : Locals) : Locals * option Failure * bool :=
  let st := call i MCache st in
  let cached := Seg.cache segment in
  if negb ignore_cache
     && bool_decide (cache st !! Seg.unique_id segment = Some cached) then
    match dict_iadd tp 1 (seg_cached st) with
    | None => (st, Some (Raise "KeyError"), false)
    | Some c => (set_counters (seg_sizes st) (seg_split st) c st, None, false)
    end
  else
    let st := set_cache (<[Seg.unique_id segment := cached]> (cache st)) st in
    let st := call i MSplit st in
    match Seg.split segment rom_bytes (code_context segment st) with
    | inl f => (st, Some f, false)
    | inr r =>
        let st := set_ran_segments (ran_segments st ++ [(i, segment, r)]) st in
        let st := fold_symbols segment r st in
        match dict_iadd tp 1 (seg_split st) with
        | None => (st, Some (Raise "KeyError"), false)
        | Some c => (set_counters (seg_sizes st) c (seg_cached st) st, None, true)
        end
    end.

(** Lines 233 to 261. *)
Definition process (i : nat) (tp : string) (segment : Segment Fp) (st : Locals)
  : Locals * option Failure :=
  let st := call i MShouldRun st in
  if Seg.should_run segment then
    match run_segment i tp segment st with
    | (st, Some f, _) => (st, Some f)
    | (st, None, false) => (st, None)
    | (st, None, true) => (collect_ld_section i segment st, None)
    end
  else (collect_ld_section i segment st, None).

(** Lines 207 to 261, on the segment object just constructed. *)
Definition handle (i : nat) (segment_class : SegClass) (segment : Segment Fp)
    (st : Locals) : Locals * option Failure :=
  match check_unique_name segment_class segment st with
  | (st, Some f) => (st, Some f)
  | (st, None) =>
      let st := call i MCheck st in
      match Seg.check segment with
      | Some f => (st, Some f)
      | None =>
          let tp := bucket segment in
          match count_size tp segment st with
          | (st, Some f) => (st, Some f)
          | (st, None) => process i tp segment st
          end
      end
  end.

(** One iteration of the loop of line 189, at declaration [i]. *)
Definition body (i : nat) (segment : Decl) (st : Locals)
  : Locals * option Failure :=
  if decide (decl_len segment = 1%nat) then (st, None)
  else
    let seg_type := parse_segment_type segment in
    match segment_class_of env options config_parent seg_type with
    | (lg, inl f) => (log_error lg st, Some f)
    | (lg, inr segment_class) =>
        let st := log_error lg st in
        match segments config !! S i with
        | None => (st, Some (Raise "IndexError"))
        | Some next =>
            handle i segment_class (construct segment_class segment next options) st
        end
    end.

(** The loop from declaration [i] on; it stops at the first failure. *)
Fixpoint loop (i : nat) (todo : list Decl) (st : Locals)
  : Locals * option Failure :=
  match todo with
  | [] => (st, None)
  | segment :: todo' =>
      match body i segment st with
      | (st', None) => loop (S i) todo' st'
      | (st', Some f) => (st', Some f)
      end
  end.

(** Lines 263 and 264. *)
Fixpoint postsplit_all (ran : list (nat * Segment Fp * SplitResult)) (st : Locals)
  : Locals * option Failure :=
  match ran with
  | [] => (st, None)
  | (i, segment, _) :: ran' =>
      let st := call i MPostsplit st in
      match Seg.postsplit segment with
      | Some f => (st, Some f)
      | None => postsplit_all ran' st
      end
  end.

(** The test of line 236 on a segment that should run: its fingerprint
    is the one stored under its identity and the cache is not ignored. *)
Definition skipped_by_cache (segment : Segment Fp) (st : Locals) : bool :=
  Seg.should_run segment && negb ignore_cache
  && bool_decide (cache st !! Seg.unique_id segment = Some (Seg.cache segment)).

(** *** The regions of a run

    The segment object (with its class) that the loop constructs at
    declaration [i]: none for the sentinel, and none where the loop cannot
    get past line 205. *)
Definition region_at (i : nat) (segment : Decl) : option (SegClass * Segment Fp) :=
  if decide (decl_len segment = 1%nat) then None
  else
    match segment_class_of env options config_parent
                           (parse_segment_type segment) with
    | (_, inr segment_class) =>
        match segments config !! S i with
        | Some next =>
            Some (segment_class, construct segment_class segment next options)
        | None => None
        end
    | (_, inl _) => None
    end.

Fixpoint regions_from (i : nat) (todo : list Decl)
  : list (SegClass * Segment Fp) :=
  match todo with
  | [] => []
  | segment :: todo' => option_list (region_at i segment) ++ regions_from (S i) todo'
  end.

(** The non-sentinel regions of the configuration, in declaration order. *)
Definition regions : list (Segment Fp) :=
  snd <$> regions_from 0 (segments config).

End Loop.

(** Regions laid end to end from [a] to [b]: each starts where the one
    before it ends. *)
Inductive covers : Z → list (Segment Fp) → Z → Prop :=
  | covers_nil a : covers a [] a
  | covers_cons a s l b :
      Seg.rom_start s = a → Seg.rom_start s ≤ Seg.rom_end s →
      covers (Seg.rom_end s) l b → covers a (s :: l) b.

(** The regions partition the byte range of a binary of [total] bytes. *)
Definition partitions (rs : list (Segment Fp)) (total : Z) : Prop :=
  covers 0 rs total.

(** The bytes of a list of regions. *)
Definition total_length (rs : list (Segment Fp)) : Z :=
  foldr (λ s acc, Seg.rom_length s + acc) 0 rs.

(** The sum of the values of a dictionary. *)
Definition sum_values (d : gmap string Z) : Z :=
  map_fold (λ _ v acc, acc + v) 0 d.

(** *** After the loop *)

(** The output tree: the content of its files, and the paths [main] has
    opened for writing in this run, in order. *)
Record Tree := {
  files : gmap string (File Fp);
  opened : list string
}.

(** [with open(path, "w") as f: f.write(content)] *)
Definition write_file (path : string) (content : File Fp) (t : Tree) : Tree :=
  {| files := <[path := content]> (files t); opened := opened t ++ [path] |}.

(** [sorted(names)] on a set of strings. *)
Definition sorted (names : gset string) : list string :=
  merge_sort String.le (elements names).

(** Lines 267 to 270. *)
Definition write_ld (config : Config) (options : Options) (st : Locals)
    (t : Tree) : Tree :=
  if in_modes "ld" (modes options) || in_modes "all" (modes options) then
    write_file (ldscript_path (basename config))
               (Text (write_ldscript (ld_sections st) (ld_bare options))) t
  else t.

(** Line 273: the keys of the address-to-name dictionary. *)
Definition c_predefined_funcs (c_funcs : CFuncs) : gset PyKey :=
  set_map KInt (dom (funcs c_funcs)).

(** Line 274. The names are strings; subtracting [c_predefined_funcs]
    removes the names that are equal, as Python values, to one of its
    elements. *)
Definition unresolved_funcs (c_funcs : CFuncs) (st : Locals) : list string :=
  sorted (filter (λ n, KStr n ∉ c_predefined_funcs c_funcs)
                 (undefined_funcs st ∖ defined_funcs st)).

(** Line 278: [None] is the [IndexError] of a name without underscore. *)
Definition func_line (line : string) : option string :=
  match PyStr.split "_" line !! 1%nat with
  | None => None
  | Some field =>
      Some (line +:+ " = 0x" +:+ PyStr.upper (PyStr.take 8 field) +:+ ";" +:+ PyStr.nl)
  end.

(** Line 285. *)
Definition sym_line (sym : string) : option string :=
  Some (sym +:+ " = 0x" +:+ PyStr.drop 2 sym +:+ ";" +:+ PyStr.nl).

(** The [for] loop inside a [with open(..., "w")]: the text written so
    far stays in the file when a line fails. *)
Fixpoint write_lines (fmt : string → option string) (lines : list string)
    (written : string) : string * option Failure :=
  match lines with
  | [] => (written, None)
  | l :: lines' =>
      match fmt l with
      | None => (written, Some (Raise "IndexError"))
      | Some t => write_lines fmt lines' (written +:+ t)
      end
  end.

(** Lines 275 to 278 and 282 to 285: the file is opened only for a
    non-empty list. *)
Definition write_auto (path : string) (fmt : string → option string)
    (to_write : list string) (t : Tree) : Tree * option Failure :=
  if decide (0 < length to_write)%nat then
    let '(text, r) := write_lines fmt to_write EmptyString in
    (write_file path (Text text) t, r)
  else (t, None).

(** Lines 288 to 299. The sizes are divided by the size of the binary:
    a quotient too large for a float ([OverflowError]) needs a size
    beyond the size of the binary, hence a region of negative length,
    and has no term here. *)
Definition unk_size (st : Locals) : Z := default 0 (seg_sizes st !! "unk").

Definition rest_size (st : Locals) : Z :=
  map_fold (λ tp size acc, if decide (tp ≠ "unk") then acc + size else acc)
           0 (seg_sizes st).

Definition total_size (rom_bytes : list Byte.byte) : Z :=
  Z.of_nat (length rom_bytes).

Definition statistics (rom_bytes : list Byte.byte) (st : Locals) : option Failure :=
  if decide (unk_size st + rest_size st = total_size rom_bytes) then
    if decide (total_size rom_bytes = 0) then Some (Raise "ZeroDivisionError")
    else None
  else Some (Raise "AssertionError").

(** Lines 310 to 314. *)
Definition save_cache (st : Locals) (t : Tree) : Tree :=
  if decide (cache st ≠ ∅) then write_file cache_path (Pickle (cache st)) t
  else t.

(** Lines 181 to 186: a missing or unreadable cache file is an empty
    cache. *)
Definition load_cache (fs : gmap string (File Fp)) : gmap string Fp :=
  match fs !! cache_path with
  | Some (Pickle c) => c
  | _ => ∅
  end.

(** What a run leaves: the local variables where it stopped, the output
    tree, and how it stopped ([None]: [main] returned). *)
Record Run := {
  locals : Locals;
  tree : Tree;
  outcome : option Failure
}.

Definition initial (fs : gmap string (File Fp)) : Locals :=
  {| ran_segments := []; ld_sections := []; seen_segment_names := ∅;
     defined_funcs := ∅; undefined_funcs := ∅; undefined_syms := ∅;
     seg_sizes := ∅; seg_split := ∅; seg_cached := ∅;
     cache := load_cache fs; log := []; calls := [] |}.

(** Lines 266 to 314, from the locals the loop and the second pass left. *)
Definition finish (rom_bytes : list Byte.byte) (config : Config)
    (options : Options) (c_funcs : CFuncs) (st : Locals) (t : Tree) : Run :=
  let t := write_ld config options st t in
  match write_auto undefined_funcs_auto_path func_line
                   (unresolved_funcs c_funcs st) t with
  | (t, Some f) => {| locals := st; tree := t; outcome := Some f |}
  | (t, None) =>
      match write_auto undefined_syms_auto_path sym_line
                       (sorted (undefined_syms st)) t with
      | (t, Some f) => {| locals := st; tree := t; outcome := Some f |}
      | (t, None) =>
          match statistics rom_bytes st with
          | Some f => {| locals := st; tree := t; outcome := Some f |}
          | None => {| locals := st; tree := save_cache st t; outcome := None |}
          end
      end
  end.

(** Lines 161 to 163: the options of the configuration, with the modes
    and the verbosity of this run. *)
Definition run_options (config : Config) (modes : Modes) (verbose : bool)
  : Options :=
  {| modes := modes; verbose := verbose;
     extensions := config_extensions config;
     ld_bare := config_ld_bare config |}.

(** [main], from line 168 on. [symbol_addrs] and [undefined_syms_txt]
    are the lines of the two manual lists as lines 165 and 166 have read
    them (none when the file is absent), [config] the configuration as
    lines 158 to 163 have loaded it, [fs] the output tree before the
    run. *)
Definition main (env : Env) (rom_bytes : list Byte.byte) (config : Config)
    (config_parent : string) (symbol_addrs : list SymLine)
    (undefined_syms_txt : list (string * Z))
    (modes : Modes) (verbose : bool) (ignore_cache : bool)
    (fs : gmap string (File Fp)) : Run :=
  let options := run_options config modes verbose in
  let c_funcs := gather_c_funcs symbol_addrs in
  let c_vars := gather_c_variables undefined_syms_txt in
  let t := {| files := fs; opened := [] |} in
  match loop env rom_bytes config config_parent options c_funcs c_vars
             ignore_cache 0 (segments config) (initial fs) with
  | (st, Some f) => {| locals := st; tree := t; outcome := Some f |}
  | (st, None) =>
      match postsplit_all (ran_segments st) st with
      | (st, Some f) => {| locals := st; tree := t; outcome := Some f |}
      | (st, None) => finish rom_bytes config options c_funcs st t
      end
  end.

End Driver.

(** ** Invariants of the loop *)
Section Invariants.
Context {Fp : Type}.

(** The three statistics dictionaries have the same keys: lines 227 to
    230 create the three entries of a kind together. *)
Definition counters_aligned (st : @Locals Fp) : Prop :=
  dom (seg_split st) = dom (seg_sizes st)
  ∧ dom (seg_cached st) = dom (seg_sizes st).

End Invariants.

Section Invariants2.
Context {Fp : Type}.

(** The number of calls of the method [m] in a trace. *)
Definition count_calls (m : Method) (cs : list (nat * Method)) : nat :=
  length (filter (λ c, c.2 = m) cs).

(** The number of segments of the statistics bucket [tp] in a list of
    segments that ran. *)
Definition count_ran (tp : string) (ran : list (nat * Segment Fp * SplitResult))
  : nat :=
  length (filter (λ x, bucket x.1.2 = tp) ran).

(** [seg_split] counts the segments that ran, by bucket, and [seg_cached]
    the segments that were found in the cache: those whose fingerprint
    was taken and whose [split] was not called. *)
Definition split_counted (st : @Locals Fp) : Prop :=
  (∀ j seg r, (j, seg, r) ∈ ran_segments st → bucket seg ∈ dom (seg_sizes st))
  ∧ (∀ tp n, seg_split st !! tp = Some n →
       n = Z.of_nat (count_ran tp (ran_segments st))).

Definition cached_counted (st : @Locals Fp) : Prop :=
  sum_values (seg_cached st)
  = Z.of_nat (count_calls MCache (calls st))
    - Z.of_nat (count_calls MSplit (calls st)).

End Invariants2.

Section Invariants3.
Context {Fp : Type}.

(** The names that the code segments of [ran] have in the attribute
    [get]: the union that lines 249 to 252 build up. *)
Definition symbols_of (get : SplitResult → gset string)
    (ran : list (nat * Segment Fp * SplitResult)) : gset string :=
  ⋃ ((λ x, if Seg.is_N64SegCode x.1.2 then get x.2 else ∅) <$> ran).

(** The segments of [ran] declared before [i]. *)
Definition ran_before (i : nat) (ran : list (nat * Segment Fp * SplitResult))
  : list (nat * Segment Fp * SplitResult) :=
  filter (λ x, (x.1.1 < i)%nat) ran.

End Invariants3.

Section RanInvariant.
Context {Fp : Type} `{!EqDecision Fp} {Decl : Type}.
Variable decl_len : Decl → nat.
Variable parse_segment_type : Decl → string.
Variable env : @Env Fp Decl.
Variable rom_bytes : list Byte.byte.
Variable config : @Config Decl.
Variable config_parent : string.
Variable options : Options.
Variable c_funcs : CFuncs.
Variable c_vars : gmap Z string.

(** An element [(j, seg, r)] of [ran]: [seg] is the segment object of
    declaration [j], it should run, and [r] is what its [split] left
    when it was called with the names defined by the code segments of
    [ran] declared before [j]. *)
Definition ran_at (ran : list (nat * Segment Fp * SplitResult))
    (j : nat) (seg : Segment Fp) (r : SplitResult) : Prop :=
  (∃ d cls, segments config !! j = Some d
            ∧ region_at decl_len parse_segment_type env config config_parent
                        options j d = Some (cls, seg))
  ∧ Seg.should_run seg = true
  ∧ ∃ s : @Locals Fp,
      defined_funcs s = symbols_of glabels_added (ran_before j ran)
      ∧ Seg.split seg rom_bytes (code_context c_funcs c_vars seg s) = inr r.

(** The segments that ran, after the iterations before [k]. *)
Definition ran_inv (k : nat) (st : @Locals Fp) : Prop :=
  Forall (λ x, (x.1.1 < k)%nat) (ran_segments st)
  ∧ StronglySorted (λ a b, (a.1.1 < b.1.1)%nat) (ran_segments st)
  ∧ defined_funcs st = symbols_of glabels_added (ran_segments st)
  ∧ undefined_funcs st = symbols_of glabels_to_add (ran_segments st)
  ∧ undefined_syms st = symbols_of undefined_syms_to_add (ran_segments st)
  ∧ ∀ j seg r, (j, seg, r) ∈ ran_segments st →
      ran_at (ran_segments st) j seg r.

End RanInvariant.

Section Invariants4.
Context {Fp : Type}.

(** Regions that share an identity share their fingerprint. *)
Definition fingerprints_agree (rs : list (Segment Fp)) : Prop :=
  ∀ s1 s2, s1 ∈ rs → s2 ∈ rs →
    Seg.should_run s1 = true → Seg.should_run s2 = true →
    Seg.unique_id s1 = Seg.unique_id s2 → Seg.cache s1 = Seg.cache s2.

End Invariants4.

Global Instance SymInfo_eq_dec : EqDecision SymInfo.
Proof. solve_decision. Defined.

(** ** [fmt_size]

    [str(n)] on an integer is its decimal text, with a minus sign when
    it is negative; [//] with a positive divisor rounds down. *)
Definition py_str_int (n : Z) : string := pretty n.

Definition fmt_size (size : Z) : string :=
  if decide (1000000 < size) then py_str_int (size `div` 1000000) +:+ " MB"
  else if decide (1000 < size) then py_str_int (size `div` 1000) +:+ " KB"
  else py_str_int size +:+ " B".

(** ** The text of the manual symbol lists

    The [str] methods that [gather_c_funcs] and [gather_c_variables] use
    on the lines of their files. A character is a code below 256. *)
Module PyText.

(** [c.isspace()] on a character of code below 256: tab to carriage
    return, the four separators and the space, the next-line control
    (133) and the no-break space (160). *)
Definition is_space (c : ascii) : bool :=
  let n := nat_of_ascii c in
  ((9 <=? n) && (n <=? 13) || (28 <=? n) && (n <=? 32)
   || (n =? 133) || (n =? 160))%nat.

(** [s.isascii()]: every character has a code below 128. On such text
    [upper] changes the letters [a] to [z] alone, and the white space is
    the ASCII white space. *)
Definition ascii_only (s : string) : bool :=
  PyStr.all (λ c, (nat_of_ascii c <? 128)%nat) s.

(** [s.lstrip()] *)
Fixpoint lstrip (s : string) : string :=
  match s with
  | EmptyString => EmptyString
  | String c s' => if is_space c then lstrip s' else s
  end.

(** [s.rstrip()] *)
Fixpoint rstrip (s : string) : string :=
  match s with
  | EmptyString => EmptyString
  | String c s' =>
      match rstrip s' with
      | EmptyString => if is_space c then EmptyString else String c EmptyString
      | r => String c r
      end
  end.

(** [s.strip()] *)
Definition strip (s : string) : string := rstrip (lstrip s).

(** [s.find(needle)]: [None] is the answer [-1]. *)
Fixpoint find (needle s : string) : option nat :=
  if String.prefix needle s then Some 0%nat
  else
    match s with
    | EmptyString => None
    | String _ s' => S <$> find needle s'
    end.

(** A character that is neither white space, nor [=], nor [/]. *)
Definition plain (c : ascii) : bool :=
  negb (is_space c) && negb (Ascii.eqb c "=") && negb (Ascii.eqb c "/").

End PyText.

Section SymbolText.

(** [int(text, 0)], a built-in of Python: [None] is its [ValueError]. *)
Variable py_int : string → option Z.

(** Lines 81 to 86, on one word of the comment of a line.
    [Range(addr, addr + size)] refuses an end before its start with a
    [ValueError]. *)
Definition parse_info (info : string) : Failure + SymInfo :=
  if String.eqb info "!" then inr InfoBang
  else if String.prefix "size:" info then
    match PyStr.split ":" info !! 1%nat with
    | None => inl (Raise "IndexError")
    | Some text =>
        match py_int text with
        | None => inl (Raise "ValueError")
        | Some size =>
            if decide (size < 0) then inl (Raise "ValueError")
            else inr (InfoSize size)
        end
    end
  else inr InfoOther.

(** Lines 80 to 86: the words in order, up to the first that raises. *)
Fixpoint parse_infos (words : list string) : Failure + list SymInfo :=
  match words with
  | [] => inr []
  | w :: words' =>
      match parse_info w with
      | inl f => inl f
      | inr info =>
          match parse_infos words' with
          | inl f => inl f
          | inr infos => inr (info :: infos)
          end
      end
  end.

(** Lines 65 to 86 on one line of [tools/symbol_addrs.txt]: [inr None]
    for a line that is passed over. *)
Definition parse_func_line (line : string) : Failure + option SymLine :=
  let line := PyText.strip line in
  if String.eqb line EmptyString || String.prefix "//" line then inr None
  else
    let '(line, ext) :=
      match PyText.find "//" line with
      | None => (line, EmptyString)
      | Some comment_loc =>
          (PyText.strip (PyStr.take comment_loc line),
           PyText.strip (PyStr.drop (comment_loc + 2) line))
      end in
    let line_split := PyStr.split "=" line in
    match line_split !! 0%nat, line_split !! 1%nat with
    | Some name, Some addr =>
        match py_int (PyStr.drop_last 1 (PyText.strip addr)) with
        | None => inl (Raise "ValueError")
        | Some addr =>
            match (if String.eqb ext EmptyString then inr []
                   else parse_infos (PyStr.split " " ext)) with
            | inl f => inl f
            | inr infos =>
                inr (Some {| line_name := PyText.strip name;
                             line_addr := addr; line_ext := infos |})
            end
        end
    | _, _ => inl (Raise "IndexError")
    end.

(** Lines 100 to 105 on one line of [undefined_syms.txt]. *)
Definition parse_var_line (line : string) : Failure + option (string * Z) :=
  let line := PyText.strip line in
  if String.eqb line EmptyString || String.prefix "//" line then inr None
  else
    let line_split := PyStr.split "=" line in
    match line_split !! 0%nat, line_split !! 1%nat with
    | Some name, Some addr =>
        match py_int (PyStr.drop_last 1 (PyText.strip addr)) with
        | None => inl (Raise "ValueError")
        | Some addr => inr (Some (PyText.strip name, addr))
        end
    | _, _ => inl (Raise "IndexError")
    end.

(** The lines of a file in order, up to the first that raises. *)
Fixpoint read_lines {A} (parse : string → Failure + option A)
    (lines : list string) : Failure + list A :=
  match lines with
  | [] => inr []
  | l :: lines' =>
      match parse l with
      | inl f => inl f
      | inr o =>
          match read_lines parse lines' with
          | inl f => inl f
          | inr r => inr (option_list o ++ r)
          end
      end
  end.

(** [gather_c_funcs] and [gather_c_variables] on the text of their
    files; [None] is a file that does not exist. *)
Definition gather_c_funcs_text (file : option (list string)) : Failure + CFuncs :=
  match file with
  | None => inr (gather_c_funcs [])
  | Some lines =>
      match read_lines parse_func_line lines with
      | inl f => inl f
      | inr ls => inr (gather_c_funcs ls)
      end
  end.

Definition gather_c_variables_text (file : option (list string))
  : Failure + gmap Z string :=
  match file with
  | None => inr (gather_c_variables [])
  | Some lines =>
      match read_lines parse_var_line lines with
      | inl f => inl f
      | inr ls => inr (gather_c_variables ls)
      end
  end.

End SymbolText.

(** ** A concrete instance

    Declarations that carry the segment object their class constructs,
    fingerprints that are numbers, and three kinds: [code] (built in,
    unique names), [bin] (built in) and [gfx] (an extension). *)
Inductive ExDecl :=
  | ExSentinel (addr : Z)
  | ExRegion (kind : string) (seg : Segment nat).

Definition ex_len (d : ExDecl) : nat :=
  match d with ExSentinel _ => 1 | ExRegion _ _ => 4 end.

Definition ex_type (d : ExDecl) : string :=
  match d with ExSentinel _ => EmptyString | ExRegion kind _ => kind end.

Definition ex_split (added to_add syms : gset string)
  : list Byte.byte → option CodeContext → Failure + SplitResult :=
  λ _ _, inr {| glabels_added := added; glabels_to_add := to_add;
                undefined_syms_to_add := syms |}.

Definition ex_segment (type name : string) (rom_start rom_end : Z)
    (should_run : bool) (fingerprint : nat) (added to_add syms : gset string)
  : Segment nat :=
  {| Seg.type := type; Seg.name := name;
     Seg.rom_start := rom_start; Seg.rom_end := rom_end;
     Seg.is_N64SegCode := String.eqb type "code";
     Seg.check := None;
     Seg.is_name_default := false;
     Seg.should_run := should_run;
     Seg.cache := fingerprint;
     Seg.unique_id := type +:+ "_" +:+ name;
     Seg.split := ex_split added to_add syms;
     Seg.postsplit := None;
     Seg.get_ld_section := name +:+ PyStr.nl |}.

Definition ex_construct (d next : ExDecl) (o : Options) : Segment nat :=
  match d with
  | ExRegion _ seg => seg
  | ExSentinel _ => ex_segment EmptyString EmptyString 0 0 false 0 ∅ ∅ ∅
  end.

Definition ex_class (unique : bool) : @SegClass nat ExDecl :=
  {| require_unique_name := unique; construct := ex_construct |}.

Definition ex_module (class : string) (unique : bool) : @PyModule nat ExDecl :=
  λ n, if String.eqb n class then Some (ex_class unique) else None.

Definition ex_env : @Env nat ExDecl :=
  {| import_module := λ m,
       if String.eqb m "segtypes.code" then ImportOk (ex_module "N64SegCode" true)
       else if String.eqb m "segtypes.bin" then ImportOk (ex_module "N64SegBin" false)
       else ImportNotFound;
     load_file := λ path,
       if String.eqb path "cfg/ext/gfx.py" then inr (ex_module "N64SegGfx" false)
       else inl "FileNotFoundError" |}.

Definition ex_config (segments : list ExDecl) : @Config ExDecl :=
  {| config_extensions := Some "ext"; config_ld_bare := false;
     segments := segments; basename := "rom" |}.

(** The four-byte binary of the instance. *)
Definition ex_rom : list Byte.byte := [Byte.x00; Byte.x01; Byte.x02; Byte.x03].

(** A run of the instance, with no manual variable list. *)
Definition ex_main (segments : list ExDecl) (symbol_addrs : list SymLine)
    (modes : Modes) (ignore_cache : bool) (fs : gmap string (File nat))
  : @Run nat :=
  main ex_len ex_type ex_env ex_rom (ex_config segments) "cfg" symbol_addrs []
       modes false ignore_cache fs.

(** The loop, one iteration and the regions of such a run. *)
Definition ex_loop (segments : list ExDecl) (symbol_addrs : list SymLine)
    (modes : Modes) (ignore_cache : bool)
  : nat → list ExDecl → @Locals nat → @Locals nat * option Failure :=
  loop ex_len ex_type ex_env ex_rom (ex_config segments) "cfg"
       (run_options (ex_config segments) modes false)
       (gather_c_funcs symbol_addrs) (gather_c_variables []) ignore_cache.

Definition ex_body (segments : list ExDecl) (symbol_addrs : list SymLine)
    (modes : Modes) (ignore_cache : bool)
  : nat → ExDecl → @Locals nat → @Locals nat * option Failure :=
  body ex_len ex_type ex_env ex_rom (ex_config segments) "cfg"
       (run_options (ex_config segments) modes false)
       (gather_c_funcs symbol_addrs) (gather_c_variables []) ignore_cache.

Definition ex_region_at (segments : list ExDecl) (modes : Modes)
  : nat → ExDecl → option (@SegClass nat ExDecl * Segment nat) :=
  region_at ex_len ex_type ex_env (ex_config segments) "cfg"
            (run_options (ex_config segments) modes false).

Definition func_N : string := "func_80001000".

(** Region A calls [func_80001000]; region B defines it. *)
Definition ex_seg_A : Segment nat :=
  ex_segment "code" "A" 0 2 true 1 ∅ {[func_N]} ∅.
Definition ex_seg_B : Segment nat :=
  ex_segment "code" "B" 2 4 true 2 {[func_N]} ∅ ∅.
Definition ex_A : ExDecl := ExRegion "code" ex_seg_A.
Definition ex_B : ExDecl := ExRegion "code" ex_seg_B.

(** What their [split] leaves on them. *)
Definition ex_res_A : SplitResult :=
  {| glabels_added := ∅; glabels_to_add := {[func_N]};
     undefined_syms_to_add := ∅ |}.
Definition ex_res_B : SplitResult :=
  {| glabels_added := {[func_N]}; glabels_to_add := ∅;
     undefined_syms_to_add := ∅ |}.

(** A binary region that is not in the modes of the run. *)
Definition ex_seg_off : Segment nat :=
  ex_segment "bin" "B" 2 4 false 2 ∅ ∅ ∅.
Definition ex_off : ExDecl := ExRegion "bin" ex_seg_off.

(** Region A over the whole binary. *)
Definition ex_seg_whole : Segment nat :=
  ex_segment "code" "A" 0 4 true 1 ∅ {[func_N]} ∅.
Definition ex_whole : ExDecl := ExRegion "code" ex_seg_whole.

(** An output tree whose cache holds the fingerprint of region A. *)
Definition ex_cached_fs : gmap string (File nat) :=
  {[ cache_path := Pickle {[ "code_A" := 1%nat ]} ]}.

(** Three runs of the instance, ignoring the cache: A then B, B then A,
    and A found in the cache next to a region outside the modes. *)
Definition ex_run_AB : @Run nat :=
  ex_main [ex_A; ex_B; ExSentinel 4] [] (ModesStr "all") true ∅.
Definition ex_run_BA : @Run nat :=
  ex_main [ex_B; ex_A; ExSentinel 4] [] (ModesStr "all") true ∅.
Definition ex_run_cached : @Run nat :=
  ex_main [ex_A; ex_off; ExSentinel 4] [] (ModesList ["code"]) false ex_cached_fs.

(** The manual list names [func_80001000], and region A, over the whole
    binary, calls it. *)
Definition ex_symbol_addrs : list SymLine :=
  [{| line_name := func_N; line_addr := 0x80001000; line_ext := [] |}].
Definition ex_run_manual : @Run nat :=
  ex_main [ex_whole; ExSentinel 4] ex_symbol_addrs (ModesStr "all") true ∅.

(** Region A, over the whole binary, is found in the cache. *)
Definition ex_run_unchanged : @Run nat :=
  ex_main [ex_whole; ExSentinel 4] [] (ModesStr "all") false ex_cached_fs.

(** A second code region named [A], and the run of both. *)
Definition ex_seg_A2 : Segment nat :=
  ex_segment "code" "A" 2 4 true 2 ∅ ∅ ∅.
Definition ex_A2 : ExDecl := ExRegion "code" ex_seg_A2.
Definition ex_run_duplicate : @Run nat :=
  ex_main [ex_A; ex_A2; ExSentinel 4] [] (ModesStr "all") true ∅.

(** Two binary regions named [B]. *)
Definition ex_seg_B1 : Segment nat :=
  ex_segment "bin" "B" 0 2 true 1 ∅ ∅ ∅.
Definition ex_B1 : ExDecl := ExRegion "bin" ex_seg_B1.
Definition ex_run_bins : @Run nat :=
  ex_main [ex_B1; ex_off; ExSentinel 4] [] (ModesStr "all") true ∅.


(** An output tree with an export left by an earlier run. *)
Definition ex_stale_fs : gmap string (File nat) :=
  {[ undefined_funcs_auto_path := Text "stale" ]}.
Definition ex_run_stale : @Run nat :=
  ex_main [ex_A; ex_B; ExSentinel 4] [] (ModesStr "all") true ex_stale_fs.

(** ** More runs of the instance *)

(** The configuration with no region at all, on an empty binary. *)
Definition ex_run_empty : @Run nat :=
  main ex_len ex_type ex_env [] (ex_config [ExSentinel 0]) "cfg" [] []
       (ModesStr "all") false true ∅.


(** The run of A and B again, on the output tree of the first run and
    with the cache not ignored. *)
Definition ex_rerun_AB : @Run nat :=
  ex_main [ex_A; ex_B; ExSentinel 4] [] (ModesStr "all") false
          (files (tree ex_run_AB)).

(** A code region that asks for the symbol [D_80001000], and one that
    asks for the function [main]. *)
Definition ex_seg_D : Segment nat :=
  ex_segment "code" "D" 0 4 true 1 ∅ ∅ {["D_80001000"]}.
Definition ex_D : ExDecl := ExRegion "code" ex_seg_D.
Definition ex_res_D : SplitResult :=
  {| glabels_added := ∅; glabels_to_add := ∅;
     undefined_syms_to_add := {["D_80001000"]} |}.
Definition ex_run_syms : @Run nat :=
  ex_main [ex_D; ExSentinel 4] [] (ModesStr "all") true ∅.

Definition ex_seg_M : Segment nat :=
  ex_segment "code" "M" 0 4 true 1 ∅ {["func_80001000"; "main"]} ∅.
Definition ex_M : ExDecl := ExRegion "code" ex_seg_M.
Definition ex_run_main : @Run nat :=
  ex_main [ex_M; ExSentinel 4] [] (ModesStr "all") true ∅.



(** An [int] for the examples: it reads the literals [0x] followed by
    hexadecimal digits, and nothing else. *)
Definition hex_digit (c : ascii) : option Z :=
  let n := Z.of_nat (nat_of_ascii c) in
  if (48 <=? n) && (n <=? 57) then Some (n - 48)
  else if (97 <=? n) && (n <=? 102) then Some (n - 87)
  else if (65 <=? n) && (n <=? 70) then Some (n - 55)
  else None.

Fixpoint hex_value (acc : Z) (digits : string) : option Z :=
  match digits with
  | EmptyString => Some acc
  | String c digits' =>
      match hex_digit c with
      | None => None
      | Some d => hex_value (16 * acc + d) digits'
      end
  end.

Definition ex_int (text : string) : option Z :=
  if String.prefix "0x" text then
    match PyStr.drop 2 text with
    | EmptyString => None
    | digits => hex_value 0 digits
    end
  else None.

(** * Properties *)

(** ** Strings *)

Lemma append_nil_r s : s +:+ EmptyString = s.
Proof.
  induction s as [|c s IH]; [done|].
  change (String c s +:+ EmptyString) with (String c (s +:+ EmptyString)). by rewrite IH.
Qed.

Lemma append_assoc a b c : (a +:+ b) +:+ c = a +:+ (b +:+ c).
Proof.
  induction a as [|x a IH]; [done|].
  change (String x a +:+ b) with (String x (a +:+ b)).
  change (String x (a +:+ b) +:+ c) with (String x ((a +:+ b) +:+ c)).
  by rewrite IH.
Qed.

Lemma length_append a b :
  String.length (a +:+ b) = (String.length a + String.length b)%nat.
Proof.
  induction a as [|x a IH]; [done|].
  change (String x a +:+ b) with (String x (a +:+ b)). simpl. by rewrite IH.
Qed.

Lemma take_append a b : PyStr.take (String.length a) (a +:+ b) = a.
Proof.
  unfold PyStr.take. induction a as [|x a IH].
  - by destruct b.
  - change (String x a +:+ b) with (String x (a +:+ b)). simpl. by rewrite IH.
Qed.

(** [s[:-n]] removes a suffix of [n] characters. *)
Lemma drop_last_append a b n :
  String.length b = n → PyStr.drop_last n (a +:+ b) = a.
Proof.
  intros <-. unfold PyStr.drop_last. rewrite length_append.
  replace (String.length a + String.length b - String.length b)%nat
    with (String.length a) by lia.
  apply take_append.
Qed.

Lemma replace_append old new a b :
  PyStr.replace old new (a +:+ b)
  = PyStr.replace old new a +:+ PyStr.replace old new b.
Proof.
  induction a as [|x a IH]; [done|].
  change (String x a +:+ b) with (String x (a +:+ b)). simpl.
  rewrite IH. destruct (Ascii.eqb x old); [by rewrite append_assoc|done].
Qed.

Lemma join_cons sep z l :
  l ≠ [] → PyStr.join sep (z :: l) = z +:+ sep +:+ PyStr.join sep l.
Proof. by destruct l. Qed.

Lemma join_snoc_append sep l x y :
  PyStr.join sep (l ++ [x +:+ y]) = PyStr.join sep (l ++ [x]) +:+ y.
Proof.
  induction l as [|z l IH]; [done|].
  rewrite <- !app_comm_cons, !join_cons, IH by (by destruct l).
  by rewrite !append_assoc.
Qed.

(** ** The linker script *)

(** The indentation that default mode gives a descriptor. *)
Lemma indent_newline_terminated body :
  PyStr.replace "010" (PyStr.nl +:+ "    ") (body +:+ PyStr.nl)
  = PyStr.replace "010" (PyStr.nl +:+ "    ") body +:+ PyStr.nl +:+ "    ".
Proof. by rewrite replace_append. Qed.

(** In default mode, when the last descriptor ends in a newline, the four
    characters dropped are the indentation after it, and the closing
    brace stands at the start of a line. *)
Lemma write_ldscript_newline_terminated sections body :
  write_ldscript (sections ++ [body +:+ PyStr.nl]) false
  = ("SECTIONS" +:+ PyStr.nl +:+ "{" +:+ PyStr.nl +:+ "    ")
    +:+ PyStr.join (PyStr.nl +:+ "    ")
          (map (PyStr.replace "010" (PyStr.nl +:+ "    ")) sections
           ++ [PyStr.replace "010" (PyStr.nl +:+ "    ") body +:+ PyStr.nl])
    +:+ ("}" +:+ PyStr.nl).
Proof.
  unfold write_ldscript. rewrite map_app. simpl map.
  rewrite indent_newline_terminated.
  rewrite <- (append_assoc (PyStr.replace _ _ body) PyStr.nl "    ").
  rewrite join_snoc_append. by rewrite (drop_last_append _ "    " 4).
Qed.

(** In default mode the three descriptors [A], [B], [C] do not give the
    text with [C] on a line of its own before the closing brace. *)
Lemma default_ABC_not_as_expected :
  write_ldscript ["A"; "B"; "C"] false ≠ expected_default_ABC.
Proof. by apply String.eqb_neq. Qed.

(** C4, as the code has it. For [A], [B], [C] bare mode joins the
    descriptors by newlines; default mode cuts the last four characters
    of the indented text, which here are the last descriptor and three
    of its four spaces; descriptors that end in a newline give the block
    with the closing brace on a line of its own. *)
Theorem write_ldscript_ABC :
  write_ldscript ["A"; "B"; "C"] true
  = "A" +:+ PyStr.nl +:+ "B" +:+ PyStr.nl +:+ "C"
  ∧ write_ldscript ["A"; "B"; "C"] false
    = "SECTIONS" +:+ PyStr.nl +:+ "{" +:+ PyStr.nl +:+
      "    A" +:+ PyStr.nl +:+ "    B" +:+ PyStr.nl +:+ " }" +:+ PyStr.nl
  ∧ write_ldscript ["A" +:+ PyStr.nl; "B" +:+ PyStr.nl; "C" +:+ PyStr.nl] false
    = "SECTIONS" +:+ PyStr.nl +:+ "{" +:+ PyStr.nl +:+
      "    A" +:+ PyStr.nl +:+ "    " +:+ PyStr.nl +:+
      "    B" +:+ PyStr.nl +:+ "    " +:+ PyStr.nl +:+
      "    C" +:+ PyStr.nl +:+ "}" +:+ PyStr.nl
  ∧ ∀ sections body,
      write_ldscript (sections ++ [body +:+ PyStr.nl]) false
      = ("SECTIONS" +:+ PyStr.nl +:+ "{" +:+ PyStr.nl +:+ "    ")
        +:+ PyStr.join (PyStr.nl +:+ "    ")
              (map (PyStr.replace "010" (PyStr.nl +:+ "    ")) sections
               ++ [PyStr.replace "010" (PyStr.nl +:+ "    ") body +:+ PyStr.nl])
        +:+ ("}" +:+ PyStr.nl).
Proof.
  split_and!; [reflexivity..|]. apply write_ldscript_newline_terminated.
Qed.

(** ** Sums over the size dictionary *)

Lemma sum_values_insert_fresh (d : gmap string Z) k v :
  d !! k = None → sum_values (<[k := v]> d) = sum_values d + v.
Proof.
  intros Hk. unfold sum_values. rewrite map_fold_insert_L; [done| |done].
  intros. lia.
Qed.

Lemma sum_values_delete (d : gmap string Z) k v :
  d !! k = Some v → sum_values d = sum_values (delete k d) + v.
Proof.
  intros Hk. unfold sum_values.
  rewrite (map_fold_delete_L _ _ k v d); [done| |done]. intros. lia.
Qed.

Lemma sum_values_insert (d : gmap string Z) k v0 v :
  d !! k = Some v0 → sum_values (<[k := v]> d) = sum_values d - v0 + v.
Proof.
  intros Hk. rewrite <- insert_delete_eq.
  rewrite sum_values_insert_fresh by apply lookup_delete_eq.
  rewrite (sum_values_delete d k v0 Hk). lia.
Qed.

(** The two sums of the statistics step add up to the sum of all
    buckets. *)
Lemma unk_plus_rest (d : gmap string Z) :
  default 0 (d !! "unk")
  + map_fold (λ tp size acc, if decide (tp ≠ "unk") then acc + size else acc) 0 d
  = sum_values d.
Proof.
  induction d as [|k v d Hk IH] using map_ind.
  - unfold sum_values. by rewrite !map_fold_empty, lookup_empty.
  - rewrite sum_values_insert_fresh by done.
    rewrite map_fold_insert_L; [| |done].
    2:{ intros. repeat case_decide; lia. }
    destruct (decide (k = "unk")) as [->|Hne].
    + rewrite lookup_insert_eq. rewrite Hk in IH. simpl in IH |- *.
      destruct (decide ("unk" ≠ "unk")); [done|]. lia.
    + rewrite lookup_insert_ne by done. case_decide; [|done]. lia.
Qed.

(** ** Regions laid end to end *)

Lemma covers_total_length {Fp} a (rs : list (Segment Fp)) b :
  covers a rs b → total_length rs = b - a.
Proof.
  induction 1 as [a|a s l b Hs Hle Hc IH]; simpl; [lia|].
  unfold Seg.rom_length. lia.
Qed.

(** ** Lists of indexed entries *)

Lemma index_not_in {A B} (l : list (nat * A * B)) (i : nat) :
  Forall (λ x, x.1.1 ≠ i) l → i ∉ l.*1.*1.
Proof.
  intros Hl Hin. apply list_elem_of_fmap in Hin as ([j a] & ? & Hin).
  apply list_elem_of_fmap in Hin as ([[j' a'] b] & ? & Hin). simplify_eq/=.
  by apply (proj1 (Forall_forall _ _) Hl _ Hin).
Qed.

(** [x ∉ [a; b; c]] for constructors that differ. *)
Ltac not_in_list :=
  let H := fresh in
  intros H; repeat (apply elem_of_cons in H as [H|H]; [discriminate|]);
  by apply elem_of_nil in H.

Lemma call_not_in {M} (l : list (nat * M)) (i : nat) (m : M) :
  Forall (λ x, x.1 ≠ i ∨ x.2 ≠ m) l → (i, m) ∉ l.
Proof.
  intros Hl Hin. destruct (proj1 (Forall_forall _ _) Hl _ Hin); by simpl in *.
Qed.

(** ** The paths of the output tree *)

Lemma last_char_app b s : s ≠ EmptyString → last_char (b +:+ s) = last_char s.
Proof.
  intros Hs. induction b as [|c b IH]; [done|].
  change (String c b +:+ s) with (String c (b +:+ s)). simpl.
  destruct (b +:+ s) eqn:Hbs; [|done].
  destruct b; [by subst|discriminate].
Qed.

Lemma ldscript_path_ne rom_name p :
  last_char p ≠ Some "d"%char → ldscript_path rom_name ≠ p.
Proof.
  intros Hp <-. apply Hp. unfold ldscript_path. by rewrite last_char_app.
Qed.

Lemma ldscript_path_ne_funcs rom_name :
  ldscript_path rom_name ≠ undefined_funcs_auto_path.
Proof. by apply ldscript_path_ne. Qed.

Lemma ldscript_path_ne_syms rom_name :
  ldscript_path rom_name ≠ undefined_syms_auto_path.
Proof. by apply ldscript_path_ne. Qed.

Lemma ldscript_path_ne_cache rom_name : ldscript_path rom_name ≠ cache_path.
Proof. by apply ldscript_path_ne. Qed.

Lemma funcs_path_ne_syms : undefined_funcs_auto_path ≠ undefined_syms_auto_path.
Proof. by apply String.eqb_neq. Qed.

Lemma funcs_path_ne_cache : undefined_funcs_auto_path ≠ cache_path.
Proof. by apply String.eqb_neq. Qed.

Lemma syms_path_ne_cache : undefined_syms_auto_path ≠ cache_path.
Proof. by apply String.eqb_neq. Qed.

(** ** The diagnostics *)

Lemma prefix_app s t : String.prefix s (s +:+ t) = true.
Proof.
  induction s as [|c s IH]; [by destruct t|].
  change (String c s +:+ t) with (String c (s +:+ t)). simpl.
  by destruct (ascii_dec c c).
Qed.




Lemma could_not_load_ne_not_unique seg_type name :
  could_not_load seg_type ≠ not_unique name.
Proof. unfold could_not_load, not_unique. cbv [String.append]. discriminate. Qed.

(** ** The segment loop *)
Section LoopFacts.
Context {Fp : Type} `{!EqDecision Fp} {Decl : Type}.
Variable decl_len : Decl → nat.
Variable parse_segment_type : Decl → string.
Variable env : @Env Fp Decl.
Variable rom_bytes : list Byte.byte.
Variable config : @Config Decl.
Variable config_parent : string.
Variable options : Options.
Variable c_funcs : CFuncs.
Variable c_vars : gmap Z string.
Variable ignore_cache : bool.

Local Abbreviation Body := (body decl_len parse_segment_type env rom_bytes config
                       config_parent options c_funcs c_vars ignore_cache).
Local Abbreviation Loop := (loop decl_len parse_segment_type env rom_bytes config
                       config_parent options c_funcs c_vars ignore_cache).
Local Abbreviation RegionAt := (region_at decl_len parse_segment_type env config
                                 config_parent options).

Lemma grows_refl lo hi (st : @Locals Fp) : grows lo hi st st.
Proof.
  split; try done; try (exists []; rewrite app_nil_r; split; [done|constructor]);
    exists []; by rewrite app_nil_r.
Qed.

Lemma grows_weaken lo hi lo' hi' (st st' : @Locals Fp) :
  (lo' ≤ lo)%nat → (hi ≤ hi')%nat → grows lo hi st st' → grows lo' hi' st st'.
Proof.
  intros Hlo Hhi [(c & Hc & Fc) (r & Hr & Fr) ? ? ? ? ? ? ?].
  split; try done.
  - exists c. split; [done|]. eapply Forall_impl; [exact Fc|]. simpl. lia.
  - exists r. split; [done|]. eapply Forall_impl; [exact Fr|]. simpl. lia.
Qed.

Lemma grows_trans lo hi (st st' st'' : @Locals Fp) :
  grows lo hi st st' → grows lo hi st' st'' → grows lo hi st st''.
Proof.
  intros [(c1 & Hc1 & Fc1) (r1 & Hr1 & Fr1) (l1 & Hl1) (g1 & Hg1) ? ? ? ? ?]
         [(c2 & Hc2 & Fc2) (r2 & Hr2 & Fr2) (l2 & Hl2) (g2 & Hg2) ? ? ? ? ?].
  split; try (etrans; eassumption).
  - exists (c1 ++ c2). rewrite Hc2, Hc1, app_assoc. split; [done|].
    by apply Forall_app.
  - exists (r1 ++ r2). rewrite Hr2, Hr1, app_assoc. split; [done|].
    by apply Forall_app.
  - exists (l1 ++ l2). by rewrite Hl2, Hl1, app_assoc.
  - exists (g1 ++ g2). by rewrite Hg2, Hg1, app_assoc.
Qed.

(** Closes the goals of [grows] on states written out in full. *)
Ltac grows_list :=
  first
    [ by (exists []; rewrite app_nil_r; first [split; [done|constructor] | done])
    | by (rewrite <- ?app_assoc; eexists; first
           [ split; [reflexivity | repeat constructor; simpl; lia]
           | reflexivity ]) ].

Ltac grows_leaf :=
  unfold collect_ld_section, call, log_error;
  split; simpl; try done; try grows_list;
  try (rewrite ?dom_insert_L; set_solver).

Lemma check_unique_name_grows i (cls : @SegClass Fp Decl) segment st st' r :
  check_unique_name cls segment st = (st', r) → grows i (S i) st st'.
Proof.
  unfold check_unique_name. intros Hc.
  repeat (case_match; simplify_eq/=); grows_leaf.
Qed.

Lemma count_size_grows i tp segment (st st' : @Locals Fp) r :
  count_size tp segment st = (st', r) → grows i (S i) st st'.
Proof.
  unfold count_size, dict_iadd. intros Hc.
  repeat (case_match; simplify_eq/=); grows_leaf.
Qed.

Lemma run_segment_grows i tp (segment : Segment Fp) st st' r b :
  run_segment rom_bytes c_funcs c_vars ignore_cache i tp segment st = (st', r, b) →
  grows i (S i) st st'.
Proof.
  unfold run_segment, fold_symbols, dict_iadd. intros Hc.
  repeat (case_match; simplify_eq/=); grows_leaf.
Qed.

Lemma collect_ld_section_grows i segment (st : @Locals Fp) :
  grows i (S i) st (collect_ld_section i segment st).
Proof. unfold collect_ld_section. grows_leaf. Qed.

Lemma call_grows i m (st : @Locals Fp) : grows i (S i) st (call i m st).
Proof. grows_leaf. Qed.

Lemma log_error_grows i lg (st : @Locals Fp) : grows i (S i) st (log_error lg st).
Proof. grows_leaf. Qed.

Lemma process_grows i tp (segment : Segment Fp) st st' r :
  process rom_bytes c_funcs c_vars ignore_cache i tp segment st = (st', r) →
  grows i (S i) st st'.
Proof.
  unfold process. intros Hp.
  repeat (case_match; simplify_eq/=);
    eauto using grows_trans, call_grows, run_segment_grows,
                collect_ld_section_grows.
Qed.

Lemma handle_grows i (cls : @SegClass Fp Decl) segment st st' r :
  handle rom_bytes c_funcs c_vars ignore_cache i cls segment st = (st', r) →
  grows i (S i) st st'.
Proof.
  unfold handle. intros Hh.
  destruct (check_unique_name cls segment st) as [st1 [f|]] eqn:H1;
    apply (check_unique_name_grows i) in H1; [by simplify_eq|].
  eapply grows_trans; [exact H1|].
  eapply grows_trans; [apply (call_grows i MCheck)|].
  destruct (Seg.check segment); [simplify_eq; apply grows_refl|].
  destruct (count_size _ _ _) as [st2 [f|]] eqn:H2;
    apply (count_size_grows i) in H2; [by simplify_eq|].
  eapply grows_trans; [exact H2|]. by eapply process_grows.
Qed.

Lemma body_grows i segment st st' r :
  Body i segment st = (st', r) → grows i (S i) st st'.
Proof.
  unfold body. intros Hb.
  repeat (case_match; simplify_eq/=);
    eauto using grows_refl, grows_trans, log_error_grows, handle_grows.
Qed.

Lemma loop_grows todo i st st' r :
  Loop i todo st = (st', r) → grows i (i + length todo) st st'.
Proof.
  revert i st. induction todo as [|d todo IH]; intros i st Hl; simpl in Hl.
  - simplify_eq. apply grows_refl.
  - destruct (Body i d st) as [st1 [f|]] eqn:Hb; simplify_eq.
    + eapply grows_weaken; [| |by eapply body_grows]; simpl; lia.
    + eapply grows_trans.
      * eapply grows_weaken; [| |by eapply body_grows]; simpl; lia.
      * eapply grows_weaken; [| |by eapply IH]; simpl; lia.
Qed.

(** The loop over a list in two parts. *)
Lemma loop_app l1 l2 i st :
  Loop i (l1 ++ l2) st =
    match Loop i l1 st with
    | (st', None) => Loop (i + length l1) l2 st'
    | (st', Some f) => (st', Some f)
    end.
Proof.
  revert i st. induction l1 as [|d l1 IH]; intros i st; simpl.
  - by rewrite Nat.add_0_r.
  - destruct (Body i d st) as [st1 [f|]]; [done|].
    rewrite IH. by replace (S i + length l1)%nat with (i + S (length l1))%nat by lia.
Qed.

(** *** One iteration, by the region it constructs *)

Lemma body_sentinel i d (st : @Locals Fp) :
  decl_len d = 1%nat → Body i d st = (st, None).
Proof. intros H. unfold body. by case_decide. Qed.

Lemma body_region i d st cls seg :
  RegionAt i d = Some (cls, seg) →
  ∃ lg, Body i d st =
        handle rom_bytes c_funcs c_vars ignore_cache i cls seg (log_error lg st).
Proof.
  unfold region_at, body. intros H.
  repeat (case_match; simplify_eq/=); eauto.
Qed.

Lemma body_no_region i d st st' :
  RegionAt i d = None → Body i d st = (st', None) → st' = st.
Proof.
  unfold region_at, body. intros H Hb.
  repeat (case_match; simplify_eq/=); eauto.
Qed.

Lemma region_at_not_sentinel i d x : RegionAt i d = Some x → decl_len d ≠ 1%nat.
Proof. unfold region_at. by case_decide. Qed.

(** Closes the list goals on states written out in full. *)
Ltac step_leaf :=
  simpl; split_and?; try done;
  try (rewrite <- ?app_assoc; eexists; split; [reflexivity|]);
  try (exists []; rewrite app_nil_r; split; [reflexivity|]);
  repeat constructor.

(** A cache hit: the iteration touches neither the sections, nor the
    segments that ran, nor the cache, and calls at most [check],
    [should_run] and [cache]. *)
Lemma handle_cache_hit i (cls : @SegClass Fp Decl) seg st st' r :
  skipped_by_cache ignore_cache seg st = true →
  handle rom_bytes c_funcs c_vars ignore_cache i cls seg st = (st', r) →
  ran_segments st' = ran_segments st ∧ ld_sections st' = ld_sections st
  ∧ cache st' = cache st
  ∧ ∃ c, calls st' = calls st ++ c
         ∧ Forall (λ x, x.2 ∈ [MCheck; MShouldRun; MCache]) c.
Proof.
  unfold skipped_by_cache. intros Hs Hh.
  apply andb_prop in Hs as [Hs Hhit]. apply andb_prop in Hs as [Hrun Hign].
  unfold handle, process, run_segment, count_size, check_unique_name,
    dict_iadd in Hh.
  rewrite Hrun in Hh.
  apply negb_true_iff in Hign. apply bool_decide_eq_true in Hhit.
  rewrite Hign in Hh.
  repeat (case_match; simplify_eq/=);
    try (match goal with H : bool_decide _ = false |- _ =>
           by apply bool_decide_eq_false in H end);
    step_leaf.
Qed.

(** A segment that should not run: no [cache], no [split], and its
    section is collected when the iteration gets to line 261. *)
Lemma handle_not_run i (cls : @SegClass Fp Decl) seg st st' r :
  Seg.should_run seg = false →
  handle rom_bytes c_funcs c_vars ignore_cache i cls seg st = (st', r) →
  ran_segments st' = ran_segments st ∧ cache st' = cache st
  ∧ (∃ c, calls st' = calls st ++ c
          ∧ Forall (λ x, x.2 ∈ [MCheck; MShouldRun; MGetLdSection]) c)
  ∧ (r = None →
     ld_sections st' = ld_sections st ++ [Seg.get_ld_section seg]
     ∧ (i, MGetLdSection) ∈ calls st').
Proof.
  intros Hrun Hh.
  unfold handle, process, run_segment, count_size, check_unique_name,
    collect_ld_section, dict_iadd in Hh.
  rewrite Hrun in Hh.
  repeat (case_match; simplify_eq/=); step_leaf.
  all: rewrite !elem_of_app, !list_elem_of_singleton; auto.
Qed.

(** What an iteration that completes adds to the sections. *)
Lemma handle_ld_sections i (cls : @SegClass Fp Decl) seg st st' :
  handle rom_bytes c_funcs c_vars ignore_cache i cls seg st = (st', None) →
  ld_sections st' =
    ld_sections st ++
      (if skipped_by_cache ignore_cache seg st then []
       else [Seg.get_ld_section seg]).
Proof.
  intros Hh.
  unfold handle, process, run_segment, count_size, check_unique_name,
    collect_ld_section, fold_symbols, dict_iadd, skipped_by_cache in Hh |- *.
  repeat (case_match; simplify_eq/=); rewrite ?app_nil_r; try done.
Qed.

(** *** The symbols of the code segments that ran *)

Lemma symbols_folded_frame (st st' : @Locals Fp) :
  ran_segments st' = ran_segments st → defined_funcs st' = defined_funcs st →
  undefined_funcs st' = undefined_funcs st →
  undefined_syms st' = undefined_syms st →
  symbols_folded st → symbols_folded st'.
Proof. unfold symbols_folded. by intros -> -> -> ->. Qed.

Lemma run_segment_symbols_folded i tp (seg : Segment Fp) st st' r b :
  symbols_folded st →
  run_segment rom_bytes c_funcs c_vars ignore_cache i tp seg st = (st', r, b) →
  symbols_folded st'.
Proof.
  intros Hinv Hr. unfold run_segment, fold_symbols, dict_iadd in Hr.
  repeat (case_match; simplify_eq/=);
    try by (eapply symbols_folded_frame; [..|exact Hinv]).
  all: intros jx sx resx Hin Hc; simpl in *.
  all: apply elem_of_app in Hin as [Hin|Hin%list_elem_of_singleton].
  all: try (destruct (Hinv jx sx resx Hin Hc) as (? & ? & ?)).
  all: simplify_eq; try congruence.
  all: split_and!;
    first [ assumption | apply union_subseteq_r
          | etrans; [eassumption|apply union_subseteq_l] ].
Qed.

Lemma body_symbols_folded i d st st' r :
  symbols_folded st → Body i d st = (st', r) → symbols_folded st'.
Proof.
  intros Hinv Hb.
  unfold body, handle, process, count_size, check_unique_name,
    collect_ld_section, dict_iadd in Hb.
  repeat (case_match; simplify_eq/=);
    try by (eapply symbols_folded_frame; [..|exact Hinv]).
  all: match goal with H : run_segment _ _ _ _ _ _ _ _ = _ |- _ =>
         apply run_segment_symbols_folded in H;
           [|by (eapply symbols_folded_frame; [..|exact Hinv])] end.
  all: by (eapply symbols_folded_frame; [..|eassumption]).
Qed.

Lemma loop_symbols_folded todo i st st' r :
  symbols_folded st → Loop i todo st = (st', r) → symbols_folded st'.
Proof.
  revert i st. induction todo as [|d todo IH]; intros i st Hinv Hl; simpl in Hl.
  - by simplify_eq.
  - destruct (Body i d st) as [st1 [f|]] eqn:Hb; simplify_eq;
      eauto using body_symbols_folded.
Qed.

(** *** The bytes counted *)

Lemma count_size_sum tp (seg : Segment Fp) st st' r :
  count_size tp seg st = (st', r) →
  r = None
  ∧ sum_values (seg_sizes st') = sum_values (seg_sizes st) + Seg.rom_length seg.
Proof.
  unfold count_size, dict_iadd. intros Hc. case_decide as Hdom.
  - apply elem_of_dom in Hdom as [v Hv]. rewrite Hv in Hc. simplify_eq/=.
    split; [done|]. rewrite (sum_values_insert _ _ v) by done. lia.
  - apply not_elem_of_dom in Hdom. simpl in Hc.
    rewrite lookup_insert_eq in Hc. simplify_eq/=. split; [done|].
    rewrite (sum_values_insert _ _ 0) by apply lookup_insert_eq.
    rewrite sum_values_insert_fresh by done. lia.
Qed.

Lemma process_sizes i tp (seg : Segment Fp) st st' r :
  process rom_bytes c_funcs c_vars ignore_cache i tp seg st = (st', r) →
  seg_sizes st' = seg_sizes st.
Proof.
  unfold process, run_segment, collect_ld_section, fold_symbols, dict_iadd.
  intros Hp. by repeat (case_match; simplify_eq/=).
Qed.

Lemma check_unique_name_sizes (cls : @SegClass Fp Decl) seg st st' r :
  check_unique_name cls seg st = (st', r) → seg_sizes st' = seg_sizes st.
Proof.
  unfold check_unique_name. intros Hc. by repeat (case_match; simplify_eq/=).
Qed.

Lemma handle_sizes i (cls : @SegClass Fp Decl) seg st st' :
  handle rom_bytes c_funcs c_vars ignore_cache i cls seg st = (st', None) →
  sum_values (seg_sizes st') = sum_values (seg_sizes st) + Seg.rom_length seg.
Proof.
  unfold handle. intros Hh.
  destruct (check_unique_name cls seg st) as [st1 [f|]] eqn:H1; [done|].
  apply check_unique_name_sizes in H1.
  destruct (Seg.check seg); [done|].
  destruct (count_size _ _ _) as [st2 [f|]] eqn:H2; [done|].
  apply count_size_sum in H2 as [_ H2]. simpl in H2.
  apply process_sizes in Hh. by rewrite Hh, H2, H1.
Qed.

Lemma loop_sizes todo i st st' :
  Loop i todo st = (st', None) →
  sum_values (seg_sizes st')
  = sum_values (seg_sizes st)
    + total_length (snd <$> regions_from decl_len parse_segment_type env config
                              config_parent options i todo).
Proof.
  revert i st. induction todo as [|d todo IH]; intros i st Hl; simpl in Hl.
  - simplify_eq. simpl. lia.
  - destruct (Body i d st) as [st1 [f|]] eqn:Hb; [done|].
    apply IH in Hl. rewrite Hl. simpl. rewrite fmap_app.
    destruct (RegionAt i d) as [[cls seg]|] eqn:Hreg; simpl.
    + destruct (body_region i d st cls seg Hreg) as [lg Hh].
      rewrite Hb in Hh. symmetry in Hh. apply handle_sizes in Hh.
      simpl in Hh. rewrite Hh. lia.
    + apply body_no_region in Hb; [|done]. by subst.
Qed.

(** *** The cache dictionary *)

(** An iteration that completes leaves the cache and the segments that
    ran as they were, or stores a fingerprint and adds a segment. *)
Lemma body_cache_ran i d st st' :
  Body i d st = (st', None) →
  (cache st' = cache st ∧ ran_segments st' = ran_segments st)
  ∨ (∃ k v x, cache st' = <[k := v]> (cache st)
              ∧ ran_segments st' = ran_segments st ++ [x]).
Proof.
  intros Hb.
  unfold body, handle, process, run_segment, count_size, check_unique_name,
    collect_ld_section, fold_symbols, dict_iadd in Hb.
  repeat (case_match; simplify_eq/=); eauto 6.
Qed.

Lemma loop_cache_nonempty (loaded : gmap string Fp) todo i st st' :
  Loop i todo st = (st', None) →
  (cache st ≠ ∅ ↔ loaded ≠ ∅ ∨ ran_segments st ≠ []) →
  (cache st' ≠ ∅ ↔ loaded ≠ ∅ ∨ ran_segments st' ≠ []).
Proof.
  revert i st. induction todo as [|d todo IH]; intros i st Hl HJ; simpl in Hl.
  - by simplify_eq.
  - destruct (Body i d st) as [st1 [f|]] eqn:Hb; [done|].
    apply (IH _ _ Hl). clear IH Hl.
    apply body_cache_ran in Hb as [[-> ->]|(k & v & x & -> & ->)]; [done|].
    split; [intros _; right|intros _; apply insert_non_empty].
    intros H. by apply app_eq_nil in H as [_ ?].
Qed.

(** An iteration that completes without a cache hit collects the
    section of its segment. *)
Lemma handle_collects i (cls : @SegClass Fp Decl) seg st st' :
  handle rom_bytes c_funcs c_vars ignore_cache i cls seg st = (st', None) →
  skipped_by_cache ignore_cache seg st = false →
  ld_sections st' = ld_sections st ++ [Seg.get_ld_section seg]
  ∧ (i, MGetLdSection) ∈ calls st'.
Proof.
  intros Hh Hs.
  unfold handle, process, run_segment, count_size, check_unique_name,
    collect_ld_section, fold_symbols, dict_iadd in Hh.
  unfold skipped_by_cache in Hs.
  destruct (Seg.should_run seg), ignore_cache; simpl in Hs, Hh.
  all: repeat (case_match; simplify_eq/=); try congruence.
  all: split; [done|].
  all: rewrite !elem_of_app, !list_elem_of_singleton; auto.
Qed.

(** The loop seen from declaration [i]: the iterations before it, its
    own, and the ones after it. *)
Lemma loop_at segs i d st0 st st_l r :
  segs !! i = Some d →
  Loop 0%nat (take i segs) st0 = (st, None) →
  Loop 0%nat segs st0 = (st_l, r) →
  grows 0 i st0 st
  ∧ ∃ st' r', Body i d st = (st', r')
              ∧ grows (S i) (length segs) st' st_l
              ∧ (r' = None → Loop (S i) (drop (S i) segs) st' = (st_l, r))
              ∧ (r' ≠ None → st_l = st' ∧ r = r').
Proof.
  intros Hd Hpre Hl.
  assert (length (take i segs) = i) as Hlen.
  { rewrite length_take. apply lookup_lt_Some in Hd. lia. }
  split.
  { apply loop_grows in Hpre. by rewrite Hlen in Hpre. }
  rewrite <- (take_drop_middle segs i d Hd), loop_app, Hpre, Hlen in Hl.
  simpl in Hl. destruct (Body i d st) as [st' [f|]] eqn:Hb.
  - simplify_eq. exists st_l, (Some f). split_and!; try done.
    apply grows_refl.
  - exists st', None. split_and!; try done.
    apply loop_grows in Hl. rewrite length_drop in Hl.
    eapply grows_weaken; [| |exact Hl]; [lia|].
    apply lookup_lt_Some in Hd. lia.
Qed.

End LoopFacts.

(** ** The export of unresolved names *)
Section ExportFacts.
Context {Fp : Type} `{!EqDecision Fp}.

Lemma elem_of_sorted (X : gset string) n : n ∈ sorted X ↔ n ∈ X.
Proof. unfold sorted. by rewrite merge_sort_Permutation, elem_of_elements. Qed.

Lemma Sorted_sorted (X : gset string) : Sorted String.le (sorted X).
Proof. apply (Sorted_merge_sort _). Qed.

Lemma NoDup_sorted (X : gset string) : NoDup (sorted X).
Proof. unfold sorted. rewrite merge_sort_Permutation. apply NoDup_elements. Qed.

Lemma sorted_nil (X : gset string) : sorted X = [] ↔ X = ∅.
Proof.
  split.
  - intros H. apply set_eq. intros n. rewrite <- elem_of_sorted, H.
    by rewrite elem_of_nil, elem_of_empty.
  - intros ->. unfold sorted. by rewrite elements_empty.
Qed.

(** No name is equal to a key of the address-to-name dictionary. *)
Lemma name_not_predefined c_funcs n : KStr n ∉ c_predefined_funcs c_funcs.
Proof.
  unfold c_predefined_funcs. intros (z & Hz & _)%elem_of_map. discriminate.
Qed.

(** The names written are the requested names that no region defined:
    the manual list takes no part. *)
Lemma elem_of_unresolved_funcs c_funcs (st : @Locals Fp) n :
  n ∈ unresolved_funcs c_funcs st
  ↔ n ∈ undefined_funcs st ∧ n ∉ defined_funcs st.
Proof.
  unfold unresolved_funcs.
  rewrite elem_of_sorted, elem_of_filter, elem_of_difference.
  pose proof (name_not_predefined c_funcs n). tauto.
Qed.

End ExportFacts.

(** ** The lines of the unresolved-function file *)

Lemma rev_app_rev_app p a b :
  String.rev_app (String.rev_app p a) b = String.rev_app a (p +:+ b).
Proof.
  revert a. induction p as [|c p IH]; intros a; [done|].
  change (String c p +:+ b) with (String c (p +:+ b)). simpl. by rewrite IH.
Qed.

Lemma rev_rev_app p : String.rev (String.rev_app p EmptyString) = p.
Proof.
  unfold String.rev. rewrite rev_app_rev_app. simpl. apply append_nil_r.
Qed.

Lemma rev_app_append a b x :
  String.rev_app a b +:+ x = String.rev_app a (b +:+ x).
Proof. revert b. induction a as [|c a IH]; intros b; [done|]. simpl. by rewrite IH. Qed.

(** [split] reads a field without separator up to the separator. *)
Lemma split_go_field sep cur p s :
  PyStr.occurs sep p = false →
  PyStr.split_go sep cur (p +:+ String sep s)
  = String.rev (String.rev_app p cur) :: PyStr.split_go sep EmptyString s.
Proof.
  revert cur. induction p as [|c p IH]; intros cur Hp.
  - change (EmptyString +:+ String sep s) with (String sep s). simpl.
    by rewrite Ascii.eqb_refl.
  - change (String c p +:+ String sep s) with (String c (p +:+ String sep s)).
    simpl in *. apply orb_false_elim in Hp as [Hc Hp].
    rewrite Hc. by rewrite IH.
Qed.

(** The first field that [split] gives. *)
Lemma split_go_head sep cur s :
  ∃ fields, PyStr.split_go sep cur s
            = (String.rev cur +:+ PyStr.first_field sep s) :: fields.
Proof.
  revert cur. induction s as [|c s IH]; intros cur; simpl.
  - exists []. by rewrite append_nil_r.
  - destruct (Ascii.eqb c sep).
    + eexists. by rewrite append_nil_r.
    + destruct (IH (String c cur)) as [fields ->]. exists fields. f_equal.
      unfold String.rev. simpl. by rewrite !rev_app_append.
Qed.

Lemma first_field_append sep h s :
  PyStr.occurs sep h = false →
  PyStr.first_field sep (h +:+ s) = h +:+ PyStr.first_field sep s.
Proof.
  induction h as [|c h IH]; intros Hh; [done|].
  change (String c h +:+ s) with (String c (h +:+ s)). simpl in *.
  apply orb_false_elim in Hh as [Hc Hh]. rewrite Hc, IH by done. done.
Qed.

(** A name made of a prefix, an underscore and eight characters (and
    whatever follows) gets the line [name = 0xHHHHHHHH;] with these eight
    characters in upper case. *)
Lemma func_line_format prefix hex rest :
  PyStr.occurs "_" prefix = false → PyStr.occurs "_" hex = false →
  String.length hex = 8%nat →
  func_line (prefix +:+ String "_" (hex +:+ rest))
  = Some ((prefix +:+ String "_" (hex +:+ rest)) +:+ " = 0x"
          +:+ PyStr.upper hex +:+ ";" +:+ PyStr.nl).
Proof.
  intros Hp Hh Hlen. unfold func_line, PyStr.split.
  rewrite split_go_field by done.
  destruct (split_go_head "_" EmptyString (hex +:+ rest)) as [fields ->]. simpl.
  change (String.rev EmptyString +:+ ?x) with x.
  rewrite first_field_append by done.
  by rewrite <- Hlen, take_append.
Qed.

Lemma upper_ascii_hex c : PyStr.is_hex c = true → PyStr.is_upper_hex (PyStr.upper_ascii c) = true.
Proof.
  destruct c as [[] [] [] [] [] [] [] []]; vm_compute; congruence.
Qed.

(** Upper-casing hexadecimal digits gives upper-case hexadecimal digits. *)
Lemma upper_hex s :
  PyStr.all PyStr.is_hex s = true →
  PyStr.all PyStr.is_upper_hex (PyStr.upper s) = true.
Proof.
  induction s as [|c s IH]; [done|]. simpl.
  intros [Hc Hs]%andb_prop. by rewrite upper_ascii_hex, IH.
Qed.

(** The lines of a file all of whose names can be formatted. *)
Lemma write_lines_ok fmt lines written :
  Forall (λ l, is_Some (fmt l)) lines →
  (write_lines fmt lines written).2 = None.
Proof.
  revert written. induction lines as [|l lines IH]; intros written Hl; [done|].
  apply Forall_cons in Hl as [[t Ht] Hl]. simpl. rewrite Ht. by apply IH.
Qed.

(** The names written are sorted, and none is written twice. *)
Lemma unresolved_funcs_sorted {Fp} c_funcs (st : @Locals Fp) :
  Sorted String.le (unresolved_funcs c_funcs st)
  ∧ NoDup (unresolved_funcs c_funcs st).
Proof. split; [apply Sorted_sorted|apply NoDup_sorted]. Qed.

(** C5, at the input where the code departs from it. A name that the
    manual list declares is written to the file of unresolved functions
    all the same: the names are compared with the addresses of the
    list, not with its names. *)
Theorem manual_function_still_exported :
  funcs (gather_c_funcs ex_symbol_addrs) !! 0x80001000 = Some func_N
  ∧ ran_segments (locals ex_run_manual) = [(0%nat, ex_seg_whole, ex_res_A)]
  ∧ func_N ∈ undefined_funcs (locals ex_run_manual)
  ∧ unresolved_funcs (gather_c_funcs ex_symbol_addrs) (locals ex_run_manual)
    = [func_N]
  ∧ files (tree ex_run_manual) !! undefined_funcs_auto_path
    = Some (Text ("func_80001000 = 0x80001000;" +:+ PyStr.nl))
  ∧ outcome ex_run_manual = None.
Proof.
  split_and!; vm_compute; reflexivity.
Qed.

(** ** The end of a run *)
Section FinishFacts.
Context {Fp : Type} `{!EqDecision Fp} {Decl : Type}.
Variable rom_bytes : list Byte.byte.
Variable config : @Config Decl.
Variable options : Options.
Variable c_funcs : CFuncs.
Variable st : @Locals Fp.
Variable fs : gmap string (File Fp).

Local Abbreviation Finish :=
  (finish rom_bytes config options c_funcs st {| files := fs; opened := [] |}).

(** Unfolds the end of a run into its cases. *)
Ltac finish_cases :=
  unfold finish, write_auto, write_ld, save_cache, write_file;
  repeat (case_match; simplify_eq/=).

(** Decides whether a path is among the paths opened. *)
Ltac path_solver :=
  pose proof (ldscript_path_ne_funcs (basename config));
  pose proof (ldscript_path_ne_syms (basename config));
  pose proof (ldscript_path_ne_cache (basename config));
  pose proof funcs_path_ne_syms; pose proof funcs_path_ne_cache;
  pose proof syms_path_ne_cache;
  rewrite ?elem_of_app, ?elem_of_cons, ?elem_of_nil;
  rewrite ?lookup_insert_ne by congruence; rewrite ?lookup_insert_eq;
  try done; try (intuition congruence).

Lemma finish_funcs_empty :
  unresolved_funcs c_funcs st = [] →
  (undefined_funcs_auto_path ∉ opened (tree Finish))
  ∧ files (tree Finish) !! undefined_funcs_auto_path
    = fs !! undefined_funcs_auto_path.
Proof.
  intros He. unfold finish, write_auto. rewrite He. simpl.
  finish_cases; path_solver.
Qed.

Lemma finish_syms_empty :
  sorted (undefined_syms st) = [] →
  (undefined_syms_auto_path ∉ opened (tree Finish))
  ∧ files (tree Finish) !! undefined_syms_auto_path
    = fs !! undefined_syms_auto_path.
Proof.
  intros He. unfold finish, write_auto. rewrite He. simpl.
  finish_cases; path_solver.
Qed.

Lemma length_pos_not_nil {A} (l : list A) : (0 < length l)%nat ↔ l ≠ [].
Proof. destruct l; simpl; split; (done || lia). Qed.

Lemma finish_funcs_opened :
  undefined_funcs_auto_path ∈ opened (tree Finish) ↔
  unresolved_funcs c_funcs st ≠ [].
Proof.
  rewrite <- length_pos_not_nil. finish_cases; path_solver.
Qed.

Lemma finish_syms_opened :
  outcome Finish = None →
  (undefined_syms_auto_path ∈ opened (tree Finish) ↔
   sorted (undefined_syms st) ≠ []).
Proof.
  rewrite <- length_pos_not_nil. finish_cases; path_solver.
Qed.

Lemma finish_ld_opened :
  ldscript_path (basename config) ∈ opened (tree Finish) ↔
  in_modes "ld" (modes options) || in_modes "all" (modes options) = true.
Proof. finish_cases; path_solver. Qed.

Lemma finish_ld_file :
  in_modes "ld" (modes options) || in_modes "all" (modes options) = true →
  files (tree Finish) !! ldscript_path (basename config)
  = Some (Text (write_ldscript (ld_sections st) (ld_bare options))).
Proof. finish_cases; path_solver. Qed.

Lemma finish_cache_opened :
  outcome Finish = None →
  (cache_path ∈ opened (tree Finish) ↔ cache st ≠ ∅)
  ∧ (cache st ≠ ∅ → files (tree Finish) !! cache_path = Some (Pickle (cache st)))
  ∧ (cache st = ∅ → files (tree Finish) !! cache_path = fs !! cache_path).
Proof.
  destruct (decide (cache st = ∅)) as [He|Hne]; finish_cases; path_solver.
Qed.

End FinishFacts.

(** ** A run of [main] *)
Section RunFacts.
Context {Fp : Type} `{!EqDecision Fp} {Decl : Type}.
Variable decl_len : Decl → nat.
Variable parse_segment_type : Decl → string.
Variable env : @Env Fp Decl.
Variable rom_bytes : list Byte.byte.
Variable config : @Config Decl.
Variable config_parent : string.
Variable symbol_addrs : list SymLine.
Variable undefined_syms_txt : list (string * Z).
Variable modes : Modes.
Variable verbose : bool.
Variable ignore_cache : bool.
Variable fs : gmap string (File Fp).


Local Abbreviation Opts := (run_options config modes verbose).
Local Abbreviation CFuncsOf := (gather_c_funcs symbol_addrs).
Local Abbreviation CVars := (gather_c_variables undefined_syms_txt).
Local Abbreviation Body :=
  (body decl_len parse_segment_type env rom_bytes config config_parent Opts
        CFuncsOf CVars ignore_cache).
Local Abbreviation Loop :=
  (loop decl_len parse_segment_type env rom_bytes config config_parent Opts
        CFuncsOf CVars ignore_cache).
Local Abbreviation RegionAt :=
  (region_at decl_len parse_segment_type env config config_parent Opts).
Local Abbreviation TheRun :=
  (main decl_len parse_segment_type env rom_bytes config config_parent
        symbol_addrs undefined_syms_txt modes verbose ignore_cache fs).
Local Abbreviation Tree0 := {| files := fs; opened := [] |}.

(** The second pass only calls [postsplit], on segments that ran. *)
Lemma postsplit_all_spec ran (st st' : @Locals Fp) r :
  postsplit_all ran st = (st', r) →
  ran_segments st' = ran_segments st ∧ ld_sections st' = ld_sections st
  ∧ seen_segment_names st' = seen_segment_names st
  ∧ defined_funcs st' = defined_funcs st
  ∧ undefined_funcs st' = undefined_funcs st
  ∧ undefined_syms st' = undefined_syms st
  ∧ seg_sizes st' = seg_sizes st ∧ cache st' = cache st ∧ log st' = log st
  ∧ ∃ c, calls st' = calls st ++ c
         ∧ Forall (λ x, x.2 = MPostsplit ∧ x.1 ∈ ran.*1.*1) c.
Proof.
  revert st. induction ran as [|[[j seg] res] ran IH]; intros st Hp; simpl in Hp.
  - simplify_eq. split_and!; try done. exists []. by rewrite app_nil_r.
  - destruct (Seg.postsplit seg) as [f|].
    + simplify_eq. simpl. split_and!; try done.
      exists [(j, MPostsplit)]. split; [done|]. repeat constructor.
    + apply IH in Hp as (-> & -> & -> & -> & -> & -> & -> & -> & -> & c & -> & Hc).
      simpl. split_and!; try done.
      exists ((j, MPostsplit) :: c). rewrite <- app_assoc. split; [done|].
      constructor; [split; [done|by left]|].
      eapply Forall_impl; [exact Hc|]. intros x [? ?]. split; [done|by right].
Qed.

(** The three ways a run ends: in the loop, in the second pass, or after
    both. *)
Lemma main_cases :
  (∃ st f, Loop 0%nat (segments config) (initial fs) = (st, Some f)
           ∧ TheRun = {| locals := st; tree := Tree0; outcome := Some f |})
  ∨ (∃ st st' f, Loop 0%nat (segments config) (initial fs) = (st, None)
           ∧ postsplit_all (ran_segments st) st = (st', Some f)
           ∧ TheRun = {| locals := st'; tree := Tree0; outcome := Some f |})
  ∨ (∃ st st', Loop 0%nat (segments config) (initial fs) = (st, None)
           ∧ postsplit_all (ran_segments st) st = (st', None)
           ∧ TheRun = finish rom_bytes config Opts CFuncsOf st' Tree0).
Proof.
  unfold main.
  destruct (Loop _ _ _) as [st [f|]]; [left; eauto|].
  destruct (postsplit_all _ _) as [st' [f|]] eqn:Hp; [right; left|right; right];
    eauto 6.
Qed.

Lemma finish_locals (st : @Locals Fp) c_funcs t :
  locals (finish rom_bytes config Opts c_funcs st t) = st.
Proof. unfold finish. by repeat case_match. Qed.

(** The locals of a run are those the loop left, with the calls of the
    second pass added. *)
Lemma main_locals :
  ∃ st r c,
    Loop 0%nat (segments config) (initial fs) = (st, r)
    ∧ ran_segments (locals TheRun) = ran_segments st
    ∧ ld_sections (locals TheRun) = ld_sections st
    ∧ defined_funcs (locals TheRun) = defined_funcs st
    ∧ undefined_funcs (locals TheRun) = undefined_funcs st
    ∧ undefined_syms (locals TheRun) = undefined_syms st
    ∧ seg_sizes (locals TheRun) = seg_sizes st
    ∧ cache (locals TheRun) = cache st
    ∧ log (locals TheRun) = log st
    ∧ calls (locals TheRun) = calls st ++ c
    ∧ Forall (λ x, x.2 = MPostsplit ∧ x.1 ∈ (ran_segments st).*1.*1) c.
Proof.
  destruct main_cases as [(st & f & Hl & ->)|[(st & st' & f & Hl & Hp & ->)
                                            |(st & st' & Hl & Hp & ->)]].
  - exists st, (Some f), []. simpl. rewrite app_nil_r. by split_and!.
  - apply postsplit_all_spec in Hp
      as (? & ? & ? & ? & ? & ? & ? & ? & ? & c & ? & ?).
    exists st, None, c. simpl. by split_and!.
  - apply postsplit_all_spec in Hp
      as (? & ? & ? & ? & ? & ? & ? & ? & ? & c & ? & ?).
    exists st, None, c. rewrite finish_locals. by split_and!.
Qed.

(** A run seen from declaration [i], reached with the locals [st]. *)
Lemma run_at i d st :
  segments config !! i = Some d →
  Loop 0%nat (take i (segments config)) (initial fs) = (st, None) →
  ∃ st' r' c_rest c_post r_rest l_rest,
    Body i d st = (st', r')
    ∧ calls (locals TheRun) = calls st' ++ c_rest ++ c_post
    ∧ Forall (λ x, i < x.1)%nat c_rest
    ∧ Forall (λ x, x.2 = MPostsplit
                   ∧ x.1 ∈ (ran_segments (locals TheRun)).*1.*1) c_post
    ∧ ran_segments (locals TheRun) = ran_segments st' ++ r_rest
    ∧ Forall (λ x, i < x.1.1)%nat r_rest
    ∧ ld_sections (locals TheRun) = ld_sections st' ++ l_rest
    ∧ Forall (λ x, x.1 < i)%nat (calls st)
    ∧ Forall (λ x, x.1.1 < i)%nat (ran_segments st).
Proof.
  intros Hd Hpre.
  destruct main_locals
    as (st_l & r & c_post & Hl & Hran & Hld & _ & _ & _ & _ & _ & _ & Hc & Hpost).
  destruct (loop_at decl_len parse_segment_type env rom_bytes config
              config_parent Opts CFuncsOf CVars ignore_cache
              _ _ _ _ _ _ _ Hd Hpre Hl) as [G0 (st' & r' & Hb & G1 & _)].
  destruct G0 as [(c0 & Hc0 & Fc0) (r0 & Hr0 & Fr0) _ _ _ _ _ _ _].
  destruct G1 as [(c1 & Hc1 & Fc1) (r1 & Hr1 & Fr1) (l1 & Hl1) _ _ _ _ _ _].
  exists st', r', c1, c_post, r1, l1. rewrite Hran, Hld, Hc, Hc1, Hr1, Hl1.
  split_and!; try done.
  - by rewrite <- app_assoc.
  - eapply Forall_impl; [exact Fc1|]. simpl. lia.
  - by rewrite <- Hr1.
  - eapply Forall_impl; [exact Fr1|]. simpl. lia.
  - rewrite Hc0. simpl. eapply Forall_impl; [exact Fc0|]. simpl. lia.
  - rewrite Hr0. simpl. eapply Forall_impl; [exact Fr0|]. simpl. lia.
Qed.

(** C1. A region that should run, whose fingerprint equals the one stored
    under its identity while the cache is not ignored, is not extracted,
    is not in the second pass, and its section is not collected; a
    region that should not run is neither cache-checked nor extracted,
    and its section is collected. *)
Theorem cache_hit_and_mode_skip i d cls seg st :
  segments config !! i = Some d →
  Loop 0%nat (take i (segments config)) (initial fs) = (st, None) →
  RegionAt i d = Some (cls, seg) →
  (Seg.should_run seg = true → ignore_cache = false →
   cache st !! Seg.unique_id seg = Some (Seg.cache seg) →
     ((i, MSplit) ∉ calls (locals TheRun))
     ∧ ((i, MPostsplit) ∉ calls (locals TheRun))
     ∧ (i ∉ (ran_segments (locals TheRun)).*1.*1)
     ∧ ((i, MGetLdSection) ∉ calls (locals TheRun))
     ∧ ld_sections (Body i d st).1 = ld_sections st)
  ∧ (Seg.should_run seg = false →
     ((i, MCache) ∉ calls (locals TheRun))
     ∧ ((i, MSplit) ∉ calls (locals TheRun))
     ∧ ((Body i d st).2 = None →
        ld_sections (Body i d st).1 = ld_sections st ++ [Seg.get_ld_section seg]
        ∧ (i, MGetLdSection) ∈ calls (locals TheRun)
        ∧ Seg.get_ld_section seg ∈ ld_sections (locals TheRun))).
Proof.
  intros Hd Hpre Hreg.
  destruct (run_at i d st Hd Hpre)
    as (st' & r' & c_rest & c_post & r_rest & l_rest & Hb & Hc & Fc & Fp_ & Hr
        & Fr & Hl & Fc0 & Fr0).
  destruct (body_region decl_len parse_segment_type env rom_bytes config
              config_parent Opts CFuncsOf CVars ignore_cache i d st cls seg Hreg)
    as [lg Hh].
  rewrite Hb in Hh. rewrite Hb. simpl. split.
  - intros Hrun Hign Hhit.
    symmetry in Hh. apply handle_cache_hit in Hh as (Hran & Hld & _ & c & Hc' & Fc').
    2:{ unfold skipped_by_cache. simpl. rewrite Hrun, Hign. simpl.
        by apply bool_decide_eq_true. }
    simpl in *.
    assert (i ∉ (ran_segments (locals TheRun)).*1.*1) as Hnot.
    { apply index_not_in. rewrite Hr, Hran. apply Forall_app. split.
      - eapply Forall_impl; [exact Fr0|]. simpl. lia.
      - eapply Forall_impl; [exact Fr|]. simpl. lia. }
    assert (∀ m, m ∉ [MCheck; MShouldRun; MCache] →
                 (m = MPostsplit → False) → (i, m) ∉ calls (locals TheRun))
      as Hcalls.
    { intros m Hm Hm'. apply call_not_in. rewrite Hc, Hc'.
      rewrite !Forall_app. split_and!.
      - eapply Forall_impl; [exact Fc0|]. simpl. lia.
      - eapply Forall_impl; [exact Fc'|]. intros x Hx. right. congruence.
      - eapply Forall_impl; [exact Fc|]. simpl. lia.
      - eapply Forall_impl; [exact Fp_|]. intros x [Hx _]. right. congruence. }
    split_and!; try done.
    + apply Hcalls; [|done]. not_in_list.
    + apply call_not_in. rewrite Hc, Hc'. rewrite !Forall_app. split_and!.
      * eapply Forall_impl; [exact Fc0|]. simpl. lia.
      * eapply Forall_impl; [exact Fc'|]. intros x Hx. right.
        intros Hm. destruct x as [j m]. simpl in *. subst m. revert Hx.
        not_in_list.
      * eapply Forall_impl; [exact Fc|]. simpl. lia.
      * eapply Forall_impl; [exact Fp_|]. intros x [_ Hx]. left.
        intros Heq. apply Hnot. by rewrite <- Heq.
    + apply Hcalls; [|done]. not_in_list.
  - intros Hrun.
    symmetry in Hh. apply handle_not_run in Hh as (Hran & _ & (c & Hc' & Fc') & Hdone);
      [|done].
    simpl in *.
    assert (∀ m, m ∉ [MCheck; MShouldRun; MGetLdSection] →
                 (m = MPostsplit → False) → (i, m) ∉ calls (locals TheRun))
      as Hcalls.
    { intros m Hm Hm'. apply call_not_in. rewrite Hc, Hc'.
      rewrite !Forall_app. split_and!.
      - eapply Forall_impl; [exact Fc0|]. simpl. lia.
      - eapply Forall_impl; [exact Fc'|]. intros x Hx. right. congruence.
      - eapply Forall_impl; [exact Fc|]. simpl. lia.
      - eapply Forall_impl; [exact Fp_|]. intros x [Hx _]. right. congruence. }
    split_and!.
    + apply Hcalls; [|done]. not_in_list.
    + apply Hcalls; [|done]. not_in_list.
    + intros ->. destruct Hdone as [Hld Hin]; [done|]. split_and!; [done|..].
      * rewrite Hc. apply elem_of_app. by left.
      * rewrite Hl, Hld, !elem_of_app, list_elem_of_singleton. auto.
Qed.

Lemma initial_symbols_folded : symbols_folded (initial fs).
Proof. intros j seg res Hin. by apply elem_of_nil in Hin. Qed.

Lemma main_symbols_folded : symbols_folded (locals TheRun).
Proof.
  destruct main_locals
    as (st & r & c & Hl & Hran & _ & Hd & Hu & Hs & _).
  apply loop_symbols_folded in Hl; [|apply initial_symbols_folded].
  by eapply symbols_folded_frame; [..|exact Hl].
Qed.

(** C2, as the code has it. A name requested by a code region that ran
    and defined by a code region that ran is not among the unresolved
    functions written, whichever of the two is declared first. *)
Theorem defined_name_not_exported i j a b ra rb N :
  (i, a, ra) ∈ ran_segments (locals TheRun) →
  (j, b, rb) ∈ ran_segments (locals TheRun) →
  Seg.is_N64SegCode a = true → Seg.is_N64SegCode b = true →
  N ∈ glabels_to_add ra → N ∈ glabels_added rb →
  N ∉ unresolved_funcs CFuncsOf (locals TheRun).
Proof.
  intros _ Hb _ Hcode _ HN. rewrite elem_of_unresolved_funcs.
  destruct (main_symbols_folded j b rb Hb Hcode) as (Hdef & _).
  intros [_ Hnot]. apply Hnot, Hdef, HN.
Qed.

(** C6. When the regions of the configuration partition the byte range
    of the binary, the assertion of the statistics step holds in every
    run that gets to it. *)
Theorem statistics_assertion_holds st :
  partitions (regions decl_len parse_segment_type env config config_parent Opts)
             (total_size rom_bytes) →
  Loop 0%nat (segments config) (initial fs) = (st, None) →
  unk_size (locals TheRun) + rest_size (locals TheRun) = total_size rom_bytes
  ∧ statistics rom_bytes (locals TheRun) ≠ Some (Raise "AssertionError").
Proof.
  intros Hpart Hl.
  assert (unk_size (locals TheRun) + rest_size (locals TheRun)
          = total_size rom_bytes) as Hsum.
  { destruct main_locals as (st_l & r & c & Hl' & _ & _ & _ & _ & _ & Hsz & _).
    rewrite Hl in Hl'. simplify_eq.
    unfold unk_size, rest_size. rewrite Hsz, unk_plus_rest.
    rewrite (loop_sizes _ _ _ _ _ _ _ _ _ _ _ _ _ _ Hl).
    apply covers_total_length in Hpart. unfold regions in Hpart.
    rewrite Hpart. simpl. unfold sum_values. rewrite map_fold_empty. lia. }
  split; [done|]. unfold statistics. rewrite decide_True by done.
  by case_decide.
Qed.


(** *** What a run writes *)

(** C3, as the code has it. At the end of a run that completes, the
    cache file is rewritten exactly when the cache dictionary is not
    empty, that is when the loaded cache was not empty or some region
    was extracted in this run; it then holds the whole dictionary. *)
Theorem cache_rewritten_iff_nonempty :
  outcome TheRun = None →
  (cache_path ∈ opened (tree TheRun) ↔ cache (locals TheRun) ≠ ∅)
  ∧ (cache (locals TheRun) ≠ ∅
     ↔ load_cache fs ≠ ∅ ∨ ran_segments (locals TheRun) ≠ [])
  ∧ (cache (locals TheRun) ≠ ∅ →
     files (tree TheRun) !! cache_path = Some (Pickle (cache (locals TheRun)))).
Proof.
  destruct main_cases as [(st & f & Hl & ->)|[(st & st' & f & Hl & Hp & ->)
                                       |(st & st' & Hl & Hp & ->)]];
    [done..|].
  intros Hout. rewrite finish_locals.
  destruct (finish_cache_opened _ _ _ _ _ _ Hout) as (H1 & H2 & _).
  split_and!; [done| |done].
  apply postsplit_all_spec in Hp as (-> & _ & _ & _ & _ & _ & _ & -> & _).
  eapply loop_cache_nonempty; [exact Hl|]. simpl. tauto.
Qed.

(** C9. Each of the two files of unresolved names is opened only for a
    non-empty list of names; for an empty list the file is left as it
    was before the run. In a run that completes, a non-empty list is
    written. *)
Theorem auto_files_written_iff_nonempty :
  (unresolved_funcs CFuncsOf (locals TheRun) = [] →
     (undefined_funcs_auto_path ∉ opened (tree TheRun))
     ∧ files (tree TheRun) !! undefined_funcs_auto_path
       = fs !! undefined_funcs_auto_path)
  ∧ (sorted (undefined_syms (locals TheRun)) = [] →
     (undefined_syms_auto_path ∉ opened (tree TheRun))
     ∧ files (tree TheRun) !! undefined_syms_auto_path
       = fs !! undefined_syms_auto_path)
  ∧ (undefined_funcs_auto_path ∈ opened (tree TheRun) →
     unresolved_funcs CFuncsOf (locals TheRun) ≠ [])
  ∧ (undefined_syms_auto_path ∈ opened (tree TheRun) →
     sorted (undefined_syms (locals TheRun)) ≠ [])
  ∧ (outcome TheRun = None →
     (unresolved_funcs CFuncsOf (locals TheRun) ≠ [] →
      undefined_funcs_auto_path ∈ opened (tree TheRun))
     ∧ (sorted (undefined_syms (locals TheRun)) ≠ [] →
        undefined_syms_auto_path ∈ opened (tree TheRun))).
Proof.
  destruct main_cases as [(st & f & Hl & ->)|[(st & st' & f & Hl & Hp & ->)
                                       |(st & st' & Hl & Hp & ->)]]; simpl.
  1,2: split_and!; try done; try (by intros ?%elem_of_nil);
       by (intros _; split; [apply not_elem_of_nil|]).
  rewrite finish_locals. split_and!.
  - apply finish_funcs_empty.
  - apply finish_syms_empty.
  - intros Hin He.
    by destruct (finish_funcs_empty rom_bytes config Opts CFuncsOf st' fs He).
  - intros Hin He.
    by destruct (finish_syms_empty rom_bytes config Opts CFuncsOf st' fs He).
  - intros Hout. split.
    + apply finish_funcs_opened.
    + by apply finish_syms_opened.
Qed.

(** C10. The linker script is written exactly when the modes hold ["ld"]
    or ["all"] (in a run that gets past the loop and the second pass);
    the section of a region is collected whatever the modes are, unless
    the region is skipped by the cache. *)
Theorem ldscript_written_iff_mode st st' :
  Loop 0%nat (segments config) (initial fs) = (st, None) →
  postsplit_all (ran_segments st) st = (st', None) →
  (ldscript_path (basename config) ∈ opened (tree TheRun)
   ↔ in_modes "ld" modes || in_modes "all" modes = true)
  ∧ (in_modes "ld" modes || in_modes "all" modes = true →
     files (tree TheRun) !! ldscript_path (basename config)
     = Some (Text (write_ldscript (ld_sections (locals TheRun))
                                  (config_ld_bare config))))
  ∧ (∀ i d cls seg st_i,
       segments config !! i = Some d →
       Loop 0%nat (take i (segments config)) (initial fs) = (st_i, None) →
       RegionAt i d = Some (cls, seg) →
       skipped_by_cache ignore_cache seg st_i = false →
       (i, MGetLdSection) ∈ calls (locals TheRun)
       ∧ Seg.get_ld_section seg ∈ ld_sections (locals TheRun)).
Proof.
  intros Hl Hp. split_and!.
  - destruct main_cases as [(s1 & f & Hl' & ->)|[(s1 & s2 & f & Hl' & Hp' & ->)
                                           |(s1 & s2 & Hl' & Hp' & ->)]];
      rewrite Hl in Hl'; simplify_eq; rewrite Hp in Hp'; simplify_eq.
    apply (finish_ld_opened rom_bytes config Opts).
  - destruct main_cases as [(s1 & f & Hl' & ->)|[(s1 & s2 & f & Hl' & Hp' & ->)
                                           |(s1 & s2 & Hl' & Hp' & ->)]];
      rewrite Hl in Hl'; simplify_eq; rewrite Hp in Hp'; simplify_eq.
    rewrite finish_locals. apply (finish_ld_file rom_bytes config Opts).
  - intros i d cls seg st_i Hd Hpre Hreg Hskip.
    destruct (run_at i d st_i Hd Hpre)
      as (s1 & r1 & c_rest & c_post & r_rest & l_rest & Hb & Hc & _ & _ & _
          & _ & Hld & _).
    destruct (loop_at decl_len parse_segment_type env rom_bytes config
                config_parent Opts CFuncsOf CVars ignore_cache
                _ _ _ _ _ _ _ Hd Hpre Hl) as [_ (s1' & r1' & Hb' & _ & _ & Hfail)].
    rewrite Hb in Hb'. simplify_eq.
    destruct r1' as [f|]; [by destruct Hfail|].
    destruct (body_region decl_len parse_segment_type env rom_bytes config
                config_parent Opts CFuncsOf CVars ignore_cache i d st_i cls seg
                Hreg) as [lg Hh].
    rewrite Hb in Hh. symmetry in Hh.
    apply handle_collects in Hh as [Hld' Hin]; [|done].
    rewrite Hc, Hld, Hld'. simpl. rewrite !elem_of_app, list_elem_of_singleton.
    auto.
Qed.

(** *** Runs that abort *)

(** A loop that completes on a list completes on its first part. *)
Lemma loop_prefix l1 l2 i st st' :
  Loop i (l1 ++ l2) st = (st', None) →
  ∃ st1, Loop i l1 st = (st1, None)
         ∧ Loop (i + length l1)%nat l2 st1 = (st', None).
Proof.
  rewrite loop_app. destruct (Loop i l1 st) as [st1 [f|]]; [done|]. eauto.
Qed.

(** A failure at declaration [j] is the failure of the loop. *)
Lemma loop_fails_at j d st st' f :
  segments config !! j = Some d →
  Loop 0%nat (take j (segments config)) (initial fs) = (st, None) →
  Body j d st = (st', Some f) →
  Loop 0%nat (segments config) (initial fs) = (st', Some f).
Proof.
  intros Hd Hpre Hb.
  rewrite <- (take_drop_middle (segments config) j d Hd) at 1.
  rewrite loop_app, Hpre. simpl.
  rewrite length_take, Nat.min_l by (apply lookup_lt_Some in Hd; lia).
  by rewrite Hb.
Qed.

(** A run whose loop fails stops there, and writes nothing. *)
Lemma main_loop_fails st f :
  Loop 0%nat (segments config) (initial fs) = (st, Some f) →
  TheRun = {| locals := st; tree := Tree0; outcome := Some f |}.
Proof. intros Hl. unfold main. by rewrite Hl. Qed.



(** *** Names that must be unique *)

(** A region of a class with unique names, once processed, has its name
    among the names seen. *)
Lemma body_seen i d st st' cls seg :
  RegionAt i d = Some (cls, seg) → require_unique_name cls = true →
  Body i d st = (st', None) → Seg.name seg ∈ seen_segment_names st'.
Proof.
  intros Hreg Hreq Hb.
  destruct (body_region decl_len parse_segment_type env rom_bytes config
              config_parent Opts CFuncsOf CVars ignore_cache i d st cls seg Hreg)
    as [lg Hh].
  rewrite Hb in Hh. symmetry in Hh. unfold handle in Hh.
  destruct (check_unique_name cls seg _) as [st1 [f|]] eqn:H1; [done|].
  assert (Seg.name seg ∈ seen_segment_names st1) as Hin.
  { unfold check_unique_name in H1. rewrite Hreq in H1.
    case_decide; simplify_eq/=. apply elem_of_union_r, elem_of_singleton.
    done. }
  destruct (Seg.check seg); [done|].
  destruct (count_size _ _ _) as [st2 [f|]] eqn:H2; [done|].
  apply (count_size_grows i) in H2. apply process_grows in Hh.
  apply (grows_seen _ _ _ _ Hh), (grows_seen _ _ _ _ H2). done.
Qed.

(** The second of two regions that must have unique names and share one
    stops the run. *)
Lemma duplicate_name_aborts_run i j di dj ci si cj sj st :
  (i < j)%nat →
  segments config !! i = Some di → segments config !! j = Some dj →
  Loop 0%nat (take j (segments config)) (initial fs) = (st, None) →
  RegionAt i di = Some (ci, si) → RegionAt j dj = Some (cj, sj) →
  require_unique_name ci = true → require_unique_name cj = true →
  Seg.name si = Seg.name sj →
  outcome TheRun = Some (Exit 1)
  ∧ (∃ lg, log (locals TheRun)
           = log st ++ lg ++ [LogText (not_unique (Seg.name sj))])
  ∧ calls (locals TheRun) = calls st
  ∧ tree TheRun = Tree0.
Proof.
  intros Hij Hi Hj Hpre Hri Hrj Hci Hcj Hname.
  assert (Seg.name sj ∈ seen_segment_names st) as Hseen.
  { assert (take j (segments config) !! i = Some di) as Hi'
      by (by rewrite lookup_take_lt).
    pose proof Hpre as Hpre'.
    rewrite <- (take_drop_middle _ i di Hi') in Hpre'.
    rewrite take_take, Nat.min_l in Hpre' by lia.
    apply loop_prefix in Hpre' as (st_i & Hl_i & Hrest).
    rewrite length_take, Nat.min_l in Hrest
      by (apply lookup_lt_Some in Hi; lia).
    simpl in Hrest.
    destruct (Body i di st_i) as [st_i' [f|]] eqn:Hb; [done|].
    apply (body_seen _ _ _ _ _ _ Hri Hci) in Hb.
    apply loop_grows in Hrest.
    rewrite <- Hname. by apply (grows_seen _ _ _ _ Hrest). }
  destruct (body_region decl_len parse_segment_type env rom_bytes config
              config_parent Opts CFuncsOf CVars ignore_cache j dj st cj sj Hrj)
    as [lg Hh].
  assert (Body j dj st
          = (log_error [LogText (not_unique (Seg.name sj))] (log_error lg st),
             Some (Exit 1))) as Hb.
  { rewrite Hh. unfold handle, check_unique_name. rewrite Hcj.
    by rewrite decide_True. }
  rewrite (main_loop_fails _ _ (loop_fails_at j dj st _ _ Hj Hpre Hb)). simpl.
  split_and!; try done. exists lg. by rewrite <- app_assoc.
Qed.

(** The entries of the error log that are not the diagnostic of a
    duplicate name. *)
Lemma segment_class_of_log seg_type lg r :
  segment_class_of env Opts config_parent seg_type = (lg, r) →
  Forall (λ e, ∀ n, e ≠ LogText (not_unique n)) lg.
Proof.
  unfold segment_class_of, get_extension_class. intros H.
  repeat (case_match; simplify_eq/=); repeat constructor; try done.
  all: intros n [=Heq]; by apply could_not_load_ne_not_unique in Heq.
Qed.

Lemma handle_log_not_unique i (cls : @SegClass Fp Decl) seg st st' r :
  require_unique_name cls = false →
  handle rom_bytes CFuncsOf CVars ignore_cache i cls seg st = (st', r) →
  log st' = log st.
Proof.
  intros Hreq Hh.
  unfold handle, process, run_segment, count_size, check_unique_name,
    collect_ld_section, fold_symbols, dict_iadd in Hh.
  rewrite Hreq in Hh. by repeat (case_match; simplify_eq/=).
Qed.

Lemma body_log_not_unique i d st st' r :
  (∀ cls seg, RegionAt i d = Some (cls, seg) → require_unique_name cls = false) →
  Body i d st = (st', r) →
  Forall (λ e, ∀ n, e ≠ LogText (not_unique n)) (log st) →
  Forall (λ e, ∀ n, e ≠ LogText (not_unique n)) (log st').
Proof.
  intros Hreq Hb Hlog. unfold body, region_at in *.
  case_decide; [by simplify_eq|].
  destruct (segment_class_of _ _ _ _) as [lg [f|cls]] eqn:Hc;
    apply segment_class_of_log in Hc.
  { simplify_eq/=. by apply Forall_app. }
  destruct (segments config !! S i) as [next|].
  2:{ simplify_eq/=. by apply Forall_app. }
  apply handle_log_not_unique in Hb; [|by eapply Hreq].
  rewrite Hb. simpl. by apply Forall_app.
Qed.

Lemma loop_log_not_unique todo i st st' r :
  (∀ k d cls seg, todo !! k = Some d →
     RegionAt (i + k)%nat d = Some (cls, seg) → require_unique_name cls = false) →
  Loop i todo st = (st', r) →
  Forall (λ e, ∀ n, e ≠ LogText (not_unique n)) (log st) →
  Forall (λ e, ∀ n, e ≠ LogText (not_unique n)) (log st').
Proof.
  revert i st. induction todo as [|d todo IH]; intros i st Hreq Hl Hlog;
    simpl in Hl; [by simplify_eq|].
  assert (Forall (λ e, ∀ n, e ≠ LogText (not_unique n)) (log (Body i d st).1))
    as Hlog1.
  { destruct (Body i d st) as [st1 r1] eqn:Hb. simpl.
    eapply body_log_not_unique; [|exact Hb|done].
    intros cls seg Hreg. apply (Hreq 0%nat d cls seg); [done|].
    by rewrite Nat.add_0_r. }
  destruct (Body i d st) as [st1 [f|]]; [by simplify_eq|]. simpl in Hlog1.
  apply (IH (S i) st1); [|done|done].
  intros k d' cls seg Hk Hreg. apply (Hreq (S k) d' cls seg); [done|].
  by replace (i + S k)%nat with (S i + k)%nat by lia.
Qed.

(** C8. Two regions whose classes require unique names and that share a
    name stop the run at the second one, with [exit(1)] after a
    diagnostic and with nothing written, the cache file included; a
    region whose class does not require a unique name passes the test
    whatever its name, and when no class requires unique names no run
    reports a duplicate name. *)
Theorem duplicate_unique_name_is_fatal :
  (∀ i j di dj ci si cj sj st,
     (i < j)%nat →
     segments config !! i = Some di → segments config !! j = Some dj →
     Loop 0%nat (take j (segments config)) (initial fs) = (st, None) →
     RegionAt i di = Some (ci, si) → RegionAt j dj = Some (cj, sj) →
     require_unique_name ci = true → require_unique_name cj = true →
     Seg.name si = Seg.name sj →
     outcome TheRun = Some (Exit 1)
     ∧ (∃ lg, log (locals TheRun)
              = log st ++ lg ++ [LogText (not_unique (Seg.name sj))])
     ∧ calls (locals TheRun) = calls st
     ∧ opened (tree TheRun) = []
     ∧ files (tree TheRun) = fs)
  ∧ (∀ (cls : @SegClass Fp Decl) seg st,
       require_unique_name cls = false →
       check_unique_name cls seg st = (st, None))
  ∧ ((∀ k d cls seg, segments config !! k = Some d →
        RegionAt k d = Some (cls, seg) → require_unique_name cls = false) →
     ∀ n, LogText (not_unique n) ∉ log (locals TheRun)).
Proof.
  split_and!.
  - intros i j di dj ci si cj sj st Hij Hi Hj Hpre Hri Hrj Hci Hcj Hname.
    destruct (duplicate_name_aborts_run i j di dj ci si cj sj st)
      as (? & ? & ? & Ht); try done.
    rewrite Ht. done.
  - intros cls seg st Hreq. unfold check_unique_name. by rewrite Hreq.
  - intros Hreq n Hin.
    destruct main_locals
      as (st & r & c & Hl & _ & _ & _ & _ & _ & _ & _ & Hlog & _).
    rewrite Hlog in Hin.
    apply loop_log_not_unique in Hl; [| |by constructor].
    + by apply (proj1 (Forall_forall _ _) Hl _ Hin n).
    + intros k d cls seg Hk Hreg. by apply (Hreq k d cls seg).
Qed.

End RunFacts.

(** ** More on the lines of the unresolved-function file *)

(** A string in which a character occurs, cut at its first occurrence. *)
Lemma occurs_cut c s :
  PyStr.occurs c s = true →
  ∃ p rest, s = p +:+ String c rest ∧ PyStr.occurs c p = false.
Proof.
  induction s as [|x s IH]; simpl; [done|].
  destruct (Ascii.eqb x c) eqn:Hx; simpl.
  - intros _. apply Ascii.eqb_eq in Hx as ->. by exists EmptyString, s.
  - intros (p & rest & -> & Hp)%IH. exists (String x p), rest.
    split; [done|]. simpl. by rewrite Hx.
Qed.

Lemma occurs_append c a b :
  PyStr.occurs c (a +:+ b) = PyStr.occurs c a || PyStr.occurs c b.
Proof.
  induction a as [|x a IH]; [done|].
  change (String x a +:+ b) with (String x (a +:+ b)). simpl.
  by rewrite IH, orb_assoc.
Qed.

(** [split] gives one field when the separator does not occur. *)
Lemma split_go_no_sep sep cur s :
  PyStr.occurs sep s = false → ∃ x, PyStr.split_go sep cur s = [x].
Proof.
  revert cur. induction s as [|c s IH]; intros cur; simpl; [by eauto|].
  intros [Hc Hs]%orb_false_elim. rewrite Hc. by apply IH.
Qed.

(** The line of a name cut at its first underscore. *)
Lemma func_line_cut prefix rest :
  PyStr.occurs "_" prefix = false →
  func_line (prefix +:+ String "_" rest)
  = Some ((prefix +:+ String "_" rest) +:+ " = 0x"
          +:+ PyStr.upper (PyStr.take 8 (PyStr.first_field "_" rest))
          +:+ ";" +:+ PyStr.nl).
Proof.
  intros Hp. unfold func_line, PyStr.split.
  rewrite split_go_field by done.
  destruct (split_go_head "_" EmptyString rest) as [fields ->]. simpl.
  by change (String.rev EmptyString +:+ ?x) with x.
Qed.

Lemma func_line_None n : func_line n = None ↔ PyStr.occurs "_" n = false.
Proof.
  split.
  - intros Hn. destruct (PyStr.occurs "_" n) eqn:Ho; [|done].
    apply occurs_cut in Ho as (p & rest & -> & Hp).
    by rewrite func_line_cut in Hn.
  - intros Ho. unfold func_line, PyStr.split.
    by destruct (split_go_no_sep "_" EmptyString n Ho) as [x ->].
Qed.

(** X14. The line written for an unresolved function: a name without
    underscore has none (the [IndexError] of [line.split("_")[1]]), and
    only such a name; for an ASCII name with an underscore the address
    written is the text between the first and the second underscore, cut
    to eight characters and upper-cased, whether or not these characters
    are hexadecimal digits and however few they are. *)
Theorem func_line_cases n :
  (func_line n = None ↔ PyStr.occurs "_" n = false)
  ∧ (∀ prefix rest,
       PyText.ascii_only n = true →
       n = prefix +:+ String "_" rest → PyStr.occurs "_" prefix = false →
       func_line n
       = Some (n +:+ " = 0x"
               +:+ PyStr.upper (PyStr.take 8 (PyStr.first_field "_" rest))
               +:+ ";" +:+ PyStr.nl))
  ∧ (PyStr.occurs "_" n = true →
     ∃ prefix rest, n = prefix +:+ String "_" rest
                    ∧ PyStr.occurs "_" prefix = false).
Proof.
  split_and!.
  - apply func_line_None.
  - intros prefix rest _ -> Hp. by apply func_line_cut.
  - apply occurs_cut.
Qed.

(** The text that a list of lines makes. *)
Lemma write_lines_texts fmt lines texts written :
  Forall2 (λ l t, fmt l = Some t) lines texts →
  write_lines fmt lines written
  = (written +:+ foldr String.append EmptyString texts, None).
Proof.
  intros H. revert written. induction H as [|l t lines texts Hl _ IH];
    intros written; simpl.
  - by rewrite append_nil_r.
  - rewrite Hl, IH. by rewrite append_assoc.
Qed.

(** The text written before the first name that cannot be formatted. *)
Lemma write_lines_stops fmt good texts bad rest written :
  Forall2 (λ l t, fmt l = Some t) good texts → fmt bad = None →
  write_lines fmt (good ++ bad :: rest) written
  = (written +:+ foldr String.append EmptyString texts,
     Some (Raise "IndexError")).
Proof.
  intros H Hbad. revert written. induction H as [|l t lines texts Hl _ IH];
    intros written; simpl.
  - by rewrite Hbad, append_nil_r.
  - rewrite Hl, IH. by rewrite append_assoc.
Qed.

(** Names with an underscore all have a line. *)
Lemma func_lines_exist names :
  Forall (λ n, PyStr.occurs "_" n = true) names →
  ∃ texts, Forall2 (λ n t, func_line n = Some t) names texts.
Proof.
  induction 1 as [|n names Hn _ [texts IH]]; [by exists []|].
  destruct (func_line n) as [t|] eqn:Ht.
  - exists (t :: texts). by constructor.
  - apply func_line_None in Ht. congruence.
Qed.

(** ** More on the linker script *)

Lemma join_replace old new l :
  PyStr.join (PyStr.replace old new (String old EmptyString))
             (map (PyStr.replace old new) l)
  = PyStr.replace old new (PyStr.join (String old EmptyString) l).
Proof.
  induction l as [|x l IH]; [done|].
  destruct l as [|y l]; [done|].
  rewrite join_cons by done. simpl map in *.
  rewrite join_cons by done. rewrite !replace_append. by rewrite IH.
Qed.

(** X19. The two modes of [write_ldscript] on the same sections: the
    default text is the bare text with four spaces put after each of its
    newlines, less its last four characters (which are not checked to be
    these spaces), between [SECTIONS {] and the closing brace. *)
Theorem write_ldscript_default_from_bare sections :
  write_ldscript sections false
  = ("SECTIONS" +:+ PyStr.nl +:+ "{" +:+ PyStr.nl +:+ "    ")
    +:+ PyStr.drop_last 4
          (PyStr.replace "010" (PyStr.nl +:+ "    ")
             (write_ldscript sections true))
    +:+ ("}" +:+ PyStr.nl).
Proof.
  unfold write_ldscript. f_equal. f_equal. f_equal.
  apply (join_replace "010" (PyStr.nl +:+ "    ")).
Qed.

(** ** The manual symbol lists *)

Lemma gather_info_funcs name addr acc infos :
  funcs (foldl (gather_info name addr) acc infos) = funcs acc.
Proof.
  revert acc. induction infos as [|i infos IH]; intros acc; [done|].
  simpl. rewrite IH. by destruct i.
Qed.

Lemma gather_c_funcs_snoc lines l :
  gather_c_funcs (lines ++ [l]) = gather_line (gather_c_funcs lines) l.
Proof. unfold gather_c_funcs. by rewrite foldl_app. Qed.

Lemma gather_info_labels name addr acc infos n :
  n ∈ labels_to_add (foldl (gather_info name addr) acc infos)
  ↔ n ∈ labels_to_add acc ∨ (n = name ∧ InfoBang ∈ infos).
Proof.
  revert acc. induction infos as [|i infos IH]; intros acc; simpl.
  - rewrite elem_of_nil. tauto.
  - rewrite IH, elem_of_cons. destruct i; simpl.
    + rewrite elem_of_union, elem_of_singleton. tauto.
    + split; [tauto|]. intros [?|[? [?|?]]]; (done || tauto).
    + split; [tauto|]. intros [?|[? [?|?]]]; (done || tauto).
Qed.

Lemma gather_info_special name addr acc infos a :
  gathered_special_labels (foldl (gather_info name addr) acc infos) !! a
  = if decide (a = addr ∧ InfoBang ∈ infos) then Some name
    else gathered_special_labels acc !! a.
Proof.
  revert acc. induction infos as [|i infos IH]; intros acc; simpl.
  - rewrite decide_False; [done|]. intros [_ ?%elem_of_nil]. done.
  - rewrite IH. destruct i; simpl.
    + destruct (decide (a = addr)) as [->|Hne].
      * rewrite lookup_insert_eq.
        rewrite (decide_True (P := addr = addr ∧ InfoBang ∈ InfoBang :: infos))
          by (split; [done|by left]).
        by case_decide.
      * rewrite lookup_insert_ne by done.
        rewrite !decide_False by tauto. done.
    + apply decide_ext. rewrite elem_of_cons. split; [tauto|].
      intros [? [?|?]]; (done || tauto).
    + apply decide_ext. rewrite elem_of_cons. split; [tauto|].
      intros [? [?|?]]; (done || tauto).
Qed.

(** X20. What [gather_c_funcs] returns, line by line: the dictionary
    goes from each address of the list to the name of the last line
    with that address, the names forced to labels are the names of the
    lines marked [!], and the special labels go from each address of a
    marked line to the name of the last marked line with that address.
    An address that is redeclared without the mark keeps its special
    label from the marked line, and that name stays forced. *)
Theorem gather_c_funcs_by_line lines :
  (∀ a, funcs (gather_c_funcs lines) !! a
        = line_name <$> last (filter (λ l, line_addr l = a) lines))
  ∧ (∀ n, n ∈ labels_to_add (gather_c_funcs lines)
          ↔ ∃ l, l ∈ lines ∧ line_name l = n ∧ InfoBang ∈ line_ext l)
  ∧ (∀ a, gathered_special_labels (gather_c_funcs lines) !! a
          = line_name <$> last (filter (λ l, line_addr l = a
                                             ∧ InfoBang ∈ line_ext l) lines)).
Proof.
  induction lines as [|l lines (IH1 & IH2 & IH3)] using rev_ind.
  - split_and!; try done. intros n. split; [by intros ?%elem_of_empty|].
    by intros (l & ?%elem_of_nil & _).
  - rewrite gather_c_funcs_snoc. unfold gather_line. split_and!.
    + intros a. rewrite gather_info_funcs. simpl. rewrite filter_app.
      destruct (decide (line_addr l = a)) as [<-|Hne].
      * rewrite filter_cons_True, filter_nil by done.
        by rewrite last_snoc, lookup_insert_eq.
      * rewrite filter_cons_False, filter_nil, app_nil_r by done.
        rewrite lookup_insert_ne by done. apply IH1.
    + intros n. rewrite gather_info_labels. simpl. rewrite IH2. split.
      * intros [(l0 & Hin & Hn)|[-> Hb]].
        -- exists l0. rewrite elem_of_app. tauto.
        -- exists l. rewrite elem_of_app, list_elem_of_singleton. tauto.
      * intros (l0 & [Hin|Hin]%elem_of_app & Hn & Hb); [left; eauto|].
        apply list_elem_of_singleton in Hin as ->. right. eauto.
    + intros a. rewrite gather_info_special. simpl. rewrite filter_app.
      case_decide as Hd.
      * destruct Hd as [-> Hb].
        rewrite filter_cons_True, filter_nil by done. by rewrite last_snoc.
      * rewrite filter_cons_False, filter_nil, app_nil_r by (intros [? ?]; auto).
        apply IH3.
Qed.

(** X21. [gather_c_variables] goes from each address of the list to
    the name of the last line with that address; an address that no
    line has is not a key. *)
Theorem gather_c_variables_by_line lines a :
  gather_c_variables lines !! a
  = fst <$> last (filter (λ l : string * Z, l.2 = a) lines).
Proof.
  unfold gather_c_variables.
  induction lines as [|l lines IH] using rev_ind; [done|].
  rewrite foldl_app, filter_app. simpl.
  destruct (decide (l.2 = a)) as [<-|Hne].
  - rewrite filter_cons_True, filter_nil by done.
    by rewrite last_snoc, lookup_insert_eq.
  - rewrite filter_cons_False, filter_nil, app_nil_r by done.
    rewrite lookup_insert_ne by done. apply IH.
Qed.

(** ** The sizes of the report *)

(** X22. [fmt_size] shows a size in bytes up to 1000, in KB above 1000
    and up to 1000000, and in MB above: the number shown is the size
    divided by the unit and rounded down, so that it is at least 1, a
    size of exactly 1000000 is shown as 1000 KB, and the size shown
    falls short of the size by less than one unit. *)
Theorem fmt_size_units size :
  ∃ n unit,
    fmt_size size = py_str_int n +:+ unit
    ∧ ((unit = " B" ∧ size ≤ 1000 ∧ n = size)
       ∨ (unit = " KB" ∧ 1000 < size ≤ 1000000 ∧ 1 ≤ n ≤ 1000
          ∧ 1000 * n ≤ size < 1000 * (n + 1))
       ∨ (unit = " MB" ∧ 1000000 < size ∧ 1 ≤ n
          ∧ 1000000 * n ≤ size < 1000000 * (n + 1))).
Proof.
  unfold fmt_size. repeat case_decide.
  - exists (size `div` 1000000), " MB". split; [done|]. right; right.
    pose proof (Z.div_mod size 1000000 ltac:(lia)).
    pose proof (Z.mod_pos_bound size 1000000 ltac:(lia)).
    split_and!; try done; lia.
  - exists (size `div` 1000), " KB". split; [done|]. right; left.
    pose proof (Z.div_mod size 1000 ltac:(lia)).
    pose proof (Z.mod_pos_bound size 1000 ltac:(lia)).
    split_and!; try done; lia.
  - exists size, " B". split; [done|]. left. split_and!; try done; lia.
Qed.

Lemma fmt_size_examples :
  fmt_size 1000 = "1000 B" ∧ fmt_size 1001 = "1 KB"
  ∧ fmt_size 1000000 = "1000 KB" ∧ fmt_size 1999999 = "1 MB"
  ∧ fmt_size 0 = "0 B" ∧ fmt_size (-5) = "-5 B".
Proof. split_and!; vm_compute; reflexivity. Qed.

(** ** The lines of the manual symbol lists *)

Lemma append_cons x a b : String x a +:+ b = String x (a +:+ b).
Proof. done. Qed.

Lemma append_nil_l s : EmptyString +:+ s = s.
Proof. done. Qed.

(** Brings both sides of an equation between texts to one form. *)
Ltac str_norm :=
  repeat first [rewrite append_assoc | rewrite append_cons
               | rewrite append_nil_l].

Lemma all_append p a b :
  PyStr.all p (a +:+ b) = PyStr.all p a && PyStr.all p b.
Proof.
  induction a as [|x a IH]; [done|].
  change (String x a +:+ b) with (String x (a +:+ b)). simpl.
  by rewrite IH, andb_assoc.
Qed.

Lemma plain_not_space c : PyText.plain c = true → PyText.is_space c = false.
Proof.
  unfold PyText.plain. intros [[H _]%andb_prop _]%andb_prop.
  by apply negb_true_iff.
Qed.

Lemma plain_not_char c x :
  PyText.plain c = true → x = "="%char ∨ x = "/"%char → Ascii.eqb c x = false.
Proof.
  unfold PyText.plain. intros [[_ H1]%andb_prop H2]%andb_prop [->| ->];
    by apply negb_true_iff.
Qed.

Lemma all_plain_occurs s x :
  PyStr.all PyText.plain s = true → x = "="%char ∨ x = "/"%char →
  PyStr.occurs x s = false.
Proof.
  intros Hs Hx. induction s as [|c s IH]; [done|]. simpl in *.
  apply andb_prop in Hs as [Hc Hs]. by rewrite (plain_not_char c x), IH.
Qed.

(** [rstrip] leaves a text that does not end in white space as it
    is, and takes white space off the end. *)
Lemma rstrip_append_char a c :
  PyText.is_space c = false →
  PyText.rstrip (a +:+ String c EmptyString) = a +:+ String c EmptyString.
Proof.
  intros Hc. induction a as [|x a IH].
  - simpl. by rewrite Hc.
  - change (String x a +:+ ?y) with (String x (a +:+ y)). simpl. rewrite IH.
    by destruct a.
Qed.

Lemma rstrip_plain s : PyStr.all PyText.plain s = true → PyText.rstrip s = s.
Proof.
  induction s as [|c s IH]; [done|]. simpl.
  intros [Hc Hs]%andb_prop. rewrite IH by done.
  rewrite (plain_not_space c Hc). by destruct s.
Qed.

Lemma rstrip_append_space a b :
  PyStr.all PyText.is_space b = true →
  PyText.rstrip (a +:+ b) = PyText.rstrip a.
Proof.
  intros Hb. assert (PyText.rstrip b = EmptyString) as Hrb.
  { induction b as [|c b IH]; [done|]. simpl in *.
    apply andb_prop in Hb as [Hc Hb]. by rewrite IH, Hc. }
  induction a as [|c a IH]; [done|].
  change (String c a +:+ b) with (String c (a +:+ b)). simpl. by rewrite IH.
Qed.

Lemma lstrip_plain c s :
  PyText.is_space c = false → PyText.lstrip (String c s) = String c s.
Proof. intros Hc. simpl. by rewrite Hc. Qed.

(** [find] on a text in which the first character of the needle does
    not occur. *)
Lemma find_no_occurrence c needle s :
  PyStr.occurs c s = false → PyText.find (String c needle) s = None.
Proof.
  induction s as [|x s IH]; [done|]. simpl.
  intros [Hx Hs]%orb_false_elim.
  destruct (ascii_dec c x) as [->|Hne]; [by rewrite Ascii.eqb_refl in Hx|].
  by rewrite IH.
Qed.

(** The fields of a text with one separator. *)
Lemma split_two sep a b :
  PyStr.occurs sep a = false → PyStr.occurs sep b = false →
  PyStr.split sep (a +:+ String sep b) = [a; b].
Proof.
  intros Ha Hb. unfold PyStr.split. rewrite split_go_field by done.
  rewrite rev_rev_app. f_equal.
  assert (∀ cur, PyStr.split_go sep cur b
                 = [String.rev (String.rev_app b cur)]) as H.
  { clear Ha. induction b as [|c b IH]; intros cur; [done|]. simpl in *.
    apply orb_false_elim in Hb as [Hc Hb]. rewrite Hc. by apply IH. }
  by rewrite H, rev_rev_app.
Qed.

Section SymbolTextFacts.
Variable py_int : string → option Z.

Lemma prefix_first_differs c needle x s :
  c ≠ x →
  String.eqb (String x s) EmptyString
  || String.prefix (String c needle) (String x s) = false.
Proof. intros Hne. simpl. by destruct (ascii_dec c x). Qed.

(** [strip] on a text that begins and ends with a character that is
    not white space, followed by white space. *)
Lemma strip_between x body c trail :
  PyText.is_space x = false → PyText.is_space c = false →
  PyStr.all PyText.is_space trail = true →
  PyText.strip (String x body +:+ String c trail)
  = String x body +:+ String c EmptyString.
Proof.
  intros Hx Hc Htrail. unfold PyText.strip.
  change (String x body +:+ ?y) with (String x (body +:+ y)).
  rewrite lstrip_plain by done.
  change (String x (body +:+ ?y)) with (String x body +:+ y).
  replace (String x body +:+ String c trail)
    with ((String x body +:+ String c EmptyString) +:+ trail)
    by (by rewrite append_assoc).
  rewrite rstrip_append_space by done. by apply rstrip_append_char.
Qed.

(** The two fields of a line [name = text<c>] followed by white space,
    for a name and a text without white space, [=] or [/], and any such
    character [c] in the place of the semicolon. *)
Lemma declaration_fields name text c trail :
  name ≠ EmptyString → PyStr.all PyText.plain name = true →
  PyStr.all PyText.plain text = true → PyText.plain c = true →
  PyStr.all PyText.is_space trail = true →
  let line := name +:+ " = " +:+ text +:+ String c EmptyString in
  PyText.strip (name +:+ " = " +:+ text +:+ String c trail) = line
  ∧ String.eqb line EmptyString || String.prefix "//" line = false
  ∧ PyText.find "//" line = None
  ∧ PyStr.split "=" line
    = [name +:+ " "; " " +:+ text +:+ String c EmptyString]
  ∧ PyText.strip (name +:+ " ") = name
  ∧ PyStr.drop_last 1 (PyText.strip (" " +:+ text +:+ String c EmptyString))
    = text.
Proof.
  intros Hne Hname Htext Hc Htrail.
  destruct name as [|n0 name']; [done|]. clear Hne.
  pose proof Hname as Hname0. simpl in Hname0.
  apply andb_prop in Hname0 as [Hn0 Hname'].
  pose proof (plain_not_space _ Hn0) as Hs0.
  pose proof (plain_not_space _ Hc) as Hsc.
  assert (PyStr.all PyText.plain (text +:+ String c EmptyString) = true)
    as Htc.
  { rewrite all_append, Htext. simpl. by rewrite Hc. }
  assert (String n0 name' +:+ " = " +:+ text +:+ String c EmptyString
          = String n0 (name' +:+ " = " +:+ text) +:+ String c EmptyString)
    as Hline by (by str_norm).
  cbv zeta. rewrite Hline. split_and!.
  - rewrite <- (strip_between n0 (name' +:+ " = " +:+ text) c trail) by done.
    f_equal. by str_norm.
  - change (String n0 ?a +:+ ?y) with (String n0 (a +:+ y)).
    apply prefix_first_differs. intros <-. by vm_compute in Hn0.
  - apply find_no_occurrence.
    change (String n0 ?a +:+ ?y) with (String n0 (a +:+ y)). simpl.
    rewrite !occurs_append. simpl.
    rewrite (plain_not_char n0 "/"), (all_plain_occurs name' "/"),
      (all_plain_occurs text "/"), (plain_not_char c "/") by auto. done.
  - replace (String n0 (name' +:+ " = " +:+ text) +:+ String c EmptyString)
      with ((String n0 name' +:+ " ")
            +:+ String "=" (" " +:+ text +:+ String c EmptyString)).
    2:{ by str_norm. }
    apply split_two.
    + rewrite occurs_append, (all_plain_occurs (String n0 name') "=") by auto.
      done.
    + change (" " +:+ ?x) with (String " " x). simpl.
      by rewrite (all_plain_occurs _ "=" Htc) by auto.
  - unfold PyText.strip.
    change (String n0 name' +:+ ?x) with (String n0 (name' +:+ x)).
    rewrite lstrip_plain by done.
    change (String n0 (name' +:+ " ")) with (String n0 name' +:+ " ").
    rewrite rstrip_append_space by done. by apply rstrip_plain.
  - unfold PyText.strip. change (" " +:+ ?x) with (String " " x).
    replace (PyText.lstrip (String " " (text +:+ String c EmptyString)))
      with (PyText.lstrip (text +:+ String c EmptyString)) by done.
    assert (PyText.lstrip (text +:+ String c EmptyString)
            = text +:+ String c EmptyString) as ->.
    { destruct text as [|t0 text']; simpl in *.
      - by rewrite Hsc.
      - apply andb_prop in Htext as [Ht0 _].
        by rewrite (plain_not_space t0 Ht0). }
    rewrite rstrip_plain by done. by apply drop_last_append.
Qed.

(** X23. An ASCII line [name = text;] of [tools/symbol_addrs.txt], the
    form in which [main] writes its own files of unresolved names, is
    read as the name and the integer of the text, for a name and a text
    without white space, [=] or [/]: the character before the end of the
    line is dropped without being looked at, whether it is a semicolon
    or not. *)
Theorem parse_func_line_declaration name text c trail addr :
  PyText.ascii_only (name +:+ " = " +:+ text +:+ String c trail) = true →
  name ≠ EmptyString → PyStr.all PyText.plain name = true →
  PyStr.all PyText.plain text = true → PyText.plain c = true →
  PyStr.all PyText.is_space trail = true →
  py_int text = Some addr →
  parse_func_line py_int (name +:+ " = " +:+ text +:+ String c trail)
  = inr (Some {| line_name := name; line_addr := addr; line_ext := [] |}).
Proof.
  intros _ Hne Hname Htext Hc Htrail Hint.
  destruct (declaration_fields name text c trail Hne Hname Htext Hc Htrail)
    as (Hl & H1 & H2 & H3 & H4 & H5).
  unfold parse_func_line. rewrite Hl, H1, H2, H3. simpl.
  by rewrite H5, Hint, H4.
Qed.

(** [find] on a text whose first occurrence of the needle is known. *)
Lemma find_at c needle a b :
  PyStr.occurs c a = false →
  PyText.find (String c needle) (a +:+ String c needle +:+ b)
  = Some (String.length a).
Proof.
  intros Ha. induction a as [|x a IH].
  - rewrite append_nil_l.
    change (PyText.find ?n ?t)
      with (if String.prefix n t then Some 0%nat
            else match t with
                 | EmptyString => None
                 | String _ s' => S <$> PyText.find n s'
                 end).
    destruct (String c needle +:+ b) eqn:Heq; [done|].
    rewrite <- Heq. by rewrite prefix_app.
  - rewrite append_cons. simpl in *. apply orb_false_elim in Ha as [Hx Ha].
    destruct (ascii_dec c x) as [->|_]; [by rewrite Ascii.eqb_refl in Hx|].
    by rewrite IH.
Qed.

Lemma drop_append a b n :
  PyStr.drop (String.length a + n) (a +:+ b) = PyStr.drop n b.
Proof. induction a as [|x a IH]; [done|]. by rewrite append_cons. Qed.

(** The parts of a line [name = text<c> // ext] followed by white
    space, for a comment [ext] that begins and ends with a character
    that is not white space. *)
Lemma comment_fields name text c ebody e1 trail :
  name ≠ EmptyString → PyStr.all PyText.plain name = true →
  PyStr.all PyText.plain text = true → PyText.plain c = true →
  PyText.lstrip (ebody +:+ String e1 EmptyString)
  = ebody +:+ String e1 EmptyString →
  PyText.is_space e1 = false →
  PyStr.all PyText.is_space trail = true →
  ∃ line loc,
    PyText.strip (name +:+ " = " +:+ text +:+ String c EmptyString +:+ " // "
                  +:+ (ebody +:+ String e1 EmptyString) +:+ trail) = line
    ∧ String.eqb line EmptyString || String.prefix "//" line = false
    ∧ PyText.find "//" line = Some loc
    ∧ PyText.strip (PyStr.take loc line)
      = name +:+ " = " +:+ text +:+ String c EmptyString
    ∧ PyText.strip (PyStr.drop (loc + 2) line)
      = ebody +:+ String e1 EmptyString.
Proof.
  intros Hne Hname Htext Hc Hext He1 Htrail.
  destruct name as [|n0 name']; [done|]. clear Hne.
  pose proof Hname as Hname0. simpl in Hname0.
  apply andb_prop in Hname0 as [Hn0 Hname'].
  pose proof (plain_not_space _ Hn0) as Hs0.
  pose proof (plain_not_space _ Hc) as Hsc.
  set (decl := String n0 (name' +:+ " = " +:+ text) +:+ String c EmptyString).
  set (ext := ebody +:+ String e1 EmptyString) in *.
  assert (String n0 name' +:+ " = " +:+ text +:+ String c EmptyString = decl)
    as Hdecl by (unfold decl; by str_norm).
  rewrite Hdecl.
  assert (PyStr.occurs "/" (decl +:+ " ") = false) as Hocc.
  { unfold decl. rewrite !occurs_append. simpl. rewrite !occurs_append. simpl.
    rewrite (plain_not_char n0 "/"), (all_plain_occurs name' "/"),
      (all_plain_occurs text "/"), (plain_not_char c "/") by auto. done. }
  exists ((decl +:+ " ") +:+ "//" +:+ (" " +:+ ext)),
         (String.length (decl +:+ " ")).
  split_and!.
  - transitivity (PyText.strip
                    (String n0 ((name' +:+ " = " +:+ text)
                                +:+ String c EmptyString +:+ " // " +:+ ebody)
                     +:+ String e1 trail)).
    { f_equal. unfold decl, ext. by str_norm. }
    rewrite strip_between by done. unfold decl, ext. by str_norm.
  - unfold decl. rewrite !append_cons. apply prefix_first_differs.
    intros <-. by vm_compute in Hn0.
  - by apply find_at.
  - rewrite take_append. unfold decl.
    transitivity (PyText.strip (String n0 (name' +:+ " = " +:+ text)
                                +:+ String c " "));
      [f_equal; by str_norm|by apply strip_between].
  - rewrite drop_append.
    change (PyStr.drop 2 ("//" +:+ " " +:+ ext)) with (String " " ext).
    unfold PyText.strip.
    change (PyText.lstrip (String " " ext)) with (PyText.lstrip ext).
    rewrite Hext. unfold ext. by apply rstrip_append_char.
Qed.

(** The words of a comment in which no word begins with [size:]: each
    word [!] is a mark, and the other words are passed over. *)
Lemma parse_infos_no_size words :
  Forall (λ w, String.prefix "size:" w = false) words →
  parse_infos py_int words
  = inr ((λ w, if String.eqb w "!" then InfoBang else InfoOther) <$> words).
Proof.
  induction 1 as [|w words Hw _ IH]; [done|].
  simpl. rewrite IH. unfold parse_info. rewrite Hw.
  by destruct (String.eqb w "!").
Qed.

(** X24. A comment after the declaration, on an ASCII line of
    [tools/symbol_addrs.txt], in which no word begins with [size:]: the
    declaration is read as without the comment, and the words of the
    comment, which are what single spaces separate, are read one by one,
    each word [!] as a mark; a line [name = text; // !] marks the
    name. *)
Theorem parse_func_line_comment name text c ebody e1 trail addr :
  PyText.ascii_only
    (name +:+ " = " +:+ text +:+ String c EmptyString +:+ " // "
     +:+ (ebody +:+ String e1 EmptyString) +:+ trail) = true →
  name ≠ EmptyString → PyStr.all PyText.plain name = true →
  PyStr.all PyText.plain text = true → PyText.plain c = true →
  PyText.lstrip (ebody +:+ String e1 EmptyString)
  = ebody +:+ String e1 EmptyString →
  PyText.is_space e1 = false →
  PyStr.all PyText.is_space trail = true →
  Forall (λ w, String.prefix "size:" w = false)
         (PyStr.split " " (ebody +:+ String e1 EmptyString)) →
  py_int text = Some addr →
  parse_func_line py_int
    (name +:+ " = " +:+ text +:+ String c EmptyString +:+ " // "
     +:+ (ebody +:+ String e1 EmptyString) +:+ trail)
  = inr (Some {| line_name := name; line_addr := addr;
                 line_ext := (λ w, if String.eqb w "!" then InfoBang
                                   else InfoOther)
                             <$> PyStr.split " "
                                   (ebody +:+ String e1 EmptyString) |}).
Proof.
  intros _ Hne Hname Htext Hc Hext He1 Htrail Hwords Hint.
  destruct (comment_fields name text c ebody e1 trail Hne Hname Htext Hc Hext
              He1 Htrail) as (line & loc & Hl & H1 & H2 & H3 & H4).
  destruct (declaration_fields name text c EmptyString Hne Hname Htext Hc
              eq_refl) as (_ & _ & _ & H5 & H6 & H7).
  unfold parse_func_line. rewrite Hl, H1, H2, H3, H4, H5. simpl.
  rewrite H7, Hint, H6.
  replace (String.eqb (ebody +:+ String e1 EmptyString) EmptyString)
    with false by (by destruct ebody).
  by rewrite (parse_infos_no_size _ Hwords).
Qed.

(** X25. An ASCII line [name = text;] of [undefined_syms.txt], without
    comment, is read in the same way: as the name and the integer of the
    text, the character before the end of the line being dropped
    without being looked at. *)
Theorem parse_var_line_declaration name text c trail addr :
  PyText.ascii_only (name +:+ " = " +:+ text +:+ String c trail) = true →
  name ≠ EmptyString → PyStr.all PyText.plain name = true →
  PyStr.all PyText.plain text = true → PyText.plain c = true →
  PyStr.all PyText.is_space trail = true →
  py_int text = Some addr →
  parse_var_line py_int (name +:+ " = " +:+ text +:+ String c trail)
  = inr (Some (name, addr)).
Proof.
  intros _ Hne Hname Htext Hc Htrail Hint.
  destruct (declaration_fields name text c trail Hne Hname Htext Hc Htrail)
    as (Hl & H1 & H2 & H3 & H4 & H5).
  unfold parse_var_line. rewrite Hl, H1, H3. simpl.
  by rewrite H5, Hint, H4.
Qed.

(** X26. On an ASCII line of [undefined_syms.txt] a comment after the
    declaration is not taken off: what goes to [int] is the text of the
    address, the character after it and the comment less its last
    character, so that the line is read only if [int] accepts that. *)
Theorem parse_var_line_comment name text c ebody e1 trail :
  PyText.ascii_only
    (name +:+ " = " +:+ text +:+ String c EmptyString +:+ " // "
     +:+ (ebody +:+ String e1 EmptyString) +:+ trail) = true →
  name ≠ EmptyString → PyStr.all PyText.plain name = true →
  PyStr.all PyText.plain text = true → PyText.plain c = true →
  PyStr.occurs "=" ebody = false → Ascii.eqb e1 "=" = false →
  PyText.is_space e1 = false →
  PyStr.all PyText.is_space trail = true →
  parse_var_line py_int
    (name +:+ " = " +:+ text +:+ String c EmptyString +:+ " // "
     +:+ (ebody +:+ String e1 EmptyString) +:+ trail)
  = match py_int (text +:+ String c EmptyString +:+ " // " +:+ ebody) with
    | None => inl (Raise "ValueError")
    | Some addr => inr (Some (name, addr))
    end.
Proof.
  intros _ Hne Hname Htext Hc Hebody He1 Hs1 Htrail.
  destruct (declaration_fields name text c EmptyString Hne Hname Htext Hc
              eq_refl) as (_ & _ & _ & _ & H6 & _).
  destruct name as [|n0 name']; [done|]. clear Hne.
  pose proof Hname as Hname0. simpl in Hname0.
  apply andb_prop in Hname0 as [Hn0 Hname'].
  pose proof (plain_not_space _ Hn0) as Hs0.
  pose proof (plain_not_space _ Hc) as Hsc.
  set (rest := text +:+ String c EmptyString +:+ " // " +:+ ebody).
  assert (PyText.strip (String n0 name' +:+ " = " +:+ text
                        +:+ String c EmptyString +:+ " // "
                        +:+ (ebody +:+ String e1 EmptyString) +:+ trail)
          = (String n0 name' +:+ " ")
            +:+ String "=" (" " +:+ rest +:+ String e1 EmptyString)) as Hl.
  { transitivity (PyText.strip
                    (String n0 ((name' +:+ " = " +:+ text)
                                +:+ String c EmptyString +:+ " // " +:+ ebody)
                     +:+ String e1 trail)).
    { f_equal. by str_norm. }
    rewrite strip_between by done. unfold rest. by str_norm. }
  assert (PyStr.occurs "=" (" " +:+ rest +:+ String e1 EmptyString) = false)
    as Hocc.
  { unfold rest. rewrite ?occurs_append. simpl. rewrite ?occurs_append. simpl.
    rewrite (all_plain_occurs text "="), (plain_not_char c "="), Hebody, He1
      by auto. done. }
  assert (PyText.lstrip (rest +:+ String e1 EmptyString)
          = rest +:+ String e1 EmptyString) as Hlstrip.
  { unfold rest. destruct text as [|t0 text'].
    - rewrite append_nil_l, !append_cons. by apply lstrip_plain.
    - simpl in Htext. apply andb_prop in Htext as [Ht0 _].
      rewrite !append_cons. apply lstrip_plain. by apply plain_not_space. }
  assert (String.eqb ((String n0 name' +:+ " ")
                      +:+ String "=" (" " +:+ rest +:+ String e1 EmptyString))
                     EmptyString
          || String.prefix "//"
               ((String n0 name' +:+ " ")
                +:+ String "=" (" " +:+ rest +:+ String e1 EmptyString))
          = false) as Hpre.
  { rewrite !append_cons. apply prefix_first_differs.
    intros <-. by vm_compute in Hn0. }
  unfold parse_var_line. rewrite Hl, Hpre.
  rewrite split_two; [|by rewrite occurs_append,
                         (all_plain_occurs (String n0 name') "=") by auto|done].
  simpl lookup. cbv beta iota.
  replace (PyText.strip (" " +:+ rest +:+ String e1 EmptyString))
    with (rest +:+ String e1 EmptyString).
  2:{ unfold PyText.strip.
      change (PyText.lstrip (" " +:+ ?x)) with (PyText.lstrip x).
      rewrite Hlstrip. symmetry. by apply rstrip_append_char. }
  rewrite (drop_last_append rest (String e1 EmptyString) 1) by done.
  by rewrite H6.
Qed.

End SymbolTextFacts.

(** ** The iterations of the loop, one by one *)
Section LoopSteps.
Context {Fp : Type} `{!EqDecision Fp} {Decl : Type}.
Variable decl_len : Decl → nat.
Variable parse_segment_type : Decl → string.
Variable env : @Env Fp Decl.
Variable rom_bytes : list Byte.byte.
Variable config : @Config Decl.
Variable config_parent : string.
Variable options : Options.
Variable c_funcs : CFuncs.
Variable c_vars : gmap Z string.
Variable ignore_cache : bool.

Local Abbreviation Body := (body decl_len parse_segment_type env rom_bytes config
                       config_parent options c_funcs c_vars ignore_cache).
Local Abbreviation Loop := (loop decl_len parse_segment_type env rom_bytes config
                       config_parent options c_funcs c_vars ignore_cache).
Local Abbreviation RegionAt := (region_at decl_len parse_segment_type env config
                                 config_parent options).
Local Abbreviation Handle := (handle rom_bytes c_funcs c_vars ignore_cache).

Lemma log_error_nil (st : @Locals Fp) : log_error [] st = st.
Proof. destruct st. unfold log_error. simpl. by rewrite app_nil_r. Qed.

(** A class that resolves leaves nothing in the error log. *)
Lemma segment_class_of_resolved seg_type lg (cls : @SegClass Fp Decl) :
  segment_class_of env options config_parent seg_type = (lg, inr cls) → lg = [].
Proof.
  unfold segment_class_of, get_extension_class. intros H.
  by repeat (case_match; simplify_eq/=).
Qed.


Lemma region_at_inv i d (cls : @SegClass Fp Decl) seg :
  RegionAt i d = Some (cls, seg) →
  decl_len d ≠ 1%nat
  ∧ segment_class_of env options config_parent (parse_segment_type d)
    = ([], inr cls)
  ∧ ∃ next, segments config !! S i = Some next
            ∧ seg = construct cls d next options.
Proof.
  unfold region_at. intros H. case_decide; [done|].
  destruct (segment_class_of _ _ _ _) as [lg [f|c]] eqn:Hc; [done|].
  pose proof (segment_class_of_resolved _ _ _ Hc) as ->.
  destruct (segments config !! S i) as [next|]; [|done]. simplify_eq.
  eauto.
Qed.

(** The iteration at a region is lines 207 to 261 on its segment. *)
Lemma body_at_region i d st cls seg :
  RegionAt i d = Some (cls, seg) → Body i d st = Handle i cls seg st.
Proof.
  intros (Hlen & Hc & next & Hn & ->)%region_at_inv.
  unfold body. rewrite decide_False by done. rewrite Hc, Hn.
  by rewrite log_error_nil.
Qed.

(** The iteration at a declaration that gives no region: a sentinel is
    passed over, anything else stops the loop before a segment exists. *)
Lemma body_at_no_region i d st st' r :
  RegionAt i d = None → Body i d st = (st', r) →
  (decl_len d = 1%nat ∧ st' = st ∧ r = None)
  ∨ (decl_len d ≠ 1%nat
     ∧ ∃ lg f, st' = log_error lg st ∧ r = Some f
       ∧ ((segment_class_of env options config_parent (parse_segment_type d)
           = (lg, inl f))
          ∨ (lg = [] ∧ f = Raise "IndexError"
             ∧ segments config !! S i = None
             ∧ ∃ cls, segment_class_of env options config_parent
                        (parse_segment_type d) = ([], inr cls)))).
Proof.
  unfold region_at, body. intros Hr Hb.
  case_decide; [left; by simplify_eq|right; split; [done|]].
  destruct (segment_class_of _ _ _ _) as [lg [f|c]] eqn:Hc.
  - simplify_eq. eauto 6.
  - pose proof (segment_class_of_resolved _ _ _ Hc) as ->.
    destruct (segments config !! S i) as [next|]; [done|]. simplify_eq.
    exists [], (Raise "IndexError"). split_and!; try done. right. eauto.
Qed.

(** An invariant of the iterations is an invariant of the loop, however
    the loop ends. *)
Lemma loop_inv (P : @Locals Fp → Prop) todo i st st' r :
  (∀ k d s s' r', todo !! k = Some d → P s →
     Body (i + k) d s = (s', r') → P s') →
  P st → Loop i todo st = (st', r) → P st'.
Proof.
  revert i st. induction todo as [|d todo IH]; intros i st Hstep HP Hl;
    simpl in Hl.
  - by simplify_eq.
  - assert (∀ s' r', Body i d st = (s', r') → P s') as H0.
    { intros s' r' Hb. apply (Hstep 0%nat d st s' r'); [done|done|].
      by rewrite Nat.add_0_r. }
    destruct (Body i d st) as [st1 [f|]] eqn:Hb; simplify_eq; [by eapply H0|].
    apply (IH (S i) st1); [|by eapply H0|done].
    intros k d' s s' r' Hk HPs Hbk. apply (Hstep (S k) d' s s' r'); [done|done|].
    by replace (i + S k)%nat with (S i + k)%nat by lia.
Qed.


(** An iteration keeps what the error log and the segment steps keep. *)
Lemma body_inv (P : @Locals Fp → Prop) i d st st' r :
  (∀ lg s, P s → P (log_error lg s)) →
  (∀ (cls : @SegClass Fp Decl) seg s s' r',
     RegionAt i d = Some (cls, seg) → P s → Handle i cls seg s = (s', r') → P s') →
  P st → Body i d st = (st', r) → P st'.
Proof.
  intros Hlog Hh HP Hb.
  destruct (RegionAt i d) as [[cls seg]|] eqn:Hreg.
  - rewrite (body_at_region _ _ _ _ _ Hreg) in Hb. eauto.
  - apply body_at_no_region in Hb as [(_ & -> & _)|(_ & lg & f & -> & _)]; auto.
Qed.

(** An invariant that follows the index of the loop. *)
Lemma loop_inv_ix (P : nat → @Locals Fp → Prop) todo i st st' r :
  (∀ k d s s' r', todo !! k = Some d → P (i + k)%nat s →
     Body (i + k) d s = (s', r') → P (S (i + k)) s') →
  (∀ k s, P k s → P (S k) s) →
  P i st → Loop i todo st = (st', r) → P (i + length todo)%nat st'.
Proof.
  intros Hstep Hmono. revert i st Hstep.
  induction todo as [|d todo IH]; intros i st Hstep HP Hl; simpl in Hl.
  - simplify_eq. by rewrite Nat.add_0_r.
  - assert (∀ s' r', Body i d st = (s', r') → P (S i) s') as H0.
    { intros s' r' Hb. specialize (Hstep 0%nat d st s' r').
      rewrite Nat.add_0_r in Hstep. by apply Hstep. }
    replace (i + length (d :: todo))%nat with (S i + length todo)%nat
      by (simpl; lia).
    destruct (Body i d st) as [st1 [f|]] eqn:Hb; simplify_eq.
    + specialize (H0 _ _ eq_refl). clear -H0 Hmono.
      induction (length todo) as [|n IHn]; [by rewrite Nat.add_0_r|].
      replace (S i + S n)%nat with (S (S i + n)) by lia. by apply Hmono.
    + apply (IH (S i) st1); [|by eapply H0|done].
      intros k d' s s' r' Hk HPs Hbk. specialize (Hstep (S k) d' s s' r').
      replace (i + S k)%nat with (S i + k)%nat in Hstep by lia. by apply Hstep.
Qed.

(** What an iteration that completes does, by the three ways through
    lines 233 to 261. *)
Lemma handle_done i (cls : @SegClass Fp Decl) seg st st' :
  Handle i cls seg st = (st', None) →
  Seg.check seg = None
  ∧ log st' = log st
  ∧ (if Seg.should_run seg then
       if skipped_by_cache ignore_cache seg st then
         ran_segments st' = ran_segments st ∧ cache st' = cache st
         ∧ ld_sections st' = ld_sections st
         ∧ defined_funcs st' = defined_funcs st
         ∧ undefined_funcs st' = undefined_funcs st
         ∧ undefined_syms st' = undefined_syms st
         ∧ calls st' = calls st ++ [(i, MCheck); (i, MShouldRun); (i, MCache)]
       else
         ∃ r, Seg.split seg rom_bytes (code_context c_funcs c_vars seg st) = inr r
              ∧ ran_segments st' = ran_segments st ++ [(i, seg, r)]
              ∧ cache st' = <[Seg.unique_id seg := Seg.cache seg]> (cache st)
              ∧ ld_sections st' = ld_sections st ++ [Seg.get_ld_section seg]
              ∧ defined_funcs st' = defined_funcs (fold_symbols seg r st)
              ∧ undefined_funcs st' = undefined_funcs (fold_symbols seg r st)
              ∧ undefined_syms st' = undefined_syms (fold_symbols seg r st)
              ∧ calls st' = calls st ++ [(i, MCheck); (i, MShouldRun); (i, MCache);
                                         (i, MSplit); (i, MGetLdSection)]
     else
       ran_segments st' = ran_segments st ∧ cache st' = cache st
       ∧ ld_sections st' = ld_sections st ++ [Seg.get_ld_section seg]
       ∧ defined_funcs st' = defined_funcs st
       ∧ undefined_funcs st' = undefined_funcs st
       ∧ undefined_syms st' = undefined_syms st
       ∧ calls st' = calls st ++ [(i, MCheck); (i, MShouldRun); (i, MGetLdSection)]).
Proof.
  intros Hh.
  unfold handle, process, run_segment, count_size, check_unique_name,
    collect_ld_section, dict_iadd, skipped_by_cache in Hh |- *.
  destruct (Seg.should_run seg), ignore_cache; simpl in Hh |- *.
  all: unfold code_context, fold_symbols in *.
  all: repeat (case_match; simplify_eq/=).
  all: rewrite <- ?app_assoc; simpl.
  all: split_and?; try done.
  all: eexists; split; [eassumption|]; by split_and?.
Qed.

(** The names seen after an iteration that completes. *)
Lemma handle_seen i (cls : @SegClass Fp Decl) seg st st' :
  Handle i cls seg st = (st', None) →
  if require_unique_name cls then
    (Seg.name seg ∉ seen_segment_names st)
    ∧ seen_segment_names st' = seen_segment_names st ∪ {[Seg.name seg]}
  else seen_segment_names st' = seen_segment_names st.
Proof.
  intros Hh.
  unfold handle, process, run_segment, count_size, check_unique_name,
    collect_ld_section, fold_symbols, dict_iadd in Hh.
  by repeat (case_match; simplify_eq/=).
Qed.

(** [d[k] += n] keeps the keys of [d], and works on every key of [d]. *)
Lemma dict_iadd_dom k n (d d' : gmap string Z) :
  dict_iadd k n d = Some d' → dom d' = dom d.
Proof.
  unfold dict_iadd. destruct (d !! k) as [v|] eqn:Hk; [|done].
  intros [= <-]. apply dom_insert_lookup_L. by rewrite Hk.
Qed.

Lemma dict_iadd_Some k n (d : gmap string Z) :
  k ∈ dom d → ∃ d', dict_iadd k n d = Some d'.
Proof.
  intros [v Hv]%elem_of_dom. unfold dict_iadd. rewrite Hv. eauto.
Qed.

Lemma count_size_aligned tp (seg : Segment Fp) st st' r :
  counters_aligned st → count_size tp seg st = (st', r) →
  counters_aligned st' ∧ tp ∈ dom (seg_sizes st').
Proof.
  unfold counters_aligned, count_size. intros [H1 H2] Hc.
  destruct (decide (tp ∈ dom (seg_sizes st))) as [Hin|Hin].
  - destruct (dict_iadd_Some tp (Seg.rom_length seg) _ Hin) as [d' Hd].
    rewrite Hd in Hc. simplify_eq/=. apply dict_iadd_dom in Hd.
    rewrite Hd. by split_and!.
  - simpl in Hc.
    destruct (dict_iadd_Some tp (Seg.rom_length seg) (<[tp:=0]> (seg_sizes st)))
      as [d' Hd]; [rewrite dom_insert_L; apply elem_of_union_l, elem_of_singleton; done|].
    rewrite Hd in Hc. simplify_eq/=. apply dict_iadd_dom in Hd.
    rewrite Hd, !dom_insert_L, H1, H2. split_and!; try done.
    by apply elem_of_union_l, elem_of_singleton.
Qed.

Lemma process_aligned i tp (seg : Segment Fp) st st' r :
  counters_aligned st →
  process rom_bytes c_funcs c_vars ignore_cache i tp seg st = (st', r) →
  counters_aligned st'.
Proof.
  unfold counters_aligned. intros [H1 H2] Hp.
  unfold process, run_segment, collect_ld_section, fold_symbols in Hp.
  repeat (case_match; simplify_eq/=); try done.
  all: repeat match goal with
         | H : dict_iadd _ _ _ = Some _ |- _ => apply dict_iadd_dom in H
         end; simpl in *; split; congruence.
Qed.

(** The statistics dictionaries keep the same keys, in every iteration,
    however it ends. *)
Lemma handle_aligned i (cls : @SegClass Fp Decl) seg st st' r :
  counters_aligned st → Handle i cls seg st = (st', r) → counters_aligned st'.
Proof.
  intros Ha Hh. unfold handle in Hh.
  destruct (check_unique_name cls seg st) as [st1 r1] eqn:H1.
  assert (counters_aligned st1) as Ha1.
  { unfold check_unique_name in H1. by repeat (case_match; simplify_eq/=). }
  destruct r1; [by simplify_eq|].
  destruct (Seg.check seg); [by simplify_eq|].
  destruct (count_size _ _ _) as [st2 r2] eqn:H2.
  apply count_size_aligned in H2 as [Ha2 _]; [|exact Ha1].
  destruct r2; [by simplify_eq|]. eapply process_aligned; [exact Ha2|exact Hh].
Qed.

End LoopSteps.

(** ** Iterations that stop the loop *)
Section LoopStops.
Context {Fp : Type} `{!EqDecision Fp} {Decl : Type}.
Variable decl_len : Decl → nat.
Variable parse_segment_type : Decl → string.
Variable env : @Env Fp Decl.
Variable rom_bytes : list Byte.byte.
Variable config : @Config Decl.
Variable config_parent : string.
Variable options : Options.
Variable c_funcs : CFuncs.
Variable c_vars : gmap Z string.
Variable ignore_cache : bool.

Local Abbreviation Body := (body decl_len parse_segment_type env rom_bytes config
                       config_parent options c_funcs c_vars ignore_cache).
Local Abbreviation Loop := (loop decl_len parse_segment_type env rom_bytes config
                       config_parent options c_funcs c_vars ignore_cache).
Local Abbreviation RegionAt := (region_at decl_len parse_segment_type env config
                                 config_parent options).
Local Abbreviation Handle := (handle rom_bytes c_funcs c_vars ignore_cache).

(** An iteration that stops the loop at a region: a name seen before, a
    [check] that fails, or a [split] that fails. The updates of the
    statistics dictionaries never fail. *)
Lemma handle_fail i (cls : @SegClass Fp Decl) seg st st' f :
  counters_aligned st → Handle i cls seg st = (st', Some f) →
  ran_segments st' = ran_segments st ∧ ld_sections st' = ld_sections st
  ∧ defined_funcs st' = defined_funcs st
  ∧ undefined_funcs st' = undefined_funcs st
  ∧ undefined_syms st' = undefined_syms st
  ∧ ((f = Exit 1 ∧ require_unique_name cls = true
      ∧ Seg.name seg ∈ seen_segment_names st
      ∧ log st' = log st ++ [LogText (not_unique (Seg.name seg))]
      ∧ calls st' = calls st ∧ cache st' = cache st)
     ∨ (Seg.check seg = Some f ∧ log st' = log st
        ∧ calls st' = calls st ++ [(i, MCheck)] ∧ cache st' = cache st)
     ∨ (Seg.check seg = None ∧ Seg.should_run seg = true
        ∧ skipped_by_cache ignore_cache seg st = false
        ∧ Seg.split seg rom_bytes (code_context c_funcs c_vars seg st) = inl f
        ∧ log st' = log st
        ∧ calls st' = calls st ++ [(i, MCheck); (i, MShouldRun); (i, MCache);
                                   (i, MSplit)]
        ∧ cache st' = <[Seg.unique_id seg := Seg.cache seg]> (cache st))).
Proof.
  intros [Ha1 Ha2] Hh.
  unfold handle, process, run_segment, count_size, check_unique_name,
    collect_ld_section, dict_iadd, skipped_by_cache in Hh |- *.
  destruct (Seg.should_run seg), ignore_cache; simpl in Hh |- *.
  all: unfold code_context, fold_symbols in *.
  all: repeat (case_match; simplify_eq/=).
  all: try (match goal with H : <[_:=_]> _ !! _ = None |- _ =>
              by rewrite lookup_insert_eq in H end).
  all: try (match goal with
            | H : ?m !! ?k = None, H' : ?k ∈ dom _ |- _ =>
                apply not_elem_of_dom in H; rewrite ?Ha1, ?Ha2 in H; done
            end).
  all: rewrite <- ?app_assoc; simpl.
  all: split_and?; try done.
  all: first [ by (left; split_and!)
             | by (right; left; split_and!)
             | by (right; right; split_and!) ].
Qed.

End LoopStops.

(** ** The statistics dictionaries *)
Section LoopCounters.
Context {Fp : Type} `{!EqDecision Fp} {Decl : Type}.
Variable decl_len : Decl → nat.
Variable parse_segment_type : Decl → string.
Variable env : @Env Fp Decl.
Variable rom_bytes : list Byte.byte.
Variable config : @Config Decl.
Variable config_parent : string.
Variable options : Options.
Variable c_funcs : CFuncs.
Variable c_vars : gmap Z string.
Variable ignore_cache : bool.

Local Abbreviation Body := (body decl_len parse_segment_type env rom_bytes config
                       config_parent options c_funcs c_vars ignore_cache).
Local Abbreviation Loop := (loop decl_len parse_segment_type env rom_bytes config
                       config_parent options c_funcs c_vars ignore_cache).
Local Abbreviation RegionAt := (region_at decl_len parse_segment_type env config
                                 config_parent options).
Local Abbreviation Handle := (handle rom_bytes c_funcs c_vars ignore_cache).

Lemma count_calls_app m a b :
  count_calls m (a ++ b) = (count_calls m a + count_calls m b)%nat.
Proof. unfold count_calls. by rewrite filter_app, length_app. Qed.

Lemma count_ran_app tp (a b : list (nat * Segment Fp * SplitResult)) :
  count_ran tp (a ++ b) = (count_ran tp a + count_ran tp b)%nat.
Proof. unfold count_ran. by rewrite filter_app, length_app. Qed.

Lemma count_ran_none tp (ran : list (nat * Segment Fp * SplitResult)) :
  (∀ j seg r, (j, seg, r) ∈ ran → bucket seg ≠ tp) → count_ran tp ran = 0%nat.
Proof.
  intros H. unfold count_ran. induction ran as [|[[j seg] r] ran IH]; [done|].
  rewrite filter_cons. rewrite decide_False.
  - apply IH. intros j' seg' r' Hin. apply (H j' seg' r'). by right.
  - simpl. apply (H j seg r). by left.
Qed.

Lemma count_ran_one tp (x : nat * Segment Fp * SplitResult) :
  count_ran tp [x] = if decide (bucket x.1.2 = tp) then 1%nat else 0%nat.
Proof. unfold count_ran. rewrite filter_cons. by case_decide. Qed.

Lemma count_size_split_counted tp (seg : Segment Fp) st st' r :
  counters_aligned st → split_counted st → count_size tp seg st = (st', r) →
  split_counted st'.
Proof.
  intros [Ha1 Ha2] [Hb Hc] Hs. unfold count_size in Hs.
  destruct (decide (tp ∈ dom (seg_sizes st))) as [Hin|Hin].
  - destruct (dict_iadd_Some tp (Seg.rom_length seg) _ Hin) as [d' Hd].
    rewrite Hd in Hs. simplify_eq/=. apply dict_iadd_dom in Hd.
    split; simpl; [|done]. intros j s r' Hr. rewrite Hd. by eapply Hb.
  - simpl in Hs.
    destruct (dict_iadd_Some tp (Seg.rom_length seg) (<[tp:=0]> (seg_sizes st)))
      as [d' Hd]; [rewrite dom_insert_L; apply elem_of_union_l, elem_of_singleton; done|].
    rewrite Hd in Hs. simplify_eq/=. apply dict_iadd_dom in Hd.
    split; simpl.
    + intros j s r' Hr. rewrite Hd, dom_insert_L. apply elem_of_union_r.
      by eapply Hb.
    + intros k n. destruct (decide (k = tp)) as [->|Hne].
      * rewrite lookup_insert_eq. intros [= <-].
        rewrite count_ran_none; [done|].
        intros j s r' Hr Heq. apply Hin. rewrite <- Heq. by eapply Hb.
      * rewrite lookup_insert_ne by done. apply Hc.
Qed.

Lemma process_split_counted i (seg : Segment Fp) st st' r :
  counters_aligned st → split_counted st → bucket seg ∈ dom (seg_sizes st) →
  process rom_bytes c_funcs c_vars ignore_cache i (bucket seg) seg st = (st', r) →
  split_counted st'.
Proof.
  intros [Ha1 Ha2] [Hb Hc] Hin Hp.
  unfold process, run_segment, collect_ld_section, fold_symbols, dict_iadd in Hp.
  repeat (case_match; simplify_eq/=); try (by split).
  all: try (match goal with
            | H : ?m !! ?k = None |- _ =>
                apply not_elem_of_dom in H; rewrite ?Ha1, ?Ha2 in H; done
            end).
  all: split; simpl;
    [ intros jx sx rx [Hr|Hr%list_elem_of_singleton]%elem_of_app;
      [by eapply Hb|by simplify_eq] |].
  all: intros k n; destruct (decide (k = bucket seg)) as [->|Hne];
    [ rewrite lookup_insert_eq; intros [= <-];
      rewrite count_ran_app;
      match goal with H : seg_split _ !! _ = Some _ |- _ => apply Hc in H; subst end;
      rewrite count_ran_one, decide_True by done; lia
    | rewrite lookup_insert_ne by done; intros Hk; apply Hc in Hk; subst;
      rewrite count_ran_app, count_ran_one, decide_False by (simpl; congruence);
      lia ].
Qed.

(** The count of segments that ran, by bucket, in every iteration. *)
Lemma handle_split_counted i (cls : @SegClass Fp Decl) seg st st' r :
  counters_aligned st → split_counted st → Handle i cls seg st = (st', r) →
  split_counted st'.
Proof.
  intros Ha Hs Hh. unfold handle in Hh.
  destruct (check_unique_name cls seg st) as [st1 r1] eqn:H1.
  assert (counters_aligned st1 ∧ split_counted st1) as [Ha1 Hs1].
  { unfold check_unique_name in H1. by repeat (case_match; simplify_eq/=). }
  destruct r1; [by simplify_eq|].
  destruct (Seg.check seg); [by simplify_eq|].
  destruct (count_size _ _ _) as [st2 r2] eqn:H2.
  pose proof H2 as H2'.
  apply count_size_aligned in H2 as [Ha2 Hin]; [|exact Ha1].
  apply count_size_split_counted in H2'; [|exact Ha1|exact Hs1].
  destruct r2; [by simplify_eq|].
  eapply process_split_counted; [exact Ha2|exact H2'|exact Hin|exact Hh].
Qed.

Lemma count_calls_snoc m cs (c : nat * Method) :
  count_calls m (cs ++ [c])
  = (count_calls m cs + if decide (c.2 = m) then 1 else 0)%nat.
Proof.
  rewrite count_calls_app. f_equal. unfold count_calls.
  rewrite filter_cons. by case_decide.
Qed.

Lemma count_size_cached_counted tp (seg : Segment Fp) st st' r :
  counters_aligned st → cached_counted st → count_size tp seg st = (st', r) →
  cached_counted st'.
Proof.
  unfold cached_counted. intros [Ha1 Ha2] Hc Hs. unfold count_size in Hs.
  destruct (decide (tp ∈ dom (seg_sizes st))) as [Hin|Hin].
  - destruct (dict_iadd_Some tp (Seg.rom_length seg) _ Hin) as [d' Hd].
    rewrite Hd in Hs. by simplify_eq/=.
  - simpl in Hs.
    destruct (dict_iadd_Some tp (Seg.rom_length seg) (<[tp:=0]> (seg_sizes st)))
      as [d' Hd]; [rewrite dom_insert_L; apply elem_of_union_l, elem_of_singleton; done|].
    rewrite Hd in Hs. simplify_eq/=.
    rewrite sum_values_insert_fresh; [lia|].
    apply not_elem_of_dom. by rewrite Ha2.
Qed.

Lemma process_cached_counted i tp (seg : Segment Fp) st st' r :
  counters_aligned st → tp ∈ dom (seg_sizes st) → cached_counted st →
  process rom_bytes c_funcs c_vars ignore_cache i tp seg st = (st', r) →
  cached_counted st'.
Proof.
  unfold cached_counted. intros [Ha1 Ha2] Hin Hc Hp.
  unfold process, run_segment, collect_ld_section, fold_symbols, dict_iadd in Hp.
  repeat (case_match; simplify_eq/=).
  all: try (match goal with
            | H : ?m !! ?k = None |- _ =>
                apply not_elem_of_dom in H; rewrite ?Ha1, ?Ha2 in H; done
            end).
  all: rewrite ?count_calls_snoc; simpl.
  all: try (erewrite sum_values_insert by eassumption).
  all: lia.
Qed.

(** The count of segments found in the cache, in every iteration. *)
Lemma handle_cached_counted i (cls : @SegClass Fp Decl) seg st st' r :
  counters_aligned st → cached_counted st → Handle i cls seg st = (st', r) →
  cached_counted st'.
Proof.
  intros Ha Hs Hh. unfold handle in Hh.
  destruct (check_unique_name cls seg st) as [st1 r1] eqn:H1.
  assert (counters_aligned st1 ∧ cached_counted st1) as [Ha1 Hs1].
  { unfold check_unique_name in H1. by repeat (case_match; simplify_eq/=). }
  destruct r1; [by simplify_eq|].
  assert (cached_counted (call i MCheck st1)) as Hs1'.
  { unfold cached_counted in *. simpl. rewrite !count_calls_snoc. simpl. lia. }
  destruct (Seg.check seg); [by simplify_eq|].
  destruct (count_size _ _ _) as [st2 r2] eqn:H2.
  pose proof H2 as H2'.
  apply count_size_aligned in H2 as [Ha2 Hin]; [|exact Ha1].
  apply count_size_cached_counted in H2'; [|exact Ha1|exact Hs1'].
  destruct r2; [by simplify_eq|].
  eapply process_cached_counted; [exact Ha2|exact Hin|exact H2'|exact Hh].
Qed.

End LoopCounters.

(** ** The statistics dictionaries after the loop *)
Section LoopCounted.
Context {Fp : Type} `{!EqDecision Fp} {Decl : Type}.
Variable decl_len : Decl → nat.
Variable parse_segment_type : Decl → string.
Variable env : @Env Fp Decl.
Variable rom_bytes : list Byte.byte.
Variable config : @Config Decl.
Variable config_parent : string.
Variable options : Options.
Variable c_funcs : CFuncs.
Variable c_vars : gmap Z string.
Variable ignore_cache : bool.

Local Abbreviation Body := (body decl_len parse_segment_type env rom_bytes config
                       config_parent options c_funcs c_vars ignore_cache).
Local Abbreviation Loop := (loop decl_len parse_segment_type env rom_bytes config
                       config_parent options c_funcs c_vars ignore_cache).
Local Abbreviation RegionAt := (region_at decl_len parse_segment_type env config
                                 config_parent options).
Local Abbreviation Handle := (handle rom_bytes c_funcs c_vars ignore_cache).

Lemma loop_counters todo i (st st' : @Locals Fp) r :
  counters_aligned st → split_counted st → cached_counted st →
  loop decl_len parse_segment_type env rom_bytes config config_parent options
       c_funcs c_vars ignore_cache i todo st = (st', r) →
  counters_aligned st' ∧ split_counted st' ∧ cached_counted st'.
Proof.
  intros Ha Hs Hc Hl.
  eapply (loop_inv _ _ _ _ _ _ _ _ _ _
            (λ s, counters_aligned s ∧ split_counted s ∧ cached_counted s));
    [|by split_and!|exact Hl].
  intros k d s s' r' _ HP Hb.
  eapply (body_inv _ _ _ _ _ _ _ _ _ _
            (λ s, counters_aligned s ∧ split_counted s ∧ cached_counted s));
    [| |exact HP|exact Hb].
  - by intros lg s0 (? & ? & ?).
  - intros cls seg s0 s0' r0 _ (? & ? & ?) Hh.
    split_and!; [by eapply handle_aligned|by eapply handle_split_counted
                |by eapply handle_cached_counted].
Qed.

End LoopCounted.

(** ** The segments that ran *)
Section RanSegments.
Context {Fp : Type} `{!EqDecision Fp} {Decl : Type}.
Variable decl_len : Decl → nat.
Variable parse_segment_type : Decl → string.
Variable env : @Env Fp Decl.
Variable rom_bytes : list Byte.byte.
Variable config : @Config Decl.
Variable config_parent : string.
Variable options : Options.
Variable c_funcs : CFuncs.
Variable c_vars : gmap Z string.
Variable ignore_cache : bool.

Local Abbreviation Body := (body decl_len parse_segment_type env rom_bytes config
                       config_parent options c_funcs c_vars ignore_cache).
Local Abbreviation Loop := (loop decl_len parse_segment_type env rom_bytes config
                       config_parent options c_funcs c_vars ignore_cache).
Local Abbreviation RegionAt := (region_at decl_len parse_segment_type env config
                                 config_parent options).
Local Abbreviation Handle := (handle rom_bytes c_funcs c_vars ignore_cache).

Lemma symbols_of_snoc get (ran : list (nat * Segment Fp * SplitResult)) x :
  symbols_of get (ran ++ [x])
  = symbols_of get ran ∪ (if Seg.is_N64SegCode x.1.2 then get x.2 else ∅).
Proof.
  unfold symbols_of. rewrite fmap_app, union_list_app_L. simpl.
  by rewrite union_empty_r_L.
Qed.

Lemma ran_before_all i (ran : list (nat * Segment Fp * SplitResult)) :
  Forall (λ x, (x.1.1 < i)%nat) ran → ran_before i ran = ran.
Proof.
  unfold ran_before. induction 1 as [|x ran Hx _ IH]; [done|].
  by rewrite filter_cons_True, IH.
Qed.

Lemma ran_before_snoc j (ran : list (nat * Segment Fp * SplitResult)) x :
  (j ≤ x.1.1)%nat → ran_before j (ran ++ [x]) = ran_before j ran.
Proof.
  intros Hx. unfold ran_before. rewrite filter_app.
  rewrite (filter_cons_False _ x) by lia. apply app_nil_r.
Qed.

Local Abbreviation RanInv := (ran_inv decl_len parse_segment_type env rom_bytes
                                config config_parent options c_funcs c_vars).
Local Abbreviation RanAt := (ran_at decl_len parse_segment_type env rom_bytes
                               config config_parent options c_funcs c_vars).

Lemma ran_inv_mono k (st : @Locals Fp) : RanInv k st → RanInv (S k) st.
Proof.
  intros (H1 & H2). split; [|done].
  eapply Forall_impl; [exact H1|]. simpl. lia.
Qed.

Lemma ran_inv_frame k (st st' : @Locals Fp) :
  ran_segments st' = ran_segments st → defined_funcs st' = defined_funcs st →
  undefined_funcs st' = undefined_funcs st →
  undefined_syms st' = undefined_syms st →
  RanInv k st → RanInv k st'.
Proof. unfold ran_inv. by intros -> -> -> ->. Qed.

(** The segment that an iteration adds to the segments that ran. *)
Lemma ran_inv_snoc k d (cls : @SegClass Fp Decl) seg r st st' :
  segments config !! k = Some d → RegionAt k d = Some (cls, seg) →
  Seg.should_run seg = true →
  Seg.split seg rom_bytes (code_context c_funcs c_vars seg st) = inr r →
  ran_segments st' = ran_segments st ++ [(k, seg, r)] →
  defined_funcs st' = defined_funcs (fold_symbols seg r st) →
  undefined_funcs st' = undefined_funcs (fold_symbols seg r st) →
  undefined_syms st' = undefined_syms (fold_symbols seg r st) →
  RanInv k st → RanInv (S k) st'.
Proof.
  intros Hd Hreg Hrun Hsplit Hran Hdef Hund Hsym (H1 & H2 & H3 & H4 & H5 & H6).
  unfold ran_inv. rewrite Hran, Hdef, Hund, Hsym, !symbols_of_snoc.
  unfold fold_symbols. simpl. split_and!.
  - apply Forall_app. split.
    + eapply Forall_impl; [exact H1|]. simpl. lia.
    + constructor; [simpl; lia|constructor].
  - apply StronglySorted_app. split_and!; [|done|repeat constructor].
    intros x1 x2 Hx1 ->%list_elem_of_singleton. simpl.
    by apply (proj1 (Forall_forall _ _) H1).
  - destruct (Seg.is_N64SegCode seg); simpl; [by rewrite H3|].
    by rewrite union_empty_r_L.
  - destruct (Seg.is_N64SegCode seg); simpl; [by rewrite H4|].
    by rewrite union_empty_r_L.
  - destruct (Seg.is_N64SegCode seg); simpl; [by rewrite H5|].
    by rewrite union_empty_r_L.
  - intros j s0 r0 [Hin|Hin%list_elem_of_singleton]%elem_of_app.
    + destruct (H6 j s0 r0 Hin) as (Hr & Hs & s & Hs1 & Hs2).
      split_and!; [done|done|]. exists s. split; [|done].
      rewrite ran_before_snoc; [done|]. simpl.
      apply (proj1 (Forall_forall _ _) H1) in Hin. simpl in Hin. lia.
    + simplify_eq. split_and!; [by eauto|done|]. exists st. split; [|done].
      rewrite ran_before_snoc by (simpl; lia).
      by rewrite ran_before_all.
Qed.

(** The invariant, through an iteration, however it ends. *)
Lemma body_ran_inv k d st st' r :
  segments config !! k = Some d → counters_aligned st → RanInv k st →
  Body k d st = (st', r) → RanInv (S k) st'.
Proof.
  intros Hd Ha Hinv Hb.
  destruct (RegionAt k d) as [[cls seg]|] eqn:Hreg.
  - rewrite (body_at_region _ _ _ _ _ _ _ _ _ _ _ _ _ _ _ Hreg) in Hb.
    destruct r as [f|].
    + apply handle_fail in Hb as (Hr & _ & H1 & H2 & H3 & _); [|done].
      apply ran_inv_mono. by eapply ran_inv_frame.
    + apply handle_done in Hb as (_ & _ & Hb).
      destruct (Seg.should_run seg) eqn:Hrun;
        [destruct (skipped_by_cache ignore_cache seg st)|].
      * destruct Hb as (Hr & _ & _ & H1 & H2 & H3 & _).
        apply ran_inv_mono. by eapply ran_inv_frame.
      * destruct Hb as (r0 & Hs & Hr & _ & _ & H1 & H2 & H3 & _).
        by eapply ran_inv_snoc.
      * destruct Hb as (Hr & _ & _ & H1 & H2 & H3 & _).
        apply ran_inv_mono. by eapply ran_inv_frame.
  - apply ran_inv_mono.
    apply (body_at_no_region _ _ _ _ _ _ _ _ _ _ _ _ _ _ _ Hreg) in Hb
      as [(_ & -> & _)|(_ & lg & f & -> & _)]; [done|].
    by eapply ran_inv_frame.
Qed.

(** The invariants of the loop over the declarations of the
    configuration, from locals that satisfy them. *)
Lemma loop_ran_inv todo st st' r :
  (∀ k d, todo !! k = Some d → segments config !! k = Some d) →
  counters_aligned st → RanInv 0 st → Loop 0%nat todo st = (st', r) →
  counters_aligned st' ∧ RanInv (length todo) st'.
Proof.
  intros Hsub Ha Hinv Hl.
  apply (loop_inv_ix decl_len parse_segment_type env rom_bytes config
           config_parent options c_funcs c_vars ignore_cache
           (λ k s, counters_aligned s ∧ RanInv k s) todo 0%nat st st' r);
    [| |done|done].
  - intros k d s s' r' Hk [Ha' Hi'] Hb. simpl in *. split.
    + eapply (body_inv _ _ _ _ _ _ _ _ _ _ counters_aligned);
        [| |exact Ha'|exact Hb]; [done|].
      intros cls seg s0 s0' r0 _ ? Hh. by eapply handle_aligned.
    + eapply body_ran_inv; [by apply Hsub|exact Ha'|exact Hi'|exact Hb].
  - intros k s [? ?]. split; [done|]. by apply ran_inv_mono.
Qed.

End RanSegments.

(** ** The calls of the loop *)
Section LoopCalls.
Context {Fp : Type} `{!EqDecision Fp} {Decl : Type}.
Variable decl_len : Decl → nat.
Variable parse_segment_type : Decl → string.
Variable env : @Env Fp Decl.
Variable rom_bytes : list Byte.byte.
Variable config : @Config Decl.
Variable config_parent : string.
Variable options : Options.
Variable c_funcs : CFuncs.
Variable c_vars : gmap Z string.
Variable ignore_cache : bool.

Local Abbreviation Body := (body decl_len parse_segment_type env rom_bytes config
                       config_parent options c_funcs c_vars ignore_cache).
Local Abbreviation Loop := (loop decl_len parse_segment_type env rom_bytes config
                       config_parent options c_funcs c_vars ignore_cache).
Local Abbreviation RegionAt := (region_at decl_len parse_segment_type env config
                                 config_parent options).
Local Abbreviation Handle := (handle rom_bytes c_funcs c_vars ignore_cache).

(** The calls of an iteration are calls of the loop, on its segment. *)
Lemma handle_calls i (cls : @SegClass Fp Decl) seg st st' r :
  Handle i cls seg st = (st', r) →
  ∃ c, calls st' = calls st ++ c
       ∧ Forall (λ x, x.1 = i ∧ x.2 ≠ MPostsplit) c.
Proof.
  intros Hh.
  unfold handle, process, run_segment, count_size, check_unique_name,
    collect_ld_section, fold_symbols, dict_iadd in Hh.
  repeat (case_match; simplify_eq/=).
  all: rewrite <- ?app_assoc.
  all: first [ by (exists []; rewrite app_nil_r)
             | (eexists; split; [reflexivity|]; by repeat constructor) ].
Qed.

Lemma body_calls i d st st' r :
  Body i d st = (st', r) →
  ∃ c, calls st' = calls st ++ c
       ∧ Forall (λ x, x.1 = i ∧ x.2 ≠ MPostsplit) c.
Proof.
  intros Hb. destruct (RegionAt i d) as [[cls seg]|] eqn:Hreg.
  - rewrite (body_at_region _ _ _ _ _ _ _ _ _ _ _ _ _ _ _ Hreg) in Hb.
    by eapply handle_calls.
  - exists []. rewrite app_nil_r. split; [|constructor].
    by apply (body_at_no_region _ _ _ _ _ _ _ _ _ _ _ _ _ _ _ Hreg) in Hb
      as [(_ & -> & _)|(_ & lg & f & -> & _)].
Qed.

(** The loop never calls [postsplit]. *)
Lemma loop_calls_no_postsplit todo i st st' r :
  Forall (λ c, c.2 ≠ MPostsplit) (calls st) → Loop i todo st = (st', r) →
  Forall (λ c, c.2 ≠ MPostsplit) (calls st').
Proof.
  intros H0 Hl.
  apply (loop_inv decl_len parse_segment_type env rom_bytes config
           config_parent options c_funcs c_vars ignore_cache
           (λ s, Forall (λ c, c.2 ≠ MPostsplit) (calls s))
           todo i st st' r); [|done|done].
  intros k d s s' r' _ HP Hb.
  apply body_calls in Hb as (c & -> & Hc).
  apply Forall_app. split; [done|].
  eapply Forall_impl; [exact Hc|]. by intros x [_ ?].
Qed.

End LoopCalls.

(** ** The error log *)
Section LoopLog.
Context {Fp : Type} `{!EqDecision Fp} {Decl : Type}.
Variable decl_len : Decl → nat.
Variable parse_segment_type : Decl → string.
Variable env : @Env Fp Decl.
Variable rom_bytes : list Byte.byte.
Variable config : @Config Decl.
Variable config_parent : string.
Variable options : Options.
Variable c_funcs : CFuncs.
Variable c_vars : gmap Z string.
Variable ignore_cache : bool.

Local Abbreviation Body := (body decl_len parse_segment_type env rom_bytes config
                       config_parent options c_funcs c_vars ignore_cache).
Local Abbreviation Loop := (loop decl_len parse_segment_type env rom_bytes config
                       config_parent options c_funcs c_vars ignore_cache).
Local Abbreviation RegionAt := (region_at decl_len parse_segment_type env config
                                 config_parent options).
Local Abbreviation Handle := (handle rom_bytes c_funcs c_vars ignore_cache).

(** An invariant of the iterations that complete is an invariant of the
    loops that complete. *)
Lemma loop_done_inv (P : nat → @Locals Fp → Prop) todo i st st' :
  (∀ k d s s', todo !! k = Some d → P (i + k)%nat s →
     Body (i + k) d s = (s', None) → P (S (i + k)) s') →
  P i st → Loop i todo st = (st', None) → P (i + length todo)%nat st'.
Proof.
  revert i st. induction todo as [|d todo IH]; intros i st Hstep HP Hl;
    simpl in Hl.
  - simplify_eq. by rewrite Nat.add_0_r.
  - destruct (Body i d st) as [st1 [f|]] eqn:Hb; [done|].
    replace (i + length (d :: todo))%nat with (S i + length todo)%nat
      by (simpl; lia).
    apply (IH (S i) st1); [| |done].
    + intros k d' s s' Hk HPk Hbk.
      specialize (Hstep (S k) d' s s').
      replace (i + S k)%nat with (S i + k)%nat in Hstep by lia. by apply Hstep.
    + specialize (Hstep 0%nat d st st1). rewrite Nat.add_0_r in Hstep.
      by apply Hstep.
Qed.




End LoopLog.

(** ** The cache through the loop *)
Section LoopCache.
Context {Fp : Type} `{!EqDecision Fp} {Decl : Type}.
Variable decl_len : Decl → nat.
Variable parse_segment_type : Decl → string.
Variable env : @Env Fp Decl.
Variable rom_bytes : list Byte.byte.
Variable config : @Config Decl.
Variable config_parent : string.
Variable options : Options.
Variable c_funcs : CFuncs.
Variable c_vars : gmap Z string.
Variable ignore_cache : bool.

Local Abbreviation Body := (body decl_len parse_segment_type env rom_bytes config
                       config_parent options c_funcs c_vars ignore_cache).
Local Abbreviation Loop := (loop decl_len parse_segment_type env rom_bytes config
                       config_parent options c_funcs c_vars ignore_cache).
Local Abbreviation RegionAt := (region_at decl_len parse_segment_type env config
                                 config_parent options).
Local Abbreviation Handle := (handle rom_bytes c_funcs c_vars ignore_cache).

(** The sizes after an iteration that completes: the length of the
    segment is added to its bucket. *)
Lemma handle_sizes_exact i (cls : @SegClass Fp Decl) seg st st' :
  Handle i cls seg st = (st', None) →
  seg_sizes st'
  = <[bucket seg := default 0 (seg_sizes st !! bucket seg) + Seg.rom_length seg]>
      (seg_sizes st).
Proof.
  intros Hh.
  unfold handle, process, run_segment, count_size, check_unique_name,
    collect_ld_section, fold_symbols, dict_iadd in Hh.
  repeat (case_match; simplify_eq/=).
  all: repeat match goal with
         | H : <[_:=_]> _ !! _ = Some _ |- _ =>
             rewrite lookup_insert_eq in H; simplify_eq
         | H : ?m !! ?k = Some _ |- context [?m !! ?k] => rewrite H
         | H : ?k ∉ dom ?m |- context [?m !! ?k] =>
             rewrite (proj1 (not_elem_of_dom m k) H)
         end; simpl; rewrite ?insert_insert_eq; done.
Qed.

(** The cache after an iteration that completes on a segment that
    should run holds its fingerprint, and the other entries are as they
    were. *)
Lemma handle_done_cache i (cls : @SegClass Fp Decl) seg st st' :
  Handle i cls seg st = (st', None) →
  (Seg.should_run seg = true →
   cache st' !! Seg.unique_id seg = Some (Seg.cache seg))
  ∧ (∀ k, k ≠ Seg.unique_id seg → cache st' !! k = cache st !! k)
  ∧ (cache st' = cache st
     ∨ (Seg.should_run seg = true
        ∧ cache st' = <[Seg.unique_id seg := Seg.cache seg]> (cache st))).
Proof.
  intros Hh. apply handle_done in Hh as (_ & _ & Hh).
  destruct (Seg.should_run seg) eqn:Hrun;
    [destruct (skipped_by_cache ignore_cache seg st) eqn:Hskip|].
  - destruct Hh as (_ & -> & _). split_and!; [|done|by left].
    intros _. unfold skipped_by_cache in Hskip.
    apply andb_prop in Hskip as [_ Hhit]. by apply bool_decide_eq_true in Hhit.
  - destruct Hh as (r & _ & _ & -> & _). split_and!; [|by intros k Hk; rewrite lookup_insert_ne|by right].
    intros _. apply lookup_insert_eq.
  - destruct Hh as (_ & -> & _). split_and!; [done|done|by left].
Qed.

(** A region of the declarations is one of the regions listed. *)
Lemma elem_of_regions_from todo i k d (cls : @SegClass Fp Decl) seg :
  todo !! k = Some d → RegionAt (i + k) d = Some (cls, seg) →
  (cls, seg) ∈ regions_from decl_len parse_segment_type env config config_parent
                 options i todo.
Proof.
  revert i k. induction todo as [|d0 todo IH]; intros i k Hk Hreg; [done|].
  simpl. apply elem_of_app. destruct k as [|k]; simpl in Hk.
  - simplify_eq. rewrite Nat.add_0_r in Hreg. rewrite Hreg. left. by left.
  - right. apply (IH (S i) k); [done|].
    by replace (S i + k)%nat with (i + S k)%nat by lia.
Qed.

End LoopCache.

(** ** A second run on the cache of a first one *)
Section Rerun.
Context {Fp : Type} `{!EqDecision Fp} {Decl : Type}.
Variable decl_len : Decl → nat.
Variable parse_segment_type : Decl → string.
Variable env : @Env Fp Decl.
Variable rom_bytes : list Byte.byte.
Variable config : @Config Decl.
Variable config_parent : string.
Variable options : Options.
Variable c_funcs : CFuncs.
Variable c_vars : gmap Z string.
Variable ignore_cache : bool.

Local Abbreviation Loop1 := (loop decl_len parse_segment_type env rom_bytes config
                       config_parent options c_funcs c_vars ignore_cache).
Local Abbreviation Loop2 := (loop decl_len parse_segment_type env rom_bytes config
                       config_parent options c_funcs c_vars false).
Local Abbreviation RegionAt := (region_at decl_len parse_segment_type env config
                                 config_parent options).
Local Abbreviation RegionsFrom :=
  (regions_from decl_len parse_segment_type env config config_parent options).

(** A loop that completes leaves in the cache the fingerprint of every
    region that should run. *)
Lemma loop_stores_fingerprints todo i st st' :
  fingerprints_agree (snd <$> RegionsFrom i todo) →
  Loop1 i todo st = (st', None) →
  ∀ k d cls seg, todo !! k = Some d → RegionAt (i + k) d = Some (cls, seg) →
    Seg.should_run seg = true →
    cache st' !! Seg.unique_id seg = Some (Seg.cache seg).
Proof.
  intros Hagree Hl.
  assert (∀ k d cls seg, todo !! k = Some d →
            RegionAt (i + k) d = Some (cls, seg) →
            seg ∈ snd <$> RegionsFrom i todo) as Hin.
  { intros k d cls seg Hk Hreg. apply list_elem_of_fmap. exists (cls, seg).
    split; [done|]. by eapply elem_of_regions_from. }
  pose proof (loop_done_inv decl_len parse_segment_type env rom_bytes config
                config_parent options c_funcs c_vars ignore_cache
     (λ n s, ∀ k d cls seg, (i + k < n)%nat → todo !! k = Some d →
        RegionAt (i + k) d = Some (cls, seg) → Seg.should_run seg = true →
        cache s !! Seg.unique_id seg = Some (Seg.cache seg))
     todo i st st') as H.
  simpl in H. intros k d cls seg Hk Hreg Hrun.
  apply (H) with (k := k) (d := d) (cls := cls); try done.
  - clear k d cls seg Hk Hreg Hrun.
    intros k0 d0 s s' Hk0 HP Hb k d cls seg Hlt Hk Hreg Hrun.
    destruct (RegionAt (i + k0) d0) as [[cls0 seg0]|] eqn:Hreg0.
    + rewrite (body_at_region _ _ _ _ _ _ _ _ _ _ _ _ _ _ _ Hreg0) in Hb.
      apply handle_done_cache in Hb as (Hb1 & Hb2 & Hb3).
      destruct (decide (k = k0)) as [->|Hne].
      * simplify_eq. by apply Hb1.
      * assert (cache s !! Seg.unique_id seg = Some (Seg.cache seg)) as Hs.
        { apply (HP k d cls seg); try done. lia. }
        destruct (decide (Seg.unique_id seg = Seg.unique_id seg0)) as [Hu|Hu].
        -- destruct Hb3 as [->|[Hrun0 ->]]; [done|].
           rewrite Hu, lookup_insert_eq. f_equal.
           apply Hagree; eauto.
        -- rewrite Hb2 by done. done.
    + apply (body_at_no_region _ _ _ _ _ _ _ _ _ _ _ _ _ _ _ Hreg0) in Hb
        as [(_ & -> & _)|(_ & lg & f & _ & ? & _)]; [|done].
      destruct (decide (k = k0)) as [->|Hne]; [by simplify_eq|].
      apply (HP k d cls seg); try done. lia.
  - intros k0 d0 cls0 seg0 Hlt. lia.
  - apply lookup_lt_Some in Hk. lia.
Qed.

(** The iteration of a second run at a region that the first run got
    past, with the same names seen and the same sizes counted, on a cache
    that holds the fingerprint of the region: nothing is extracted. *)
Lemma handle_again i (cls : @SegClass Fp Decl) seg st1 st1' st2 :
  handle rom_bytes c_funcs c_vars ignore_cache i cls seg st1 = (st1', None) →
  seen_segment_names st2 = seen_segment_names st1 →
  seg_sizes st2 = seg_sizes st1 → counters_aligned st2 →
  (Seg.should_run seg = true →
   cache st2 !! Seg.unique_id seg = Some (Seg.cache seg)) →
  ∃ st2',
    handle rom_bytes c_funcs c_vars false i cls seg st2 = (st2', None)
    ∧ seen_segment_names st2' = seen_segment_names st1'
    ∧ seg_sizes st2' = seg_sizes st1' ∧ counters_aligned st2'
    ∧ cache st2' = cache st2 ∧ ran_segments st2' = ran_segments st2
    ∧ defined_funcs st2' = defined_funcs st2
    ∧ undefined_funcs st2' = undefined_funcs st2
    ∧ undefined_syms st2' = undefined_syms st2
    ∧ ld_sections st2'
      = ld_sections st2
        ++ (if Seg.should_run seg then [] else [Seg.get_ld_section seg])
    ∧ ∃ c, calls st2' = calls st2 ++ c ∧ Forall (λ x, x.2 ≠ MSplit) c.
Proof.
  intros H1 Hseen Hsizes Ha Hhit.
  pose proof (handle_seen _ _ _ _ _ _ _ _ _ H1) as Hs1.
  pose proof (handle_sizes_exact _ _ _ _ _ _ _ _ _ H1) as Hz1.
  pose proof (handle_done _ _ _ _ _ _ _ _ _ H1) as (Hcheck & _).
  assert (Seg.should_run seg = true → skipped_by_cache false seg st2 = true)
    as Hskip.
  { intros Hrun. unfold skipped_by_cache. rewrite Hrun. simpl.
    apply bool_decide_eq_true. by apply Hhit. }
  destruct (handle rom_bytes c_funcs c_vars false i cls seg st2)
    as [st2' [f|]] eqn:H2.
  { apply handle_fail in H2 as (_ & _ & _ & _ & _ & H2); [|done].
    destruct H2 as [(_ & Hreq & Hin & _)|[(Hc & _)|(_ & Hrun & Hns & _)]].
    - rewrite Hreq in Hs1. destruct Hs1 as [Hnot _]. by rewrite Hseen in Hin.
    - congruence.
    - rewrite (Hskip Hrun) in Hns. done. }
  exists st2'. split; [done|].
  pose proof (handle_seen _ _ _ _ _ _ _ _ _ H2) as Hs2.
  pose proof (handle_sizes_exact _ _ _ _ _ _ _ _ _ H2) as Hz2.
  pose proof (handle_aligned _ _ _ _ _ _ _ _ _ _ Ha H2) as Ha2.
  apply handle_done in H2 as (_ & _ & H2).
  split_and!; [| |done|..].
  - destruct (require_unique_name cls).
    + destruct Hs1 as [_ ->]. destruct Hs2 as [_ ->]. by rewrite Hseen.
    + by rewrite Hs1, Hs2.
  - by rewrite Hz1, Hz2, Hsizes.
  - destruct (Seg.should_run seg); [rewrite Hskip in H2 by done|]; tauto.
  - destruct (Seg.should_run seg); [rewrite Hskip in H2 by done|]; tauto.
  - destruct (Seg.should_run seg); [rewrite Hskip in H2 by done|]; tauto.
  - destruct (Seg.should_run seg); [rewrite Hskip in H2 by done|]; tauto.
  - destruct (Seg.should_run seg); [rewrite Hskip in H2 by done|]; tauto.
  - destruct (Seg.should_run seg); [rewrite Hskip in H2 by done|].
    + destruct H2 as (_ & _ & -> & _). by rewrite app_nil_r.
    + tauto.
  - destruct (Seg.should_run seg); [rewrite Hskip in H2 by done|].
    + destruct H2 as (_ & _ & _ & _ & _ & _ & ->). eexists. split; [done|].
      by repeat constructor.
    + destruct H2 as (_ & _ & _ & _ & _ & _ & ->). eexists. split; [done|].
      by repeat constructor.
Qed.

(** The loop of a second run, next to the loop of a first run that
    completed. *)
Lemma loop_again todo i st1 st1' st2 :
  Loop1 i todo st1 = (st1', None) →
  seen_segment_names st2 = seen_segment_names st1 →
  seg_sizes st2 = seg_sizes st1 → counters_aligned st2 →
  (∀ k d cls seg, todo !! k = Some d → RegionAt (i + k) d = Some (cls, seg) →
     Seg.should_run seg = true →
     cache st2 !! Seg.unique_id seg = Some (Seg.cache seg)) →
  ∃ st2',
    Loop2 i todo st2 = (st2', None)
    ∧ seg_sizes st2' = seg_sizes st1'
    ∧ cache st2' = cache st2 ∧ ran_segments st2' = ran_segments st2
    ∧ defined_funcs st2' = defined_funcs st2
    ∧ undefined_funcs st2' = undefined_funcs st2
    ∧ undefined_syms st2' = undefined_syms st2
    ∧ ld_sections st2'
      = ld_sections st2
        ++ (Seg.get_ld_section
              <$> filter (λ s, Seg.should_run s = false)
                         (snd <$> RegionsFrom i todo))
    ∧ ∃ c, calls st2' = calls st2 ++ c ∧ Forall (λ x, x.2 ≠ MSplit) c.
Proof.
  revert i st1 st2. induction todo as [|d todo IH];
    intros i st1 st2 Hl Hseen Hsizes Ha Hhit; simpl in Hl |- *.
  - simplify_eq. exists st2. rewrite app_nil_r. split_and!; try done.
    exists []. by rewrite app_nil_r.
  - destruct (body decl_len parse_segment_type env rom_bytes config
                config_parent options c_funcs c_vars ignore_cache i d st1)
      as [st1a [f|]] eqn:Hb1; [done|].
    assert (∀ k d0 cls seg, todo !! k = Some d0 →
              RegionAt (S i + k) d0 = Some (cls, seg) →
              Seg.should_run seg = true →
              cache st2 !! Seg.unique_id seg = Some (Seg.cache seg)) as Hhit'.
    { intros k d0 cls seg Hk Hreg. apply (Hhit (S k) d0 cls seg); [done|].
      by replace (i + S k)%nat with (S i + k)%nat by lia. }
    destruct (RegionAt i d) as [[cls seg]|] eqn:Hreg.
    + rewrite (body_at_region _ _ _ _ _ _ _ _ _ _ _ _ _ _ _ Hreg) in Hb1.
      rewrite (body_at_region _ _ _ _ _ _ _ _ _ _ _ _ _ _ _ Hreg).
      destruct (handle_again i cls seg st1 st1a st2 Hb1 Hseen Hsizes Ha)
        as (st2a & -> & Hseen' & Hsizes' & Ha' & Hc & Hr & Hd & Hu & Hs
            & Hld & (c & Hcalls & Fc)).
      { apply (Hhit 0%nat d cls seg); [done|]. by rewrite Nat.add_0_r. }
      destruct (IH (S i) st1a st2a Hl Hseen' Hsizes' Ha')
        as (st2' & -> & Hz & Hc' & Hr' & Hd' & Hu' & Hs' & Hld'
            & (c' & Hcalls' & Fc')).
      { intros k d0 cls0 seg0 Hk Hreg0 Hrun0. rewrite Hc. by eapply Hhit'. }
      exists st2'. split_and!; try congruence.
      * rewrite Hld', Hld, <- app_assoc. f_equal. simpl.
        rewrite filter_cons. by destruct (Seg.should_run seg).
      * exists (c ++ c'). rewrite Hcalls', Hcalls, app_assoc. split; [done|].
        by apply Forall_app.
    + apply (body_at_no_region _ _ _ _ _ _ _ _ _ _ _ _ _ _ _ Hreg) in Hb1
        as [(Hlen & -> & _)|(_ & lg & f & _ & ? & _)]; [|done].
      rewrite body_sentinel by done. simpl.
      by apply (IH (S i) st1 st2).
Qed.

End Rerun.

(** ** The order of the loop *)
Section LoopOrder.
Context {Fp : Type} `{!EqDecision Fp} {Decl : Type}.
Variable decl_len : Decl → nat.
Variable parse_segment_type : Decl → string.
Variable env : @Env Fp Decl.
Variable rom_bytes : list Byte.byte.
Variable config : @Config Decl.
Variable config_parent : string.
Variable options : Options.
Variable c_funcs : CFuncs.
Variable c_vars : gmap Z string.
Variable ignore_cache : bool.

Local Abbreviation Body := (body decl_len parse_segment_type env rom_bytes config
                       config_parent options c_funcs c_vars ignore_cache).
Local Abbreviation Loop := (loop decl_len parse_segment_type env rom_bytes config
                       config_parent options c_funcs c_vars ignore_cache).
Local Abbreviation RegionAt := (region_at decl_len parse_segment_type env config
                                 config_parent options).
Local Abbreviation Handle := (handle rom_bytes c_funcs c_vars ignore_cache).

(** The cache after the iterations that completed: the loaded cache,
    and over it the fingerprints of the segments that ran, the last one
    of an identity winning. *)
Lemma loop_done_cache_entries todo i st st' :
  Loop i todo st = (st', None) →
  ran_segments st = [] →
  ∀ k, cache st' !! k
       = match last (filter (λ x, Seg.unique_id x.1.2 = k) (ran_segments st')) with
         | Some x => Some (Seg.cache x.1.2)
         | None => cache st !! k
         end.
Proof.
  intros Hl Hran.
  apply (loop_done_inv decl_len parse_segment_type env rom_bytes config
           config_parent options c_funcs c_vars ignore_cache
           (λ _ s, ∀ k, cache s !! k
              = match last (filter (λ x, Seg.unique_id x.1.2 = k)
                                   (ran_segments s)) with
                | Some x => Some (Seg.cache x.1.2)
                | None => cache st !! k
                end) todo i st st'); [| |done].
  - intros n d s s' _ HP Hb k.
    destruct (RegionAt (i + n) d) as [[cls seg]|] eqn:Hreg.
    + rewrite (body_at_region _ _ _ _ _ _ _ _ _ _ _ _ _ _ _ Hreg) in Hb.
      apply handle_done in Hb as (_ & _ & Hb).
      destruct (Seg.should_run seg);
        [destruct (skipped_by_cache ignore_cache seg s)|].
      * destruct Hb as (-> & -> & _). apply HP.
      * destruct Hb as (r & _ & -> & -> & _). rewrite filter_app.
        destruct (decide (Seg.unique_id seg = k)) as [<-|Hne].
        -- rewrite filter_cons_True, filter_nil by done.
           by rewrite last_snoc, lookup_insert_eq.
        -- rewrite filter_cons_False, filter_nil by done.
           rewrite app_nil_r, lookup_insert_ne by done. apply HP.
      * destruct Hb as (-> & -> & _). apply HP.
    + apply (body_at_no_region _ _ _ _ _ _ _ _ _ _ _ _ _ _ _ Hreg) in Hb
        as [(_ & -> & _)|(_ & lg & f & _ & ? & _)]; [|done]. apply HP.
  - intros k. by rewrite Hran.
Qed.

(** With the cache ignored, a loop that completes collects the section
    of every region and extracts every region that should run, in
    declaration order. *)
Lemma loop_done_all todo i st st' :
  ignore_cache = true → Loop i todo st = (st', None) →
  ld_sections st'
  = ld_sections st
    ++ (Seg.get_ld_section
          <$> (regions_from decl_len parse_segment_type env config
                 config_parent options i todo).*2)
  ∧ (ran_segments st').*1.*2
    = (ran_segments st).*1.*2
      ++ filter (λ s, Seg.should_run s = true)
           (regions_from decl_len parse_segment_type env config
              config_parent options i todo).*2.
Proof.
  intros Hign. revert i st. induction todo as [|d todo IH]; intros i st Hl;
    simpl in Hl |- *.
  - simplify_eq. by rewrite !app_nil_r.
  - destruct (Body i d st) as [st1 [f|]] eqn:Hb; [done|].
    destruct (IH _ _ Hl) as [-> ->].
    destruct (RegionAt i d) as [[cls seg]|] eqn:Hreg; simpl.
    + rewrite (body_at_region _ _ _ _ _ _ _ _ _ _ _ _ _ _ _ Hreg) in Hb.
      apply handle_done in Hb as (_ & _ & Hb).
      unfold skipped_by_cache in Hb. rewrite Hign in Hb.
      rewrite filter_cons.
      destruct (Seg.should_run seg); simpl in Hb |- *.
      * destruct Hb as (r & _ & -> & _ & -> & _).
        rewrite !fmap_app, <- !app_assoc. done.
      * destruct Hb as (-> & _ & -> & _). by rewrite <- !app_assoc.
    + by apply (body_at_no_region _ _ _ _ _ _ _ _ _ _ _ _ _ _ _ Hreg) in Hb
        as [(_ & -> & _)|(_ & lg & f & _ & ? & _)].
Qed.

End LoopOrder.

(** ** More on a run of [main] *)
Section MoreRunFacts.
Context {Fp : Type} `{!EqDecision Fp} {Decl : Type}.
Variable decl_len : Decl → nat.
Variable parse_segment_type : Decl → string.
Variable env : @Env Fp Decl.
Variable rom_bytes : list Byte.byte.
Variable config : @Config Decl.
Variable config_parent : string.
Variable symbol_addrs : list SymLine.
Variable undefined_syms_txt : list (string * Z).
Variable modes : Modes.
Variable verbose : bool.
Variable ignore_cache : bool.
Variable fs : gmap string (File Fp).

Local Abbreviation Opts := (run_options config modes verbose).
Local Abbreviation CFuncsOf := (gather_c_funcs symbol_addrs).
Local Abbreviation CVars := (gather_c_variables undefined_syms_txt).
Local Abbreviation Body :=
  (body decl_len parse_segment_type env rom_bytes config config_parent Opts
        CFuncsOf CVars ignore_cache).
Local Abbreviation Loop :=
  (loop decl_len parse_segment_type env rom_bytes config config_parent Opts
        CFuncsOf CVars ignore_cache).
Local Abbreviation RegionAt :=
  (region_at decl_len parse_segment_type env config config_parent Opts).
Local Abbreviation Regions :=
  (regions decl_len parse_segment_type env config config_parent Opts).
Local Abbreviation TheRun :=
  (main decl_len parse_segment_type env rom_bytes config config_parent
        symbol_addrs undefined_syms_txt modes verbose ignore_cache fs).
Local Abbreviation Tree0 := {| files := fs; opened := [] |}.

(** The second pass changes nothing but the trace of calls. *)
Lemma postsplit_all_counters ran (st st' : @Locals Fp) r :
  postsplit_all ran st = (st', r) →
  seg_split st' = seg_split st ∧ seg_cached st' = seg_cached st.
Proof.
  revert st. induction ran as [|[[j seg] res] ran IH]; intros st Hp; simpl in Hp.
  - by simplify_eq.
  - destruct (Seg.postsplit seg) as [f|]; [by simplify_eq|].
    by apply IH in Hp as [-> ->].
Qed.

Lemma initial_counters :
  counters_aligned (initial fs) ∧ split_counted (initial fs)
  ∧ cached_counted (initial fs).
Proof.
  split_and!; [done| |done]. split.
  - by intros j seg r Hin%elem_of_nil.
  - intros tp n. simpl. by rewrite lookup_empty.
Qed.

(** The statistics of a run are those the loop left; the calls of the
    second pass are added to the trace. *)
Lemma main_counters :
  ∃ st r c,
    Loop 0%nat (segments config) (initial fs) = (st, r)
    ∧ ran_segments (locals TheRun) = ran_segments st
    ∧ seg_sizes (locals TheRun) = seg_sizes st
    ∧ seg_split (locals TheRun) = seg_split st
    ∧ seg_cached (locals TheRun) = seg_cached st
    ∧ calls (locals TheRun) = calls st ++ c
    ∧ Forall (λ x, x.2 = MPostsplit) c.
Proof.
  destruct (main_cases decl_len parse_segment_type env rom_bytes config
              config_parent symbol_addrs undefined_syms_txt modes verbose
              ignore_cache fs)
    as [(st & f & Hl & ->)|[(st & st' & f & Hl & Hp & ->)
                           |(st & st' & Hl & Hp & ->)]].
  - exists st, (Some f), []. simpl. rewrite app_nil_r. by split_and!.
  - pose proof (postsplit_all_counters _ _ _ _ Hp) as [? ?].
    apply postsplit_all_spec in Hp
      as (? & ? & ? & ? & ? & ? & ? & ? & ? & c & ? & Hc).
    exists st, None, c. simpl. split_and!; try done.
    eapply Forall_impl; [exact Hc|]. by intros x [? _].
  - pose proof (postsplit_all_counters _ _ _ _ Hp) as [? ?].
    apply postsplit_all_spec in Hp
      as (? & ? & ? & ? & ? & ? & ? & ? & ? & c & ? & Hc).
    exists st, None, c. rewrite finish_locals. split_and!; try done.
    eapply Forall_impl; [exact Hc|]. by intros x [? _].
Qed.

Lemma count_calls_postsplit m c :
  m ≠ MPostsplit → Forall (λ x : nat * Method, x.2 = MPostsplit) c →
  count_calls m c = 0%nat.
Proof.
  intros Hm Hc. unfold count_calls. induction Hc as [|x c Hx Hc IH]; [done|].
  rewrite filter_cons, decide_False by congruence. done.
Qed.

(** X1. In every run, however it ends, the three statistics dictionaries
    of [main] have the same keys, and the bucket of every segment that
    ran is one of them: the updates [seg_split[tp] += 1] and
    [seg_cached[tp] += 1], and the report that reads [seg_split[tp]] and
    [seg_cached[tp]] for the keys of [seg_sizes], find their key. *)
Theorem counters_share_keys :
  dom (seg_split (locals TheRun)) = dom (seg_sizes (locals TheRun))
  ∧ dom (seg_cached (locals TheRun)) = dom (seg_sizes (locals TheRun))
  ∧ (∀ j seg r, (j, seg, r) ∈ ran_segments (locals TheRun) →
       bucket seg ∈ dom (seg_sizes (locals TheRun)))
  ∧ (∀ tp, tp ∈ dom (seg_sizes (locals TheRun)) →
       is_Some (dict_iadd tp 1 (seg_split (locals TheRun)))
       ∧ is_Some (dict_iadd tp 1 (seg_cached (locals TheRun)))).
Proof.
  destruct main_counters as (st & r & c & Hl & -> & -> & -> & -> & _).
  destruct initial_counters as (Ha & Hs & Hc).
  destruct (loop_counters _ _ _ _ _ _ _ _ _ _ _ _ _ _ _ Ha Hs Hc Hl)
    as ([H1 H2] & [H3 _] & _).
  split_and!; try done.
  intros tp Htp. split.
  - destruct (dict_iadd_Some tp 1 (seg_split st)) as [d ->]; [by rewrite H1|eauto].
  - destruct (dict_iadd_Some tp 1 (seg_cached st)) as [d ->]; [by rewrite H2|eauto].
Qed.

(** X2. In every run, however it ends, [seg_split[tp]] is the number of
    segments of bucket [tp] among the segments that ran, and the values
    of [seg_cached] add up to the number of segments found in the cache:
    those whose fingerprint was taken without a call of [split]. *)
Theorem counters_count_segments :
  (∀ tp n, seg_split (locals TheRun) !! tp = Some n →
     n = Z.of_nat (count_ran tp (ran_segments (locals TheRun))))
  ∧ sum_values (seg_cached (locals TheRun))
    = Z.of_nat (count_calls MCache (calls (locals TheRun)))
      - Z.of_nat (count_calls MSplit (calls (locals TheRun))).
Proof.
  destruct main_counters as (st & r & c & Hl & -> & _ & -> & -> & -> & Fc).
  destruct initial_counters as (Ha & Hs & Hc).
  destruct (loop_counters _ _ _ _ _ _ _ _ _ _ _ _ _ _ _ Ha Hs Hc Hl)
    as (_ & [_ H3] & H4).
  split; [done|].
  rewrite !count_calls_app, !(count_calls_postsplit _ c) by done.
  rewrite !Nat.add_0_r. exact H4.
Qed.

Local Abbreviation RanInv :=
  (ran_inv decl_len parse_segment_type env rom_bytes config config_parent Opts
           CFuncsOf CVars).

Lemma initial_ran_inv : RanInv 0 (initial fs).
Proof.
  unfold ran_inv. simpl. split_and!; [constructor|constructor|done|done|done|].
  by intros j seg r Hin%elem_of_nil.
Qed.

(** The invariants of the loop hold of the locals of a run, however it
    ends. *)
Lemma main_ran_inv :
  counters_aligned (locals TheRun)
  ∧ RanInv (length (segments config)) (locals TheRun).
Proof.
  destruct main_counters as (st & r & c & Hl & Hran & Hsz & Hsp & Hca & _).
  destruct (main_locals decl_len parse_segment_type env rom_bytes config
              config_parent symbol_addrs undefined_syms_txt modes verbose
              ignore_cache fs)
    as (st0 & r0 & c0 & Hl0 & _ & _ & Hd & Hu & Hs & _).
  rewrite Hl in Hl0. simplify_eq.
  destruct initial_counters as (Ha & _).
  destruct (loop_ran_inv decl_len parse_segment_type env rom_bytes config
              config_parent Opts CFuncsOf CVars ignore_cache
              (segments config) (initial fs) st0 r0)
    as [Ha' Hi']; [done|done|apply initial_ran_inv|done|].
  split.
  - unfold counters_aligned in *. by rewrite Hsz, Hsp, Hca.
  - eapply ran_inv_frame; [exact Hran|exact Hd|exact Hu|exact Hs|exact Hi'].
Qed.

(** X3. In every run, however it ends, the three symbol sets of [main]
    are exactly the unions of the attributes that [split] left on the
    code segments that ran: a segment that is not a code segment, or
    that did not run, adds nothing to them. *)
Theorem symbol_sets_of_code_segments :
  defined_funcs (locals TheRun)
  = symbols_of glabels_added (ran_segments (locals TheRun))
  ∧ undefined_funcs (locals TheRun)
    = symbols_of glabels_to_add (ran_segments (locals TheRun))
  ∧ undefined_syms (locals TheRun)
    = symbols_of undefined_syms_to_add (ran_segments (locals TheRun)).
Proof. by destruct main_ran_inv as (_ & _ & _ & ? & ? & ? & _). Qed.

(** X4. Every element of [ran_segments] is the segment object of its
    declaration, a segment that should run, and its [split] was called
    with [all_functions] holding exactly the names defined by the code
    segments that ran before it in declaration order: the definitions of
    later segments are not visible to it. *)
Theorem split_sees_earlier_definitions i seg r :
  (i, seg, r) ∈ ran_segments (locals TheRun) →
  (∃ d cls, segments config !! i = Some d ∧ RegionAt i d = Some (cls, seg))
  ∧ Seg.should_run seg = true
  ∧ ∃ s : @Locals Fp,
      defined_funcs s
      = symbols_of glabels_added (ran_before i (ran_segments (locals TheRun)))
      ∧ Seg.split seg rom_bytes (code_context CFuncsOf CVars seg s) = inr r.
Proof.
  intros Hin. destruct main_ran_inv as (_ & _ & _ & _ & _ & _ & H).
  exact (H i seg r Hin).
Qed.

Lemma postsplit_all_calls ran (st st' : @Locals Fp) r :
  postsplit_all ran st = (st', r) →
  ∃ n, calls st' = calls st ++ ((λ x, (x.1.1, MPostsplit)) <$> take n ran)
       ∧ (r = None → n = length ran)
       ∧ (∀ f, r = Some f →
            ∃ x, ran !! (n - 1)%nat = Some x ∧ (0 < n)%nat
                 ∧ Seg.postsplit x.1.2 = Some f).
Proof.
  revert st. induction ran as [|[[j seg] res] ran IH]; intros st Hp; simpl in Hp.
  - simplify_eq. exists 0%nat. simpl. rewrite app_nil_r. by split_and!.
  - destruct (Seg.postsplit seg) as [f|] eqn:Hps.
    + simplify_eq. exists 1%nat. simpl. split_and!; try done.
      intros f' [= <-]. exists (j, seg, res). split_and!; [done|lia|done].
    + apply IH in Hp as (n & Hc & Hn & Hf). exists (S n). simpl in *.
      rewrite Hc, <- app_assoc. split_and!; [done|by intros ->%Hn|].
      intros f Hr. destruct (Hf f Hr) as (x & Hx & Hpos & Hps').
      exists x. split_and!; [|lia|done].
      rewrite Nat.sub_0_r. destruct n; [lia|]. simpl in Hx.
      by rewrite Nat.sub_0_r in Hx.
Qed.

(** X5. The segments that ran are kept in declaration order, each
    declaration at most once, and the second pass calls [postsplit] on
    them in that order, after every call of the loop: in a run that gets
    past the second pass, once on each of them and on nothing else. *)
Theorem second_pass_in_declaration_order st st' :
  Loop 0%nat (segments config) (initial fs) = (st, None) →
  StronglySorted (λ a b, (a.1.1 < b.1.1)%nat) (ran_segments st)
  ∧ (postsplit_all (ran_segments st) st = (st', None) →
     calls (locals TheRun)
     = calls st ++ ((λ x, (x.1.1, MPostsplit)) <$> ran_segments st)
     ∧ Forall (λ c, c.2 ≠ MPostsplit) (calls st)).
Proof.
  intros Hl.
  destruct initial_counters as (Ha & _).
  destruct (loop_ran_inv decl_len parse_segment_type env rom_bytes config
              config_parent Opts CFuncsOf CVars ignore_cache
              (segments config) (initial fs) st None)
    as [_ (_ & Hsorted & _)]; [done|done|apply initial_ran_inv|done|].
  split; [done|]. intros Hp.
  assert (calls st' = calls (locals TheRun)) as <-.
  { unfold main. rewrite Hl, Hp. by rewrite finish_locals. }
  destruct (postsplit_all_calls _ _ _ _ Hp) as (n & Hc & Hn & _).
  rewrite Hc, (Hn eq_refl), firstn_all. split; [done|].
  eapply loop_calls_no_postsplit; [|exact Hl]. constructor.
Qed.

(** The sizes counted are the lengths of the regions. *)
Lemma main_sizes st :
  Loop 0%nat (segments config) (initial fs) = (st, None) →
  unk_size (locals TheRun) + rest_size (locals TheRun) = total_length Regions.
Proof.
  intros Hl.
  destruct main_counters as (st0 & r & c & Hl' & _ & Hsz & _).
  rewrite Hl in Hl'. simplify_eq.
  unfold unk_size, rest_size. rewrite Hsz, unk_plus_rest.
  rewrite (loop_sizes _ _ _ _ _ _ _ _ _ _ _ _ _ _ Hl). simpl.
  unfold sum_values. rewrite map_fold_empty. unfold regions. lia.
Qed.

(** X7. In a run whose loop completes, the statistics step depends on
    the configuration and on the size of the binary alone: its assertion
    fails exactly when the lengths of the regions do not add up to the
    size of the binary (whether or not the regions are laid end to end),
    and with lengths that add up the divisions raise
    [ZeroDivisionError] exactly when the binary is empty. When no
    region has a negative length, the step passes exactly when the
    lengths add up and the binary is not empty: every size that is
    divided then lies between 0 and the size of the binary. *)
Theorem statistics_by_region_lengths st :
  Loop 0%nat (segments config) (initial fs) = (st, None) →
  (statistics rom_bytes (locals TheRun) = Some (Raise "AssertionError")
   ↔ total_length Regions ≠ total_size rom_bytes)
  ∧ (statistics rom_bytes (locals TheRun) = Some (Raise "ZeroDivisionError")
     ↔ total_length Regions = total_size rom_bytes ∧ rom_bytes = [])
  ∧ (Forall (λ s, 0 ≤ Seg.rom_length s) Regions →
     (statistics rom_bytes (locals TheRun) = None
      ↔ total_length Regions = total_size rom_bytes ∧ rom_bytes ≠ [])).
Proof.
  intros Hl. pose proof (main_sizes st Hl) as Hsum.
  assert (total_size rom_bytes = 0 ↔ rom_bytes = []) as Hnil.
  { unfold total_size. destruct rom_bytes; simpl; split; (done || lia). }
  unfold statistics. rewrite Hsum.
  repeat case_decide; split_and!; try intros _; split; try done; try tauto.
  all: intros [? ?]; tauto.
Qed.

(** X8. A run on an empty binary never completes: when nothing stops it
    earlier, the statistics step raises, on its assertion or on the
    division by the size of the binary. The cache file is then left as
    it was, whatever was extracted. *)
Theorem empty_binary_never_completes :
  rom_bytes = [] →
  outcome TheRun ≠ None
  ∧ (cache_path ∉ opened (tree TheRun))
  ∧ files (tree TheRun) !! cache_path = fs !! cache_path.
Proof.
  intros Hrom.
  destruct (main_cases decl_len parse_segment_type env rom_bytes config
              config_parent symbol_addrs undefined_syms_txt modes verbose
              ignore_cache fs)
    as [(st & f0 & Hl & ->)|[(st & st' & f0 & Hl & Hp & ->)
                            |(st & st' & Hl & Hp & ->)]]; simpl.
  1,2: split_and!; [done|apply not_elem_of_nil|done].
  pose proof (ldscript_path_ne_cache (basename config)).
  pose proof funcs_path_ne_cache. pose proof syms_path_ne_cache.
  unfold finish, write_auto, write_ld, statistics, write_file.
  rewrite Hrom. simpl.
  repeat (case_match; simplify_eq/=).
  all: split_and!; [done| |].
  all: rewrite ?elem_of_app, ?elem_of_cons, ?elem_of_nil;
       rewrite ?lookup_insert_ne by congruence; try done;
       try (intuition congruence).
Qed.



Local Abbreviation Rerun :=
  (main decl_len parse_segment_type env rom_bytes config config_parent
        symbol_addrs undefined_syms_txt modes verbose false
        (files (tree TheRun))).

(** A run that completes has passed the statistics step. *)
Lemma finish_completes (st : @Locals Fp) t :
  outcome (finish rom_bytes config Opts CFuncsOf st t) = None →
  statistics rom_bytes st = None.
Proof. unfold finish. by repeat (case_match; simplify_eq/=). Qed.

(** The end of a run that extracted nothing and passes the statistics
    step. *)
Lemma finish_nothing_unresolved (st : @Locals Fp) t :
  undefined_funcs st = ∅ → undefined_syms st = ∅ →
  statistics rom_bytes st = None →
  outcome (finish rom_bytes config Opts CFuncsOf st t) = None.
Proof.
  intros Hu Hs Hstat. unfold finish, unresolved_funcs.
  rewrite Hu, Hs, Hstat.
  replace (filter (λ n, KStr n ∉ c_predefined_funcs CFuncsOf)
                  (∅ ∖ defined_funcs st)) with (∅ : gset string); [done|].
  symmetry. apply set_eq. intros n.
  rewrite elem_of_filter, elem_of_difference, elem_of_empty. tauto.
Qed.

(** The cache that a second run loads is the cache that the first run
    ended with. *)
Lemma load_cache_after_run :
  outcome TheRun = None →
  load_cache (files (tree TheRun)) = cache (locals TheRun).
Proof.
  intros Hout.
  destruct (main_cases decl_len parse_segment_type env rom_bytes config
              config_parent symbol_addrs undefined_syms_txt modes verbose
              ignore_cache fs)
    as [(st & f0 & Hl & Hrun)|[(st & st' & f0 & Hl & Hp & Hrun)
                            |(st & st' & Hl & Hp & Hrun)]];
    rewrite Hrun in Hout |- *; [done..|].
  rewrite finish_locals.
  destruct (finish_cache_opened _ _ _ _ _ _ Hout) as (_ & H2 & H3).
  unfold load_cache at 1.
  destruct (decide (cache st' = ∅)) as [He|Hne].
  - rewrite (H3 He), He.
    apply postsplit_all_spec in Hp as (_ & _ & _ & _ & _ & _ & _ & Hc & _).
    rewrite Hc in He.
    apply loop_grows in Hl as [_ _ _ _ _ _ _ _ Hdom]. simpl in Hdom.
    rewrite He, dom_empty_L in Hdom.
    assert (load_cache fs = ∅) as Hload.
    { apply dom_empty_iff_L. apply set_eq. intros k.
      rewrite elem_of_empty. split; [|done]. intros Hk. by apply Hdom in Hk. }
    unfold load_cache in Hload. exact Hload.
  - by rewrite (H2 Hne).
Qed.

(** X11. Running [main] again on the output tree of a run that
    completed, with the cache not ignored and everything else the same,
    extracts nothing and completes, when the regions that share an
    identity share their fingerprint: no [split] is called, the cache is
    unchanged, and the sections collected are those of the regions that
    should not run alone, so that the linker script, when the modes ask
    for it, is rewritten without the sections of the regions found in
    the cache. *)
Theorem rerun_extracts_nothing :
  outcome TheRun = None → fingerprints_agree Regions →
  outcome Rerun = None
  ∧ ran_segments (locals Rerun) = []
  ∧ (∀ i, (i, MSplit) ∉ calls (locals Rerun))
  ∧ cache (locals Rerun) = cache (locals TheRun)
  ∧ ld_sections (locals Rerun)
    = Seg.get_ld_section <$> filter (λ s, Seg.should_run s = false) Regions
  ∧ (in_modes "ld" modes || in_modes "all" modes = true →
     files (tree Rerun) !! ldscript_path (basename config)
     = Some (Text (write_ldscript
                     (Seg.get_ld_section
                        <$> filter (λ s, Seg.should_run s = false) Regions)
                     (config_ld_bare config)))).
Proof.
  intros Hout Hagree.
  pose proof (load_cache_after_run Hout) as Hload.
  pose proof Hload as Hload0.
  destruct (main_cases decl_len parse_segment_type env rom_bytes config
              config_parent symbol_addrs undefined_syms_txt modes verbose
              ignore_cache fs)
    as [(st & f0 & Hl & Hrun)|[(st & st' & f0 & Hl & Hp & Hrun)
                            |(st & st' & Hl & Hp & Hrun)]];
    rewrite Hrun in Hout; [done..|].
  rewrite Hrun in Hload. rewrite finish_locals in Hload.
  pose proof (finish_completes _ _ Hout) as Hstat.
  pose proof (postsplit_all_spec _ _ _ _ Hp)
    as (_ & _ & _ & _ & _ & _ & Hsz & Hc & _).
  pose proof (loop_stores_fingerprints _ _ _ _ _ _ _ _ _ _ _ _ _ _ Hagree Hl)
    as Hhits.
  destruct (loop_again decl_len parse_segment_type env rom_bytes config
              config_parent Opts CFuncsOf CVars ignore_cache
              (segments config) 0%nat (initial fs) st
              (initial (files (tree TheRun))) Hl)
    as (st2 & Hl2 & Hz2 & Hc2 & Hr2 & Hd2 & Hu2 & Hs2 & Hld2 & (c & Hcalls & Fc));
    [done|done|done| |].
  { intros k d cls seg Hk Hreg Hr. simpl. rewrite Hrun, Hload, Hc.
    by eapply Hhits. }
  simpl in *.
  assert (Rerun = finish rom_bytes config Opts CFuncsOf st2
                         {| files := files (tree TheRun); opened := [] |})
    as HR.
  { unfold main at 1. rewrite Hl2, Hr2. done. }
  rewrite HR, finish_locals.
  split_and!.
  - apply finish_nothing_unresolved; [done|done|].
    unfold statistics, unk_size, rest_size in *. by rewrite Hz2, <- Hsz.
  - done.
  - intros i Hin. rewrite Hcalls in Hin.
    by apply (proj1 (Forall_forall _ _) Fc) in Hin.
  - by rewrite Hc2.
  - done.
  - intros Hm. unfold regions. rewrite <- Hld2.
    apply (finish_ld_file rom_bytes config Opts CFuncsOf st2). exact Hm.
Qed.

(** X12. The cache dictionary never loses an entry, and after a loop
    that completes it is the loaded cache overwritten by the
    fingerprints of the segments that ran: under an identity it holds
    the fingerprint of the last segment of that identity that ran, and
    the loaded entry when there is none (entries of regions that are no
    longer declared stay for ever). *)
Theorem cache_entries_after_loop :
  dom (load_cache fs) ⊆ dom (cache (locals TheRun))
  ∧ ∀ st, Loop 0%nat (segments config) (initial fs) = (st, None) →
      ∀ k, cache (locals TheRun) !! k
           = match last (filter (λ x, Seg.unique_id x.1.2 = k)
                                (ran_segments (locals TheRun))) with
             | Some x => Some (Seg.cache x.1.2)
             | None => load_cache fs !! k
             end.
Proof.
  destruct (main_locals decl_len parse_segment_type env rom_bytes config
              config_parent symbol_addrs undefined_syms_txt modes verbose
              ignore_cache fs)
    as (st & r & c & Hl & -> & _ & _ & _ & _ & _ & -> & _).
  split.
  - by apply loop_grows in Hl as [_ _ _ _ _ _ _ _ Hdom].
  - intros st0 Hl0 k. rewrite Hl in Hl0. simplify_eq.
    by rewrite (loop_done_cache_entries _ _ _ _ _ _ _ _ _ _ _ _ _ _ Hl eq_refl k).
Qed.

(** X13. With the cache ignored (what the command line asks for unless
    [--new] is given), a run whose loop completes collects the section
    of every region of the configuration, and extracts every region that
    should run, both in declaration order. *)
Theorem full_run_in_declaration_order st :
  ignore_cache = true →
  Loop 0%nat (segments config) (initial fs) = (st, None) →
  ld_sections (locals TheRun) = Seg.get_ld_section <$> Regions
  ∧ (ran_segments (locals TheRun)).*1.*2
    = filter (λ s, Seg.should_run s = true) Regions.
Proof.
  intros Hign Hl.
  destruct (main_locals decl_len parse_segment_type env rom_bytes config
              config_parent symbol_addrs undefined_syms_txt modes verbose
              ignore_cache fs)
    as (st0 & r & c & Hl0 & -> & -> & _).
  rewrite Hl in Hl0. injection Hl0 as <- <-.
  by destruct (loop_done_all _ _ _ _ _ _ _ _ _ _ _ _ _ _ Hign Hl) as [-> ->].
Qed.

Lemma elem_of_symbols_of get (ran : list (nat * Segment Fp * SplitResult)) n :
  n ∈ symbols_of get ran
  ↔ ∃ j seg r, (j, seg, r) ∈ ran ∧ Seg.is_N64SegCode seg = true ∧ n ∈ get r.
Proof.
  unfold symbols_of. rewrite elem_of_union_list. split.
  - intros (X & HX & Hn). apply list_elem_of_fmap in HX as ([[j seg] r] & -> & Hin).
    simpl in Hn. destruct (Seg.is_N64SegCode seg) eqn:Hc; [eauto 6|].
    by apply elem_of_empty in Hn.
  - intros (j & seg & r & Hin & Hc & Hn). exists (get r). split; [|done].
    apply list_elem_of_fmap. exists (j, seg, r). simpl. by rewrite Hc.
Qed.

Lemma write_lines_done fmt lines written text :
  write_lines fmt lines written = (text, None) →
  ∃ texts, Forall2 (λ l t, fmt l = Some t) lines texts
           ∧ text = written +:+ foldr String.append EmptyString texts.
Proof.
  revert written. induction lines as [|l lines IH]; intros written Hw;
    simpl in Hw.
  - simplify_eq. exists []. split; [constructor|]. by rewrite append_nil_r.
  - destruct (fmt l) as [t|] eqn:Hl; [|done].
    apply IH in Hw as (texts & Hf & ->). exists (t :: texts).
    split; [by constructor|]. simpl. by rewrite append_assoc.
Qed.

Lemma sym_lines names :
  Forall2 (λ l t, sym_line l = Some t) names
    ((λ sym, sym +:+ " = 0x" +:+ PyStr.drop 2 sym +:+ ";" +:+ PyStr.nl)
       <$> names).
Proof. induction names; constructor; done. Qed.

(** Decides whether a path is among the paths written. *)
Ltac tree_solver :=
  pose proof (ldscript_path_ne_funcs (basename config));
  pose proof (ldscript_path_ne_syms (basename config));
  pose proof (ldscript_path_ne_cache (basename config));
  pose proof funcs_path_ne_syms; pose proof funcs_path_ne_cache;
  pose proof syms_path_ne_cache;
  rewrite ?elem_of_app, ?elem_of_cons, ?elem_of_nil;
  rewrite ?lookup_insert_ne by congruence; rewrite ?lookup_insert_eq;
  try done; try (intuition congruence).

(** The two files of unresolved names at the end of a run that
    completes. *)
Lemma finish_auto_files (st : @Locals Fp) t :
  outcome (finish rom_bytes config Opts CFuncsOf st t) = None →
  (unresolved_funcs CFuncsOf st ≠ [] →
   ∃ texts,
     Forall2 (λ n t, func_line n = Some t) (unresolved_funcs CFuncsOf st) texts
     ∧ files (tree (finish rom_bytes config Opts CFuncsOf st t))
         !! undefined_funcs_auto_path
       = Some (Text (foldr String.append EmptyString texts)))
  ∧ (sorted (undefined_syms st) ≠ [] →
     files (tree (finish rom_bytes config Opts CFuncsOf st t))
       !! undefined_syms_auto_path
     = Some (Text (foldr String.append EmptyString
                     ((λ sym, sym +:+ " = 0x" +:+ PyStr.drop 2 sym +:+ ";"
                              +:+ PyStr.nl) <$> sorted (undefined_syms st))))).
Proof.
  rewrite <- !length_pos_not_nil. intros Hout.
  unfold finish, write_auto, write_ld, save_cache, write_file in Hout |- *.
  repeat (case_match; simplify_eq/=); split; try done.
  all: intros _.
  all: repeat match goal with
         | H : write_lines func_line _ _ = (_, None) |- _ =>
             apply write_lines_done in H as (texts & Hf & ->)
         | H : write_lines sym_line _ _ = _ |- _ =>
             rewrite (write_lines_texts _ _ _ _ (sym_lines _)) in H;
             simplify_eq
         end.
  all: try (exists texts; split; [done|]).
  all: tree_solver.
Qed.

(** X15. In a run that completes, the file of unresolved symbols holds
    one line [sym = 0x<sym without its first two characters>;] for each
    symbol that a code segment that ran asked for, in sorted order and
    once each: nothing is taken out of that list, neither the names
    defined in the run nor the manual lists. *)
Theorem unresolved_symbols_file :
  outcome TheRun = None →
  (∀ sym, sym ∈ sorted (undefined_syms (locals TheRun))
     ↔ ∃ j seg r, (j, seg, r) ∈ ran_segments (locals TheRun)
                  ∧ Seg.is_N64SegCode seg = true
                  ∧ sym ∈ undefined_syms_to_add r)
  ∧ Sorted String.le (sorted (undefined_syms (locals TheRun)))
  ∧ NoDup (sorted (undefined_syms (locals TheRun)))
  ∧ (sorted (undefined_syms (locals TheRun)) ≠ [] →
     files (tree TheRun) !! undefined_syms_auto_path
     = Some (Text (foldr String.append EmptyString
                     ((λ sym, sym +:+ " = 0x" +:+ PyStr.drop 2 sym +:+ ";"
                              +:+ PyStr.nl)
                        <$> sorted (undefined_syms (locals TheRun)))))).
Proof.
  intros Hout. split_and!.
  - intros sym. rewrite elem_of_sorted.
    destruct main_ran_inv as (_ & _ & _ & _ & _ & -> & _).
    apply elem_of_symbols_of.
  - apply Sorted_sorted.
  - apply NoDup_sorted.
  - destruct (main_cases decl_len parse_segment_type env rom_bytes config
                config_parent symbol_addrs undefined_syms_txt modes verbose
                ignore_cache fs)
      as [(st & f0 & Hl & Hrun)|[(st & st' & f0 & Hl & Hp & Hrun)
                              |(st & st' & Hl & Hp & Hrun)]];
      rewrite Hrun in Hout |- *; [done..|].
    rewrite finish_locals. by apply finish_auto_files.
Qed.

(** X16. In a run that completes, the file of unresolved functions
    holds the lines of the names to write, in sorted order: every one of
    these names has an underscore. *)
Theorem unresolved_functions_file :
  outcome TheRun = None →
  Forall (λ n, PyStr.occurs "_" n = true)
         (unresolved_funcs CFuncsOf (locals TheRun))
  ∧ (unresolved_funcs CFuncsOf (locals TheRun) ≠ [] →
     ∃ texts,
       Forall2 (λ n t, func_line n = Some t)
               (unresolved_funcs CFuncsOf (locals TheRun)) texts
       ∧ files (tree TheRun) !! undefined_funcs_auto_path
         = Some (Text (foldr String.append EmptyString texts))).
Proof.
  intros Hout.
  destruct (main_cases decl_len parse_segment_type env rom_bytes config
              config_parent symbol_addrs undefined_syms_txt modes verbose
              ignore_cache fs)
    as [(st & f0 & Hl & Hrun)|[(st & st' & f0 & Hl & Hp & Hrun)
                            |(st & st' & Hl & Hp & Hrun)]];
    rewrite Hrun in Hout |- *; [done..|].
  rewrite finish_locals.
  destruct (finish_auto_files st' Tree0 Hout) as [Hf _].
  split; [|done].
  destruct (unresolved_funcs CFuncsOf st') as [|n names] eqn:Hn; [constructor|].
  destruct Hf as (texts & Hf & _); [done|].
  clear -Hf. induction Hf as [|n0 t0 ns ts H0 _ IH]; constructor; [|done].
  destruct (PyStr.occurs "_" n0) eqn:Ho; [done|].
  apply func_line_None in Ho. congruence.
Qed.

(** X17. A name to write that has no underscore stops the run at the
    export of unresolved functions, with [IndexError]: the file then
    holds the lines of the names sorted before it, and neither the file
    of unresolved symbols nor the cache file is written. *)
Theorem name_without_underscore_stops_export st st' good bad rest :
  Loop 0%nat (segments config) (initial fs) = (st, None) →
  postsplit_all (ran_segments st) st = (st', None) →
  unresolved_funcs CFuncsOf st' = good ++ bad :: rest →
  Forall (λ n, PyStr.occurs "_" n = true) good →
  PyStr.occurs "_" bad = false →
  outcome TheRun = Some (Raise "IndexError")
  ∧ (∃ texts,
       Forall2 (λ n t, func_line n = Some t) good texts
       ∧ files (tree TheRun) !! undefined_funcs_auto_path
         = Some (Text (foldr String.append EmptyString texts)))
  ∧ (undefined_syms_auto_path ∉ opened (tree TheRun))
  ∧ (cache_path ∉ opened (tree TheRun)).
Proof.
  intros Hl Hp Hu Hgood Hbad.
  destruct (func_lines_exist good Hgood) as [texts Hf].
  apply func_line_None in Hbad.
  assert (TheRun
          = {| locals := st';
               tree := write_file undefined_funcs_auto_path
                         (Text (foldr String.append EmptyString texts))
                         (write_ld config Opts st' Tree0);
               outcome := Some (Raise "IndexError") |}) as ->.
  { unfold main. rewrite Hl, Hp. unfold finish, write_auto. rewrite Hu.
    rewrite (write_lines_stops _ _ _ _ _ _ Hf Hbad).
    rewrite decide_True by (rewrite length_app; simpl; lia). done. }
  simpl. split_and!; [done|eauto| |].
  - exists texts. split; [done|]. apply lookup_insert_eq.
  - unfold write_ld, write_file. case_match; simpl; tree_solver.
  - unfold write_ld, write_file. case_match; simpl; tree_solver.
Qed.


End MoreRunFacts.

(** ** Instances *)

(** Region A is found in the cache, region B is not in the modes. *)
Lemma cache_hit_and_mode_skip_witness :
  (Seg.should_run ex_seg_A = true
   ∧ load_cache ex_cached_fs !! Seg.unique_id ex_seg_A
     = Some (Seg.cache ex_seg_A)
   ∧ Seg.should_run ex_seg_off = false)
  ∧ ((0%nat, MSplit) ∉ calls (locals ex_run_cached))
  ∧ ((0%nat, MGetLdSection) ∉ calls (locals ex_run_cached))
  ∧ ((1%nat, MCache) ∉ calls (locals ex_run_cached))
  ∧ ((1%nat, MGetLdSection) ∈ calls (locals ex_run_cached)).
Proof.
  split; [by split_and!|].
  pose (segs := [ex_A; ex_off; ExSentinel 4]).
  pose (st1 := (ex_loop segs [] (ModesList ["code"]) false 0%nat (take 1 segs)
                        (initial ex_cached_fs)).1).
  assert (ex_loop segs [] (ModesList ["code"]) false 0%nat (take 1 segs)
                  (initial ex_cached_fs) = (st1, None)) as Hpre
    by (vm_compute; reflexivity).
  assert (ex_region_at segs (ModesList ["code"]) 1%nat ex_off
          = Some (ex_class false, ex_seg_off))
    as Hreg by (vm_compute; reflexivity).
  assert ((ex_body segs [] (ModesList ["code"]) false 1%nat ex_off st1).2 = None)
    as Hdone by (vm_compute; reflexivity).
  destruct (cache_hit_and_mode_skip ex_len ex_type ex_env ex_rom (ex_config segs)
              "cfg" [] [] (ModesList ["code"]) false false ex_cached_fs
              0%nat ex_A (ex_class true) ex_seg_A
              (initial ex_cached_fs) eq_refl eq_refl eq_refl) as [H0 _].
  destruct (cache_hit_and_mode_skip ex_len ex_type ex_env ex_rom (ex_config segs)
              "cfg" [] [] (ModesList ["code"]) false false ex_cached_fs
              1%nat ex_off (ex_class false) ex_seg_off
              st1 eq_refl Hpre Hreg) as [_ H1].
  destruct (H0 eq_refl eq_refl eq_refl) as (A1 & _ & _ & A2 & _).
  destruct (H1 eq_refl) as (B1 & _ & B2).
  destruct (B2 Hdone) as (_ & B3 & _).
  exact (conj A1 (conj A2 (conj B1 B3))).
Defined.

(** Evaluates a closed membership in a list. *)
Ltac in_list_at k := apply list_elem_of_lookup; exists k; vm_compute; reflexivity.

(** Evaluates a closed membership in a set. *)
Ltac in_set := apply (bool_decide_unpack _); vm_compute; exact I.

(** Region A, declared first, requests [func_80001000]; region B,
    declared second, defines it; the manual list is empty. The name is
    not exported, and no file of unresolved functions is written. *)
Lemma requested_then_defined_not_exported :
  outcome ex_run_AB = None
  ∧ ran_segments (locals ex_run_AB)
    = [(0%nat, ex_seg_A, ex_res_A); (1%nat, ex_seg_B, ex_res_B)]
  ∧ func_N ∈ glabels_to_add ex_res_A
  ∧ func_N ∈ glabels_added ex_res_B
  ∧ funcs (gather_c_funcs []) = ∅
  ∧ unresolved_funcs (gather_c_funcs []) (locals ex_run_AB) = []
  ∧ files (tree ex_run_AB) !! undefined_funcs_auto_path = None
  ∧ undefined_funcs_auto_path ∉ opened (tree ex_run_AB).
Proof.
  split_and!; try (vm_compute; reflexivity); in_set.
Qed.

(** The same name with either region declared first. *)
Lemma defined_name_not_exported_witness :
  (func_N ∉ unresolved_funcs (gather_c_funcs []) (locals ex_run_AB))
  ∧ (func_N ∉ unresolved_funcs (gather_c_funcs []) (locals ex_run_BA)).
Proof.
  split.
  - apply (defined_name_not_exported ex_len ex_type ex_env ex_rom
             (ex_config [ex_A; ex_B; ExSentinel 4]) "cfg" [] [] (ModesStr "all")
             false true ∅ 0%nat 1%nat ex_seg_A ex_seg_B ex_res_A ex_res_B func_N);
      [in_list_at 0%nat | in_list_at 1%nat | reflexivity | reflexivity
      | in_set | in_set].
  - apply (defined_name_not_exported ex_len ex_type ex_env ex_rom
             (ex_config [ex_B; ex_A; ExSentinel 4]) "cfg" [] [] (ModesStr "all")
             false true ∅ 1%nat 0%nat ex_seg_A ex_seg_B ex_res_A ex_res_B func_N);
      [in_list_at 1%nat | in_list_at 0%nat | reflexivity | reflexivity
      | in_set | in_set].
Defined.

(** Every fingerprint checked equals the stored one and nothing is
    added, and the cache file is rewritten. *)
Lemma unchanged_cache_is_rewritten :
  outcome ex_run_unchanged = None
  ∧ calls (locals ex_run_unchanged)
    = [(0%nat, MCheck); (0%nat, MShouldRun); (0%nat, MCache)]
  ∧ load_cache ex_cached_fs !! Seg.unique_id ex_seg_whole
    = Some (Seg.cache ex_seg_whole)
  ∧ ran_segments (locals ex_run_unchanged) = []
  ∧ cache (locals ex_run_unchanged) = load_cache ex_cached_fs
  ∧ cache_path ∈ opened (tree ex_run_unchanged).
Proof.
  split_and!; try (vm_compute; reflexivity).
  apply list_elem_of_lookup. exists 1%nat. vm_compute. reflexivity.
Qed.

(** The cache file of a run whose loaded cache was not empty. *)
Lemma cache_rewritten_iff_nonempty_witness :
  outcome ex_run_unchanged = None
  ∧ cache_path ∈ opened (tree ex_run_unchanged)
  ∧ files (tree ex_run_unchanged) !! cache_path
    = Some (Pickle (cache (locals ex_run_unchanged))).
Proof.
  assert (outcome ex_run_unchanged = None) as Hout by (vm_compute; reflexivity).
  assert (cache (locals ex_run_unchanged) ≠ ∅) as Hne.
  { intros He. apply (f_equal (λ c, c !! "code_A")) in He.
    vm_compute in He. discriminate. }
  destruct (cache_rewritten_iff_nonempty ex_len ex_type ex_env ex_rom
              (ex_config [ex_whole; ExSentinel 4]) "cfg" [] [] (ModesStr "all")
              false false ex_cached_fs Hout) as (H1 & _ & H3).
  exact (conj Hout (conj (proj2 H1 Hne) (H3 Hne))).
Defined.

(** Regions A and B partition the four bytes of the binary. *)
Lemma statistics_assertion_holds_witness :
  partitions [ex_seg_A; ex_seg_B] (total_size ex_rom)
  ∧ unk_size (locals ex_run_AB) + rest_size (locals ex_run_AB)
    = total_size ex_rom
  ∧ statistics ex_rom (locals ex_run_AB) ≠ Some (Raise "AssertionError").
Proof.
  pose (segs := [ex_A; ex_B; ExSentinel 4]).
  pose (st := (ex_loop segs [] (ModesStr "all") true 0%nat segs (initial ∅)).1).
  assert (partitions [ex_seg_A; ex_seg_B] (total_size ex_rom)) as Hpart.
  { apply covers_cons; [reflexivity|vm_compute; discriminate|].
    apply covers_cons; [reflexivity|vm_compute; discriminate|].
    apply covers_nil. }
  split; [exact Hpart|].
  apply (statistics_assertion_holds ex_len ex_type ex_env ex_rom (ex_config segs)
           "cfg" [] [] (ModesStr "all") false true ∅ st).
  - exact Hpart.
  - vm_compute. reflexivity.
Defined.



(** Two code regions named [A] stop the run at the second one; two
    binary regions named [B] do not. *)
Lemma duplicate_unique_name_is_fatal_witness :
  (outcome ex_run_duplicate = Some (Exit 1)
   ∧ opened (tree ex_run_duplicate) = []
   ∧ files (tree ex_run_duplicate) = ∅)
  ∧ (LogText (not_unique "B") ∉ log (locals ex_run_bins)).
Proof.
  pose (segs := [ex_A; ex_A2; ExSentinel 4]).
  pose (st1 := (ex_loop segs [] (ModesStr "all") true 0%nat (take 1 segs)
                        (initial ∅)).1).
  assert (ex_loop segs [] (ModesStr "all") true 0%nat (take 1 segs) (initial ∅)
          = (st1, None)) as Hpre by (vm_compute; reflexivity).
  destruct (duplicate_unique_name_is_fatal ex_len ex_type ex_env ex_rom
              (ex_config segs) "cfg" [] [] (ModesStr "all") false true ∅)
    as (Ha & _ & _).
  destruct (duplicate_unique_name_is_fatal ex_len ex_type ex_env ex_rom
              (ex_config [ex_B1; ex_off; ExSentinel 4]) "cfg" [] []
              (ModesStr "all") false true ∅) as (_ & _ & Hb).
  destruct (Ha 0%nat 1%nat ex_A ex_A2 (ex_class true) ex_seg_A (ex_class true)
               ex_seg_A2 st1 ltac:(lia) eq_refl eq_refl Hpre eq_refl eq_refl
               eq_refl eq_refl eq_refl) as (A1 & _ & _ & A2 & A3).
  split; [exact (conj A1 (conj A2 A3))|].
  apply Hb. intros k d cls seg Hk Hreg.
  destruct k as [|[|[|k]]]; simpl in Hk; simplify_eq;
    vm_compute in Hreg; by simplify_eq.
Defined.

(** A run with nothing unresolved leaves the export of an earlier run as
    it was. *)
Lemma auto_files_written_iff_nonempty_witness :
  unresolved_funcs (gather_c_funcs []) (locals ex_run_stale) = []
  ∧ (undefined_funcs_auto_path ∉ opened (tree ex_run_stale))
  ∧ files (tree ex_run_stale) !! undefined_funcs_auto_path = Some (Text "stale").
Proof.
  assert (unresolved_funcs (gather_c_funcs []) (locals ex_run_stale) = [])
    as He by (vm_compute; reflexivity).
  destruct (auto_files_written_iff_nonempty ex_len ex_type ex_env ex_rom
              (ex_config [ex_A; ex_B; ExSentinel 4]) "cfg" [] [] (ModesStr "all")
              false true ex_stale_fs) as (H1 & _).
  destruct (H1 He) as [H2 H3].
  exact (conj He (conj H2 H3)).
Defined.

(** With the modes [code] alone no linker script is written, and the
    section of the region outside the modes is collected. *)
Lemma ldscript_written_iff_mode_witness :
  in_modes "ld" (ModesList ["code"]) || in_modes "all" (ModesList ["code"])
  = false
  ∧ (ldscript_path "rom" ∉ opened (tree ex_run_cached))
  ∧ (1%nat, MGetLdSection) ∈ calls (locals ex_run_cached)
  ∧ Seg.get_ld_section ex_seg_off ∈ ld_sections (locals ex_run_cached).
Proof.
  pose (segs := [ex_A; ex_off; ExSentinel 4]).
  pose (st := (ex_loop segs [] (ModesList ["code"]) false 0%nat segs
                       (initial ex_cached_fs)).1).
  pose (st1 := (ex_loop segs [] (ModesList ["code"]) false 0%nat (take 1 segs)
                        (initial ex_cached_fs)).1).
  assert (ex_loop segs [] (ModesList ["code"]) false 0%nat segs
                  (initial ex_cached_fs) = (st, None)) as Hl
    by (vm_compute; reflexivity).
  assert (postsplit_all (ran_segments st) st = (st, None)) as Hp
    by (vm_compute; reflexivity).
  assert (ex_loop segs [] (ModesList ["code"]) false 0%nat (take 1 segs)
                  (initial ex_cached_fs) = (st1, None)) as Hpre
    by (vm_compute; reflexivity).
  assert (ex_region_at segs (ModesList ["code"]) 1%nat ex_off
          = Some (ex_class false, ex_seg_off)) as Hreg
    by (vm_compute; reflexivity).
  destruct (ldscript_written_iff_mode ex_len ex_type ex_env ex_rom
              (ex_config segs) "cfg" [] [] (ModesList ["code"]) false false
              ex_cached_fs st st Hl Hp) as (H1 & _ & H3).
  destruct (H3 1%nat ex_off (ex_class false) ex_seg_off st1 eq_refl Hpre Hreg
               eq_refl) as [H4 H5].
  split_and!; [reflexivity| |exact H4|exact H5].
  intros Hin. apply H1 in Hin. discriminate Hin.
Defined.

(** ** Instances of the further properties *)

(** The run of A and B: the bucket [code] is a key of the three
    dictionaries. *)
Lemma counters_share_keys_witness :
  is_Some (dict_iadd "code" 1 (seg_split (locals ex_run_AB)))
  ∧ is_Some (dict_iadd "code" 1 (seg_cached (locals ex_run_AB))).
Proof.
  unfold ex_run_AB, ex_main.
  destruct (counters_share_keys ex_len ex_type ex_env ex_rom
              (ex_config [ex_A; ex_B; ExSentinel 4]) "cfg" [] []
              (ModesStr "all") false true ∅) as (_ & _ & _ & H).
  apply (H "code"). in_set.
Defined.

(** The run of A and B: two code segments ran. *)
Lemma counters_count_segments_witness :
  seg_split (locals ex_run_AB) !! "code" = Some 2
  ∧ 2 = Z.of_nat (count_ran "code" (ran_segments (locals ex_run_AB))).
Proof.
  unfold ex_run_AB, ex_main.
  destruct (counters_count_segments ex_len ex_type ex_env ex_rom
              (ex_config [ex_A; ex_B; ExSentinel 4]) "cfg" [] []
              (ModesStr "all") false true ∅) as (H & _).
  split; [vm_compute; reflexivity|].
  apply (H "code" 2). vm_compute. reflexivity.
Defined.

(** Region A, declared after region B, is split with the name that B
    defined in [all_functions]. *)
Lemma split_sees_earlier_definitions_witness :
  (1%nat, ex_seg_A, ex_res_A) ∈ ran_segments (locals ex_run_BA)
  ∧ Seg.should_run ex_seg_A = true
  ∧ ∃ s : @Locals nat,
      defined_funcs s
      = symbols_of glabels_added
          (ran_before 1 (ran_segments (locals ex_run_BA)))
      ∧ Seg.split ex_seg_A ex_rom
          (code_context (gather_c_funcs []) (gather_c_variables []) ex_seg_A s)
        = inr ex_res_A.
Proof.
  unfold ex_run_BA, ex_main.
  assert (H := split_sees_earlier_definitions ex_len ex_type ex_env ex_rom
                 (ex_config [ex_B; ex_A; ExSentinel 4]) "cfg" [] []
                 (ModesStr "all") false true ∅ 1%nat ex_seg_A ex_res_A).
  destruct H as (_ & H2 & H3); [in_list_at 1%nat|].
  split_and!; [in_list_at 1%nat|exact H2|exact H3].
Defined.

(** The run of A and B: [postsplit] is called on A, then on B, after
    the calls of the loop. *)
Lemma second_pass_in_declaration_order_witness :
  StronglySorted (λ a b : nat * Segment nat * SplitResult, (a.1.1 < b.1.1)%nat)
    (ran_segments
       (ex_loop [ex_A; ex_B; ExSentinel 4] [] (ModesStr "all") true 0%nat
                [ex_A; ex_B; ExSentinel 4] (initial ∅)).1)
  ∧ calls (locals ex_run_AB)
    = calls (ex_loop [ex_A; ex_B; ExSentinel 4] [] (ModesStr "all") true 0%nat
                     [ex_A; ex_B; ExSentinel 4] (initial ∅)).1
      ++ [(0%nat, MPostsplit); (1%nat, MPostsplit)].
Proof.
  unfold ex_run_AB, ex_main.
  set (segs := [ex_A; ex_B; ExSentinel 4]).
  set (st := (ex_loop segs [] (ModesStr "all") true 0%nat segs (initial ∅)).1).
  assert (H := second_pass_in_declaration_order ex_len ex_type ex_env ex_rom
                 (ex_config segs) "cfg" [] [] (ModesStr "all") false true ∅
                 st (postsplit_all (ran_segments st) st).1).
  destruct H as [H1 H2]; [vm_compute; reflexivity|].
  split; [exact H1|].
  destruct H2 as [H3 _]; [vm_compute; reflexivity|].
  rewrite H3. f_equal.
Defined.

(** Region A alone covers two of the four bytes: the assertion fails.
    Regions A and B cover the four bytes: the step passes. *)
Lemma statistics_by_region_lengths_witness :
  (total_length (regions ex_len ex_type ex_env (ex_config [ex_A; ExSentinel 2])
                         "cfg" (run_options (ex_config [ex_A; ExSentinel 2])
                                            (ModesStr "all") false))
   ≠ total_size ex_rom
   ∧ statistics ex_rom
       (locals (ex_main [ex_A; ExSentinel 2] [] (ModesStr "all") true ∅))
     = Some (Raise "AssertionError"))
  ∧ (Forall (λ s, 0 ≤ Seg.rom_length s)
            (regions ex_len ex_type ex_env
                     (ex_config [ex_A; ex_B; ExSentinel 4]) "cfg"
                     (run_options (ex_config [ex_A; ex_B; ExSentinel 4])
                                  (ModesStr "all") false))
     ∧ statistics ex_rom
         (locals (ex_main [ex_A; ex_B; ExSentinel 4] [] (ModesStr "all") true
                          ∅))
       = None).
Proof.
  unfold ex_main. split.
  - set (segs := [ex_A; ExSentinel 2]).
    pose (st := (ex_loop segs [] (ModesStr "all") true 0%nat segs
                         (initial ∅)).1).
    assert (H := statistics_by_region_lengths ex_len ex_type ex_env ex_rom
                   (ex_config segs) "cfg" [] [] (ModesStr "all") false true ∅
                   st).
    destruct H as (H1 & _); [vm_compute; reflexivity|].
    assert (total_length
              (regions ex_len ex_type ex_env (ex_config segs) "cfg"
                 (run_options (ex_config segs) (ModesStr "all") false))
            ≠ total_size ex_rom) as Hne by (vm_compute; discriminate).
    split; [exact Hne|]. apply H1. exact Hne.
  - set (segs := [ex_A; ex_B; ExSentinel 4]).
    pose (st := (ex_loop segs [] (ModesStr "all") true 0%nat segs
                         (initial ∅)).1).
    assert (H := statistics_by_region_lengths ex_len ex_type ex_env ex_rom
                   (ex_config segs) "cfg" [] [] (ModesStr "all") false true ∅
                   st).
    destruct H as (_ & _ & H3); [vm_compute; reflexivity|].
    assert (Forall (λ s, 0 ≤ Seg.rom_length s)
              (regions ex_len ex_type ex_env (ex_config segs) "cfg"
                 (run_options (ex_config segs) (ModesStr "all") false)))
      as Hnn.
    { replace (regions _ _ _ _ _ _) with [ex_seg_A; ex_seg_B]
        by (vm_compute; reflexivity).
      repeat constructor; vm_compute; discriminate. }
    split; [exact Hnn|]. apply (H3 Hnn).
    split; [vm_compute; reflexivity|discriminate].
Defined.

(** The run on the empty binary stops, and writes no cache file. *)
Lemma empty_binary_never_completes_witness :
  outcome ex_run_empty ≠ None
  ∧ (cache_path ∉ opened (tree ex_run_empty))
  ∧ files (tree ex_run_empty) !! cache_path = (∅ : gmap string (File nat)) !! cache_path.
Proof.
  unfold ex_run_empty.
  apply (empty_binary_never_completes ex_len ex_type ex_env []
           (ex_config [ExSentinel 0]) "cfg" [] [] (ModesStr "all") false true ∅).
  reflexivity.
Defined.


(** Regions A and B have two identities. *)
Lemma ex_AB_fingerprints_agree :
  fingerprints_agree
    (regions ex_len ex_type ex_env (ex_config [ex_A; ex_B; ExSentinel 4]) "cfg"
       (run_options (ex_config [ex_A; ex_B; ExSentinel 4]) (ModesStr "all")
                    false)).
Proof.
  replace (regions _ _ _ _ _ _) with [ex_seg_A; ex_seg_B]
    by (vm_compute; reflexivity).
  intros s1 s2 H1 H2 _ _ Hid.
  apply elem_of_cons in H1 as [->|H1]; [|apply list_elem_of_singleton in H1 as ->];
    (apply elem_of_cons in H2 as [->|H2];
       [|apply list_elem_of_singleton in H2 as ->]);
    first [reflexivity | by vm_compute in Hid].
Qed.

(** The run of A and B, then the same run on its output tree with the
    cache not ignored: nothing is extracted, and the linker script is
    rewritten with no section. *)
Lemma rerun_extracts_nothing_witness :
  outcome ex_run_AB = None
  ∧ outcome ex_rerun_AB = None
  ∧ ran_segments (locals ex_rerun_AB) = []
  ∧ cache (locals ex_rerun_AB) = cache (locals ex_run_AB)
  ∧ ld_sections (locals ex_rerun_AB) = []
  ∧ files (tree ex_rerun_AB) !! ldscript_path "rom"
    = Some (Text (write_ldscript [] false)).
Proof.
  unfold ex_rerun_AB, ex_run_AB, ex_main.
  assert (H := rerun_extracts_nothing ex_len ex_type ex_env ex_rom
                 (ex_config [ex_A; ex_B; ExSentinel 4]) "cfg" [] []
                 (ModesStr "all") false true ∅).
  destruct H as (H1 & H2 & _ & H4 & H5 & H6);
    [vm_compute; reflexivity|exact ex_AB_fingerprints_agree|].
  split_and!; [vm_compute; reflexivity|exact H1|exact H2|exact H4| |].
  - rewrite H5. vm_compute. reflexivity.
  - change "rom" with (basename (ex_config [ex_A; ex_B; ExSentinel 4])).
    rewrite H6 by reflexivity. vm_compute. reflexivity.
Defined.

(** The run on the cache that holds the fingerprint of A: the entry
    stays, whether A runs or not. *)
Lemma cache_entries_after_loop_witness :
  cache (locals ex_run_unchanged) !! "code_A" = Some 1%nat
  ∧ cache (locals ex_run_unchanged) !! "code_B"
    = load_cache ex_cached_fs !! "code_B".
Proof.
  unfold ex_run_unchanged, ex_main.
  set (segs := [ex_whole; ExSentinel 4]).
  pose (st := (ex_loop segs [] (ModesStr "all") false 0%nat segs
                       (initial ex_cached_fs)).1).
  destruct (cache_entries_after_loop ex_len ex_type ex_env ex_rom
              (ex_config segs) "cfg" [] [] (ModesStr "all") false false
              ex_cached_fs) as [_ H].
  specialize (H st). split.
  - rewrite (H ltac:(vm_compute; reflexivity) "code_A"). vm_compute.
    reflexivity.
  - rewrite (H ltac:(vm_compute; reflexivity) "code_B"). vm_compute.
    reflexivity.
Defined.

(** The run of A and B with the cache ignored. *)
Lemma full_run_in_declaration_order_witness :
  ld_sections (locals ex_run_AB)
  = ["A" +:+ PyStr.nl; "B" +:+ PyStr.nl]
  ∧ (ran_segments (locals ex_run_AB)).*1.*2 = [ex_seg_A; ex_seg_B].
Proof.
  unfold ex_run_AB, ex_main.
  set (segs := [ex_A; ex_B; ExSentinel 4]).
  pose (st := (ex_loop segs [] (ModesStr "all") true 0%nat segs (initial ∅)).1).
  assert (H := full_run_in_declaration_order ex_len ex_type ex_env ex_rom
                 (ex_config segs) "cfg" [] [] (ModesStr "all") false true ∅
                 st).
  destruct H as [H1 H2]; [reflexivity|vm_compute; reflexivity|].
  split.
  - rewrite H1. vm_compute. reflexivity.
  - rewrite H2. vm_compute. reflexivity.
Defined.

(** The names [main], [func_80001000] and [func_8000_1] . *)
Lemma func_line_cases_witness :
  func_line "main" = None
  ∧ func_line "func_80001000abc_x"
    = Some ("func_80001000abc_x = 0x80001000;" +:+ PyStr.nl)
  ∧ func_line "func_8000_1" = Some ("func_8000_1 = 0x8000;" +:+ PyStr.nl).
Proof.
  destruct (func_line_cases "main") as [H1 _].
  destruct (func_line_cases "func_80001000abc_x") as (_ & H2 & _).
  destruct (func_line_cases "func_8000_1") as (_ & H3 & _).
  exact (conj (proj2 H1 eq_refl)
           (conj (H2 "func" "80001000abc_x" eq_refl eq_refl eq_refl)
                 (H3 "func" "8000_1" eq_refl eq_refl eq_refl))).
Defined.

(** The symbol that region D asks for is written to the file of
    unresolved symbols. *)
Lemma unresolved_symbols_file_witness :
  outcome ex_run_syms = None
  ∧ "D_80001000" ∈ sorted (undefined_syms (locals ex_run_syms))
  ∧ files (tree ex_run_syms) !! undefined_syms_auto_path
    = Some (Text ("D_80001000 = 0x80001000;" +:+ PyStr.nl)).
Proof.
  unfold ex_run_syms, ex_main.
  assert (H := unresolved_symbols_file ex_len ex_type ex_env ex_rom
                 (ex_config [ex_D; ExSentinel 4]) "cfg" [] [] (ModesStr "all")
                 false true ∅).
  destruct H as (H1 & _ & _ & H4); [vm_compute; reflexivity|].
  split_and!; [vm_compute; reflexivity| |].
  - apply H1. exists 0%nat, ex_seg_D, ex_res_D.
    split_and!; [in_list_at 0%nat|reflexivity|in_set].
  - rewrite H4.
    + vm_compute. reflexivity.
    + vm_compute. discriminate.
Defined.

(** The run of region A over the whole binary writes the line of
    [func_80001000]. *)
Lemma unresolved_functions_file_witness :
  outcome ex_run_manual = None
  ∧ Forall (λ n, PyStr.occurs "_" n = true)
           (unresolved_funcs (gather_c_funcs ex_symbol_addrs)
                             (locals ex_run_manual))
  ∧ ∃ texts,
      Forall2 (λ n t, func_line n = Some t)
              (unresolved_funcs (gather_c_funcs ex_symbol_addrs)
                                (locals ex_run_manual)) texts
      ∧ files (tree ex_run_manual) !! undefined_funcs_auto_path
        = Some (Text (foldr String.append EmptyString texts)).
Proof.
  unfold ex_run_manual, ex_main.
  assert (H := unresolved_functions_file ex_len ex_type ex_env ex_rom
                 (ex_config [ex_whole; ExSentinel 4]) "cfg" ex_symbol_addrs []
                 (ModesStr "all") false true ∅).
  destruct H as (H1 & H2); [vm_compute; reflexivity|].
  split_and!; [vm_compute; reflexivity|exact H1|].
  apply H2. vm_compute. discriminate.
Defined.

(** Region M asks for [func_80001000] and for [main]: the line of the
    first is written, and the run stops at the second. *)
Lemma name_without_underscore_stops_export_witness :
  outcome ex_run_main = Some (Raise "IndexError")
  ∧ (∃ texts,
       Forall2 (λ n t, func_line n = Some t) ["func_80001000"] texts
       ∧ files (tree ex_run_main) !! undefined_funcs_auto_path
         = Some (Text (foldr String.append EmptyString texts)))
  ∧ (undefined_syms_auto_path ∉ opened (tree ex_run_main))
  ∧ (cache_path ∉ opened (tree ex_run_main)).
Proof.
  unfold ex_run_main, ex_main.
  set (segs := [ex_M; ExSentinel 4]).
  pose (st := (ex_loop segs [] (ModesStr "all") true 0%nat segs (initial ∅)).1).
  pose (st' := (postsplit_all (ran_segments st) st).1).
  apply (name_without_underscore_stops_export ex_len ex_type ex_env ex_rom
           (ex_config segs) "cfg" [] [] (ModesStr "all") false true ∅
           st st' ["func_80001000"] "main" []);
    [vm_compute; reflexivity..|by repeat constructor|reflexivity].
Defined.


(** Two lines for one address, the first of them marked. *)
Lemma gather_c_funcs_by_line_witness :
  funcs (gather_c_funcs
           [ {| line_name := "a"; line_addr := 16; line_ext := [InfoBang] |};
             {| line_name := "b"; line_addr := 16; line_ext := [] |} ]) !! 16
  = Some "b"
  ∧ gathered_special_labels
      (gather_c_funcs
         [ {| line_name := "a"; line_addr := 16; line_ext := [InfoBang] |};
           {| line_name := "b"; line_addr := 16; line_ext := [] |} ]) !! 16
    = Some "a".
Proof.
  destruct (gather_c_funcs_by_line
              [ {| line_name := "a"; line_addr := 16; line_ext := [InfoBang] |};
                {| line_name := "b"; line_addr := 16; line_ext := [] |} ])
    as (H1 & _ & H3).
  exact (conj (H1 16) (H3 16)).
Defined.

(** The line that [main] writes for [func_80001000], read back. *)
Lemma parse_func_line_declaration_witness :
  parse_func_line ex_int ("func_80001000 = 0x80001000;" +:+ PyStr.nl)
  = inr (Some {| line_name := "func_80001000"; line_addr := 0x80001000;
                 line_ext := [] |})
  ∧ parse_func_line ex_int "func_80001000 = 0x800010001"
    = inr (Some {| line_name := "func_80001000"; line_addr := 0x80001000;
                   line_ext := [] |}).
Proof.
  exact (conj
    (parse_func_line_declaration ex_int "func_80001000" "0x80001000" ";"
       PyStr.nl 0x80001000 eq_refl ltac:(discriminate) eq_refl eq_refl eq_refl
       eq_refl eq_refl)
    (parse_func_line_declaration ex_int "func_80001000" "0x80001000" "1"
       EmptyString 0x80001000 eq_refl ltac:(discriminate) eq_refl eq_refl
       eq_refl eq_refl eq_refl)).
Defined.

(** A marked line with a remark. *)
Lemma parse_func_line_comment_witness :
  parse_func_line ex_int ("osInit = 0x80001000; // ! boot" +:+ PyStr.nl)
  = inr (Some {| line_name := "osInit"; line_addr := 0x80001000;
                 line_ext := [InfoBang; InfoOther] |}).
Proof.
  exact (parse_func_line_comment ex_int "osInit" "0x80001000" ";"
           "! boo" "t" PyStr.nl 0x80001000 eq_refl ltac:(discriminate)
           eq_refl eq_refl eq_refl eq_refl eq_refl eq_refl
           ltac:(vm_compute; by repeat constructor) eq_refl).
Defined.

Lemma parse_var_line_declaration_witness :
  parse_var_line ex_int ("D_80001000 = 0x80001000;" +:+ PyStr.nl)
  = inr (Some ("D_80001000", 0x80001000)).
Proof.
  exact (parse_var_line_declaration ex_int "D_80001000" "0x80001000" ";"
           PyStr.nl 0x80001000 eq_refl ltac:(discriminate) eq_refl eq_refl
           eq_refl eq_refl eq_refl).
Defined.

(** The same marked line in [undefined_syms.txt] is refused. *)
Lemma parse_var_line_comment_witness :
  parse_var_line ex_int ("osInit = 0x80001000; // !" +:+ PyStr.nl)
  = inl (Raise "ValueError").
Proof.
  exact (parse_var_line_comment ex_int "osInit" "0x80001000" ";"
           EmptyString "!" PyStr.nl eq_refl ltac:(discriminate)
           eq_refl eq_refl eq_refl eq_refl eq_refl eq_refl eq_refl).
Defined.
